(** * UploadQueueManager: the upload queue of the bulk products uploader

    A shallow embedding of [upload_queue.py] (class [UploadQueueManager]),
    of the two clients of [api_client.py] that it is given, and of two
    producers of its tasks ([validate_products] of [bulk_processor.py] and
    [queue_bulk_products] of [main.py]), with the properties of its
    specification and further properties of the code.

    - Python dicts that are used as records ([task], the product payload,
      the result) are records whose optional keys are [option] fields, so
      that [d['k']] on an absent key raises [KeyError] as in the source.
    - The [stats] dict is an object in a store ([heap]); [self.stats] is a
      reference into it, and [get_stats] allocates the copy it returns.
    - The body of the worker loop is a program in a state-and-exception
      monad over the whole manager state; the threads are program counters
      in that state and [exec] runs one scheduling step of one thread or one
      call of the owner.  A step of a worker is one statement on shared
      state: a call of a capability, the read or the store of a
      [self.stats[k] += 1] (no lock is held between the two), a [put], a
      [task_done].  [process_task] is the same iteration run without
      interruption.
    - An exception has its class and the classes that class derives from,
      so that the [except queue.Empty] and [except Exception] clauses of
      the worker catch what they catch in the source and let pass what
      they let pass.
    - The two injected capabilities ([wp_api.upload_media],
      [wc_api.create_product]) and the completion callback are parameters:
      functions on an abstract [World] that return a reply or raise. *)

From stdpp Require Import gmap strings list fin_maps pretty.
From Stdlib Require Import ZArith Ascii.

Open Scope string_scope.
Open Scope Z_scope.
Open Scope list_scope.

(** ** Python exceptions and the state-and-exception monad *)

(** An exception: its class, the classes that class derives from, and
    [str(e)]. *)
Record exn := Exn {
  exn_class : string;
  exn_bases : list string;
  str : string
}.

(** [isinstance(e, cls)], which is what an [except cls] clause tests. *)
Definition isinstance (e : exn) (cls : string) : bool :=
  bool_decide (cls = exn_class e ∨ cls ∈ exn_bases e).

(** The bases of a class that derives from [Exception] directly. *)
Definition Exception_bases : list string := ["Exception"; "BaseException"].

(** [str(KeyError('k'))] is the [repr] of the key, quotes included. *)
Definition KeyError (k : string) : exn :=
  Exn "KeyError" ("LookupError" :: Exception_bases) ("'" +:+ k +:+ "'").
Definition ValueError (msg : string) : exn :=
  Exn "ValueError" Exception_bases msg.
Definition ReferenceError (msg : string) : exn :=
  Exn "ReferenceError" Exception_bases msg.

Definition ConnectionError (msg : string) : exn :=
  Exn "ConnectionError" ("OSError" :: Exception_bases) msg.

(** The two exceptions that the [except] clauses of the worker tell from
    the others: [queue.Empty], and one that does not derive from
    [Exception]. *)
Definition queue_Empty : exn := Exn "queue.Empty" Exception_bases "".
Definition SystemExit (code : string) : exn :=
  Exn "SystemExit" ["BaseException"] code.

Inductive outcome (A : Type) : Type :=
| Return (a : A)
| Raise (e : exn).
Arguments Return {A} a.
Arguments Raise {A} e.

(** A statement: it runs on a state, returns or raises, and leaves a state
    (what it wrote before raising stays written). *)
Definition M (St A : Type) : Type := St → outcome A * St.

Definition ret {St A} (a : A) : M St A := λ s, (Return a, s).
Definition raise {St A} (e : exn) : M St A := λ s, (Raise e, s).
Definition bind {St A B} (m : M St A) (k : A → M St B) : M St B :=
  λ s, match m s with
       | (Return a, s') => k a s'
       | (Raise e, s') => (Raise e, s')
       end.

(** [try: body / except Exception as e: handler e]. *)
Definition try_except {St A} (body : M St A) (handler : exn → M St A) : M St A :=
  λ s, match body s with
       | (Return a, s') => (Return a, s')
       | (Raise e, s') => handler e s'
       end.

(** The statements are written with stdpp's monad notation:
    [x ← m; k] and [m;; k]. *)
#[global] Instance M_ret {St} : MRet (M St) := λ A, ret.
#[global] Instance M_bind {St} : MBind (M St) := λ A B k m, bind m k.

(** [d[k]] on a record field that may be absent. *)
Definition getitem {St A} (k : string) (field : option A) : M St A :=
  match field with
  | Some v => ret v
  | None => raise (KeyError k)
  end.

(** ** The records that travel through the queues *)

(** The product dict handed to [add_to_queue] (built in [main.py]). *)
Record task := Task {
  task_title : option string;
  task_description : option string;
  task_price : option string;
  task_category_id : option Z;
  task_images : option (list string);
  task_sku : option string;
  task_batch_id : option string;
  task_timestamp : option string
}.

(** A successful reply of [upload_media]: ['id'] and ['url']. *)
Record uploaded := Uploaded { media_id : Z; media_url : string }.

(** The reply of [WordPressMediaAPI.upload_media]:
    [{'success': True, 'id', 'url'}] or [{'success': False, 'error', ...}]. *)
Inductive media_reply :=
| MediaOk (u : uploaded)
| MediaFail (error : string).

(** [{'id': ...}], an entry of the payload's ['images'] and ['categories']. *)
Record id_ref := IdRef { ref_id : Z }.

(** [wc_product_data]. *)
Record product_data := ProductData {
  wc_name : string;
  wc_description : string;
  wc_type : string;
  wc_regular_price : string;
  wc_categories : list id_ref;
  wc_sku : string;
  wc_images : list id_ref
}.

(** What is put on [results_queue]: either the reply dict of
    [create_product] with its ['task'] key set, or one of the two failure
    dicts the worker builds itself. *)
Record result := Result {
  success : bool;
  res_title : option string;
  res_error : option string;
  res_task : option task;
  res_status_code : option Z;
  res_data : option string;
  res_product_data : option product_data
}.

(** [result['task'] = task]. *)
Definition set_task (t : task) (r : result) : result :=
  Result (success r) (res_title r) (res_error r) (Some t)
         (res_status_code r) (res_data r) (res_product_data r).

(** The dict literal of lines 63-68 and 113-118. *)
Definition failure (title : string) (error : string) (t : task) : result :=
  Result false (Some title) (Some error) (Some t) None None None.

(** ** [queue.Queue] *)

(** The part of the standard library's unbounded queue that the manager
    uses: the items waiting and the count of items put and not yet marked
    done. *)
Record Queue (A : Type) := MkQueue { items : list A; unfinished_tasks : nat }.
Arguments MkQueue {A} items unfinished_tasks.
Arguments items {A} q.
Arguments unfinished_tasks {A} q.

Definition Queue_new {A} : Queue A := MkQueue [] 0%nat.
Definition Queue_put {A} (x : A) (q : Queue A) : Queue A :=
  MkQueue (items q ++ [x]) (S (unfinished_tasks q)).
Definition Queue_qsize {A} (q : Queue A) : nat := length (items q).
(** [get(timeout=1)]: the head when there is one, [queue.Empty] otherwise. *)
Definition Queue_get {A} (q : Queue A) : option (A * Queue A) :=
  match items q with
  | x :: rest => Some (x, MkQueue rest (unfinished_tasks q))
  | [] => None
  end.
(** [task_done()] raises when called more often than [put]. *)
Definition Queue_task_done {A} (q : Queue A) : exn + Queue A :=
  match unfinished_tasks q with
  | O => inl (ValueError "task_done() called too many times")
  | S n => inr (MkQueue (items q) n)
  end.
(** [join()] returns once every item put has been marked done. *)
Definition Queue_join_returns {A} (q : Queue A) : bool :=
  bool_decide (unfinished_tasks q = 0%nat).

(** ** The manager state *)

Abbreviation loc := positive.

(** The statement on state shared between the threads that a worker in an
    iteration runs next, with the local variables the rest of the iteration
    reads: a call of [upload_media] (line 54), the call of [create_product]
    (line 92), the read and the store of a [self.stats[k] += 1] (lines 97,
    99 and 112), a [results_queue.put] (lines 63, 102 and 113) or an
    [upload_queue.task_done] (lines 69, 105 and 119). *)
Inductive point :=
| AtUpload (image_path : string) (rest : list string)
           (uploaded_images : list uploaded)
| AtCreate (wc_product_data : product_data)
| AtStatsRead (k : string) (r : result)
| AtStatsWrite (k : string) (v : Z) (r : result)
| AtPut (r : result)
| AtTaskDone.

(** The [try] body (lines 47-106) and the [except Exception] clause (lines
    111-119). *)
Inductive clause := Try | Except.

(** Where a thread stands. A worker is at the [while self.running] test,
    inside [upload_queue.get(timeout=1)], at the start of an iteration with
    the task [get] returned, at a point of that iteration, or gone. *)
Inductive worker_pc :=
| AtLoopHead
| InGet
| InPipeline (t : task)
| Running (c : clause) (t : task) (p : point)
| Exited
| Crashed (e : exn).

Inductive dispatcher_pc :=
| DAtLoopHead
| DInGet
| DExited.

(** What the run has done so far, for stating the properties: every call of
    a capability, every result put, every callback. *)
Inductive event :=
| UploadMedia (image_path : string)
| CreateProduct (p : product_data)
| ResultPut (r : result)
| Callback (r : result).

(** ** The injected capabilities *)

(** [wp_api], [wc_api] and the [on_upload_complete] hook the owner installs
    are interfaces: a call runs on the world outside, returns a reply or
    raises, and leaves a world. *)
Class WordPressMediaAPI (World : Type) := {
  upload_media : string → World → outcome media_reply * World
}.
Class WooCommerceAPI (World : Type) := {
  create_product : product_data → World → outcome result * World
}.
Class Owner (World : Type) := {
  on_upload_complete : result → World → outcome () * World
}.

Section Manager.

Context {World : Type}.
Context `{!WordPressMediaAPI World, !WooCommerceAPI World, !Owner World}.

Record state := State {
  heap : gmap loc (gmap string Z);
  stats : loc;
  upload_queue : Queue task;
  results_queue : Queue result;
  running : bool;
  workers : list worker_pc;
  results_thread : dispatcher_pc;
  world : World;
  history : list event
}.

Definition set_heap (h : gmap loc (gmap string Z)) (s : state) : state :=
  State h (stats s) (upload_queue s) (results_queue s) (running s)
        (workers s) (results_thread s) (world s) (history s).
Definition set_upload_queue (q : Queue task) (s : state) : state :=
  State (heap s) (stats s) q (results_queue s) (running s)
        (workers s) (results_thread s) (world s) (history s).
Definition set_results_queue (q : Queue result) (s : state) : state :=
  State (heap s) (stats s) (upload_queue s) q (running s)
        (workers s) (results_thread s) (world s) (history s).
Definition set_running (b : bool) (s : state) : state :=
  State (heap s) (stats s) (upload_queue s) (results_queue s) b
        (workers s) (results_thread s) (world s) (history s).
Definition set_workers (ws : list worker_pc) (s : state) : state :=
  State (heap s) (stats s) (upload_queue s) (results_queue s) (running s)
        ws (results_thread s) (world s) (history s).
Definition set_results_thread (d : dispatcher_pc) (s : state) : state :=
  State (heap s) (stats s) (upload_queue s) (results_queue s) (running s)
        (workers s) d (world s) (history s).
Definition set_world (w : World) (s : state) : state :=
  State (heap s) (stats s) (upload_queue s) (results_queue s) (running s)
        (workers s) (results_thread s) w (history s).
Definition set_history (h : list event) (s : state) : state :=
  State (heap s) (stats s) (upload_queue s) (results_queue s) (running s)
        (workers s) (results_thread s) (world s) h.
Definition log (ev : event) (s : state) : state :=
  set_history (history s ++ [ev]) s.

(** Reading an attribute of [self], and a statement that only writes. *)
Definition reads {A} (f : state → A) : M state A := λ s, (Return (f s), s).
Definition modify (f : state → state) : M state () := λ s, (Return (), f s).

(** *** Dict objects in the store *)

(** [d[k]] and [d[k] = v] on the dict object at [l]. A reference always
    leads to an object; the case of a location outside the store only makes
    the functions below total. *)
Definition dict_getitem (l : loc) (k : string) : M state Z :=
  λ s, match heap s !! l with
       | Some d =>
           match d !! k with
           | Some v => (Return v, s)
           | None => (Raise (KeyError k), s)
           end
       | None => (Raise (ReferenceError "no such object"), s)
       end.

Definition dict_setitem (l : loc) (k : string) (v : Z) : M state () :=
  λ s, match heap s !! l with
       | Some d => (Return (), set_heap (<[l := <[k := v]> d]> (heap s)) s)
       | None => (Raise (ReferenceError "no such object"), s)
       end.

(** [d[k] += n]: the item is read, and the sum is stored. Nothing holds
    the dict between the two; this is what the statement does when no
    other thread runs in between. *)
Definition dict_iadd (l : loc) (k : string) (n : Z) : M state () :=
  v ← dict_getitem l k;
  dict_setitem l k (v + n).

(** [d.copy()]: a new dict object with the same items. *)
Definition dict_copy (l : loc) : M state loc :=
  λ s, match heap s !! l with
       | Some d =>
           let l' := fresh (dom (heap s)) in
           (Return l', set_heap (<[l' := d]> (heap s)) s)
       | None => (Raise (ReferenceError "no such object"), s)
       end.

(** What a holder of a dict can do to it. *)
Inductive dict_mutation :=
| SetItem (k : string) (v : Z)
| DelItem (k : string)
| Clear.

Definition mutate (mu : dict_mutation) (d : gmap string Z) : gmap string Z :=
  match mu with
  | SetItem k v => <[k := v]> d
  | DelItem k => delete k d
  | Clear => ∅
  end.

Definition dict_mutate (l : loc) (mu : dict_mutation) (s : state) : state :=
  match heap s !! l with
  | Some d => set_heap (<[l := mutate mu d]> (heap s)) s
  | None => s
  end.

(** What the holder of the dict at [l] does to it, one mutation after the
    other. *)
Definition mutations (l : loc) (mus : list dict_mutation) (s : state) : state :=
  foldl (λ s mu, dict_mutate l mu s) s mus.

(** *** Calls into the capabilities and the queues *)

Definition call_upload_media (image_path : string) : M state media_reply :=
  λ s, let s := log (UploadMedia image_path) s in
       let (r, w) := upload_media image_path (world s) in (r, set_world w s).

Definition call_create_product (p : product_data) : M state result :=
  λ s, let s := log (CreateProduct p) s in
       let (r, w) := create_product p (world s) in (r, set_world w s).

Definition results_queue_put (r : result) : M state () :=
  modify (λ s, log (ResultPut r)
                  (set_results_queue (Queue_put r (results_queue s)) s)).

Definition upload_queue_task_done : M state () :=
  λ s, match Queue_task_done (upload_queue s) with
       | inr q => (Return (), set_upload_queue q s)
       | inl e => (Raise e, s)
       end.

(** ** [_process_queue_worker]: one iteration of the loop *)

(** Lines 52-60: upload the images one after the other, keeping the
    successful replies in order. *)
Fixpoint upload_loop (images : list string) (uploaded_images : list uploaded)
  : M state (list uploaded) :=
  match images with
  | [] => ret uploaded_images
  | image_path :: rest =>
      result ← call_upload_media image_path;
      match result with
      | MediaOk u => upload_loop rest (uploaded_images ++ [u])
      | MediaFail _ => upload_loop rest uploaded_images
      end
  end.

(** Lines 84-89: [insert(0, image_data)] for the first index, [append] for
    the others. *)
Fixpoint add_images (i : nat) (uploaded_images : list uploaded)
    (images : list id_ref) : list id_ref :=
  match uploaded_images with
  | [] => images
  | img_info :: rest =>
      let image_data := IdRef (media_id img_info) in
      add_images (S i) rest
        (if bool_decide (i = 0%nat) then image_data :: images
         else images ++ [image_data])
  end.

(** Lines 49-106, the body of the [try]. *)
Definition pipeline (t : task) : M state () :=
  images ← getitem "images" (task_images t);
  uploaded_images ← upload_loop images [];
  match uploaded_images with
  | [] =>
      title ← getitem "title" (task_title t);
      results_queue_put (failure title "No images uploaded successfully" t);;
      upload_queue_task_done
  | _ :: _ =>
      name ← getitem "title" (task_title t);
      description ← getitem "description" (task_description t);
      regular_price ← getitem "price" (task_price t);
      category_id ← getitem "category_id" (task_category_id t);
      let wc_product_data :=
        ProductData name description "simple" regular_price
                    [IdRef category_id] (default "" (task_sku t))
                    (add_images 0 uploaded_images []) in
      result ← call_create_product wc_product_data;
      let result := set_task t result in
      st ← reads stats;
      (if success result then dict_iadd st "completed" 1
       else dict_iadd st "failed" 1);;
      results_queue_put result;;
      upload_queue_task_done
  end.

(** Lines 110-119, the [except Exception as e] clause. *)
Definition on_exception (t : task) (e : exn) : M state () :=
  st ← reads stats;
  dict_iadd st "failed" 1;;
  results_queue_put (failure (default "Unknown" (task_title t)) (str e) t);;
  upload_queue_task_done.

(** Lines 108-119: an exception raised in the [try] body meets the
    clauses in their order. [except queue.Empty] goes on with the loop,
    [except Exception] runs the handler, and an exception that is neither
    leaves the loop. *)
Definition except_clause (t : task) (e : exn) : M state () :=
  if isinstance e "queue.Empty" then mret ()
  else if isinstance e "Exception" then on_exception t e
  else raise e.

(** One iteration of the loop when no other thread runs in between, from
    the task [get] returned to the next test of [self.running]. An
    exception that leaves it ends the thread. *)
Definition process_task (t : task) : M state () :=
  try_except (pipeline t) (except_clause t).

(** ** The iteration, statement by statement *)

(** Lines 62-92, from the end of the uploads to the next statement on
    shared state: with nothing uploaded the failure of lines 63-68 is to be
    put; else the payload is built and [create_product] is to be called. *)
Definition after_uploads (t : task) (uploaded_images : list uploaded)
  : M state point :=
  match uploaded_images with
  | [] =>
      title ← getitem "title" (task_title t);
      mret (AtPut (failure title "No images uploaded successfully" t))
  | _ :: _ =>
      name ← getitem "title" (task_title t);
      description ← getitem "description" (task_description t);
      regular_price ← getitem "price" (task_price t);
      category_id ← getitem "category_id" (task_category_id t);
      mret (AtCreate
              (ProductData name description "simple" regular_price
                           [IdRef category_id] (default "" (task_sku t))
                           (add_images 0 uploaded_images [])))
  end.

(** Lines 53-60: the upload of the next image, when there is one. *)
Definition next_upload (t : task) (images : list string)
    (uploaded_images : list uploaded) : M state point :=
  match images with
  | [] => after_uploads t uploaded_images
  | image_path :: rest => mret (AtUpload image_path rest uploaded_images)
  end.

(** Lines 49-53, the start of the body. *)
Definition enter (t : task) : M state point :=
  images ← getitem "images" (task_images t);
  next_upload t images [].

(** The statement at a point, with what follows it up to the next point;
    [None]: the iteration is over. *)
Definition statement (t : task) (p : point) : M state (option point) :=
  match p with
  | AtUpload image_path rest uploaded_images =>
      result ← call_upload_media image_path;
      p' ← next_upload t rest
             match result with
             | MediaOk u => uploaded_images ++ [u]
             | MediaFail _ => uploaded_images
             end;
      mret (Some p')
  | AtCreate wc_product_data =>
      result ← call_create_product wc_product_data;
      let result := set_task t result in
      mret (Some (AtStatsRead (if success result then "completed"
                               else "failed") result))
  | AtStatsRead k r =>
      st ← reads stats;
      v ← dict_getitem st k;
      mret (Some (AtStatsWrite k v r))
  | AtStatsWrite k v r =>
      st ← reads stats;
      dict_setitem st k (v + 1);;
      mret (Some (AtPut r))
  | AtPut r =>
      results_queue_put r;;
      mret (Some AtTaskDone)
  | AtTaskDone =>
      upload_queue_task_done;;
      mret None
  end.

(** Lines 108-119: where an exception raised in the [try] body leads. The
    handler starts with the read of [self.stats['failed']] (line 112); the
    dict it puts (lines 113-118) is computed from local values. *)
Definition except_clauses (t : task) (e : exn) : worker_pc :=
  if isinstance e "queue.Empty" then AtLoopHead
  else if isinstance e "Exception" then
    Running Except t
      (AtStatsRead "failed"
         (failure (default "Unknown" (task_title t)) (str e) t))
  else Crashed e.

(** ** The threads *)

Definition set_worker (i : nat) (pc : worker_pc) (s : state) : state :=
  set_workers (<[i := pc]> (workers s)) s.

(** Where worker [i] stands after a statement of clause [c]. An exception
    raised in the handler ends the thread. *)
Definition resume (i : nat) (c : clause) (t : task)
    (o : outcome (option point) * state) : state :=
  match o with
  | (Return (Some p), s) => set_worker i (Running c t p) s
  | (Return None, s) => set_worker i AtLoopHead s
  | (Raise e, s) =>
      set_worker i match c with
                   | Try => except_clauses t e
                   | Except => Crashed e
                   end s
  end.

(** One scheduling step of worker thread [i]: the test of line 45, the
    [get] of line 48 (lines 108-109 when it times out), or the next
    statement of the iteration. [None]: the thread has ended. *)
Definition _process_queue_worker (i : nat) (s : state) : option state :=
  match workers s !! i with
  | Some AtLoopHead =>
      Some (set_worker i (if running s then InGet else Exited) s)
  | Some InGet =>
      match Queue_get (upload_queue s) with
      | Some (t, q) => Some (set_worker i (InPipeline t) (set_upload_queue q s))
      | None => Some (set_worker i AtLoopHead s)
      end
  | Some (InPipeline t) =>
      Some (resume i Try t ((p ← enter t; mret (Some p)) s))
  | Some (Running c t p) =>
      Some (resume i c t (statement t p s))
  | Some Exited | Some (Crashed _) | None => None
  end.

(** The statements from a point to the end of its clause, run in a row;
    [fuel] is the number of statements that may run. *)
Fixpoint continue (fuel : nat) (t : task) (p : point) : M state () :=
  match fuel with
  | 0%nat => mret ()
  | S fuel =>
      o ← statement t p;
      match o with
      | Some p' => continue fuel t p'
      | None => mret ()
      end
  end.

(** The number of statements from a point to the end of its clause, at
    most. *)
Definition statements_left (p : point) : nat :=
  match p with
  | AtUpload _ rest _ => length rest + 6
  | AtCreate _ => 5
  | AtStatsRead _ _ => 4
  | AtStatsWrite _ _ _ => 3
  | AtPut _ => 2
  | AtTaskDone => 1
  end.

(** Where the thread stands when an iteration is over: at the test of the
    loop, or gone with the exception that left the loop. *)
Definition ending (o : outcome ()) : worker_pc :=
  match o with
  | Return _ => AtLoopHead
  | Raise e => Crashed e
  end.

(** A statement that neither reads nor moves the program counters. *)
Definition framed {A} (m : M state A) : Prop :=
  ∀ s, workers (m s).2 = workers s
       ∧ ∀ i pc, m (set_worker i pc s) = ((m s).1, set_worker i pc (m s).2).

(** Lines 126-128: the hook is called with the result; when it raises, the
    error is logged (line 132) and [task_done] is skipped. *)
Definition deliver (r : result) : M state () :=
  λ s, let s := log (Callback r) s in
       match on_upload_complete r (world s) with
       | (Return _, w) =>
           let q := results_queue s in
           (Return (),
            set_results_queue
              (MkQueue (items q) (Nat.pred (unfinished_tasks q)))
              (set_world w s))
       | (Raise e, w) => (Return (), set_world w s)
       end.

(** One scheduling step of the results thread. *)
Definition _process_results (s : state) : option state :=
  match results_thread s with
  | DAtLoopHead =>
      Some (set_results_thread (if running s then DInGet else DExited) s)
  | DInGet =>
      match Queue_get (results_queue s) with
      | Some (r, q) =>
          Some (set_results_thread DAtLoopHead
                  (deliver r (set_results_queue q s)).2)
      | None => Some (set_results_thread DAtLoopHead s)
      end
  | DExited => None
  end.

(** ** The operations of the owner *)

(** [__init__]: the stats dict is allocated, the threads are started. *)
Definition init (max_workers : nat) (w : World) : state :=
  State {[ 1%positive :=
             {[ "completed" := 0; "failed" := 0; "total" := 0 ]} ]}
        1%positive Queue_new Queue_new true
        (replicate max_workers AtLoopHead) DAtLoopHead w [].

Definition add_to_queue (product_data : task) : M state nat :=
  modify (λ s, set_upload_queue (Queue_put product_data (upload_queue s)) s);;
  st ← reads stats;
  dict_iadd st "total" 1;;
  reads (λ s, Queue_qsize (upload_queue s)).

Definition get_queue_size : M state nat :=
  reads (λ s, Queue_qsize (upload_queue s)).

Definition is_alive (pc : worker_pc) : bool :=
  match pc with
  | Exited | Crashed _ => false
  | _ => true
  end.

Definition get_active_workers : M state nat :=
  reads (λ s, length (filter (λ w, is_alive w = true) (workers s))).

Definition get_stats : M state loc :=
  st ← reads stats;
  dict_copy st.

(** [stop]: the flag is cleared; the joins that follow only wait, each for
    two seconds at most. *)
Definition stop : M state () :=
  modify (set_running false).

(** [wait_for_completion(timeout)]: [Some] when [upload_queue.join()]
    returns in this state, [None] while it blocks. *)
Definition wait_for_completion {T : Type} (timeout : T) (s : state)
  : option state :=
  if Queue_join_returns (upload_queue s) then Some s else None.

(** ** Runs *)

(** What can happen next: a call of the owner, a mutation by the owner of a
    dict that [get_stats] returned, or a step of one of the threads. *)
Inductive action :=
| Call_add_to_queue (t : task)
| Call_get_queue_size
| Call_get_active_workers
| Call_get_stats
| Call_stop
| Call_wait_for_completion (timeout : option Z)
| Snapshot_mutation (l : loc) (mu : dict_mutation)
| Worker_step (i : nat)
| Dispatcher_step.

Definition exec (a : action) (s : state) : option state :=
  match a with
  | Call_add_to_queue t => Some (add_to_queue t s).2
  | Call_get_queue_size => Some (get_queue_size s).2
  | Call_get_active_workers => Some (get_active_workers s).2
  | Call_get_stats => Some (get_stats s).2
  | Call_stop => Some (stop s).2
  | Call_wait_for_completion timeout => wait_for_completion timeout s
  | Snapshot_mutation l mu =>
      if bool_decide (l = stats s) then None else Some (dict_mutate l mu s)
  | Worker_step i => _process_queue_worker i s
  | Dispatcher_step => _process_results s
  end.

Fixpoint run (acts : list action) (s : state) : option state :=
  match acts with
  | [] => Some s
  | a :: rest =>
      match exec a s with
      | Some s' => run rest s'
      | None => None
      end
  end.

Definition reachable (s : state) : Prop :=
  ∃ max_workers w acts, run acts (init max_workers w) = Some s.

(** *** Reading the state *)

(** The value of a counter of [self.stats]. *)
Definition counter (k : string) (s : state) : option Z :=
  heap s !! stats s ≫= (.!! k).

Definition create_calls (h : list event) : list product_data :=
  omap (λ ev, match ev with CreateProduct p => Some p | _ => None end) h.

Definition results_put (h : list event) : list result :=
  omap (λ ev, match ev with ResultPut r => Some r | _ => None end) h.

Definition in_pipeline (pc : worker_pc) : bool :=
  match pc with
  | InPipeline _ | Running _ _ _ => true
  | _ => false
  end.

(** ** Notions used by the properties *)

(** The replies of the media API to the uploads of [images], made one after
    the other from world [w]. *)
Fixpoint media_replies (images : list string) (w : World)
  : list (outcome media_reply) :=
  match images with
  | [] => []
  | image_path :: rest =>
      let (r, w') := upload_media image_path w in r :: media_replies rest w'
  end.

Definition replied {A} (r : outcome A) : bool :=
  match r with
  | Return _ => true
  | Raise _ => false
  end.

Definition uploaded_of (r : outcome media_reply) : option uploaded :=
  match r with
  | Return (MediaOk u) => Some u
  | _ => None
  end.

Definition refused (r : outcome media_reply) : bool :=
  match r with
  | Return (MediaFail _) => true
  | _ => false
  end.

(** The assets that upload successfully, in the order of the task. *)
Definition successes (images : list string) (w : World) : list uploaded :=
  omap uploaded_of (media_replies images w).

(** The keys the payload is built from (lines 74-78). *)
Definition payload_keys (t : task) : bool :=
  bool_decide (is_Some (task_title t) ∧ is_Some (task_description t) ∧
               is_Some (task_price t) ∧ is_Some (task_category_id t)).

(** The stats dict exists and has its three keys. *)
Definition stats_ok (s : state) : Prop :=
  is_Some (counter "completed" s) ∧ is_Some (counter "failed" s) ∧
  is_Some (counter "total" s).

Definition busy (ws : list worker_pc) : nat :=
  length (filter (λ pc, in_pipeline pc = true) ws).

(** Every task that waits in the queue or is in the hands of a worker has
    been put and not yet marked done. *)
Definition accounting (s : state) : Prop :=
  (length (items (upload_queue s)) + busy (workers s)
   ≤ unfinished_tasks (upload_queue s))%nat.

Definition crashed (pc : worker_pc) : bool :=
  match pc with
  | Crashed _ => true
  | _ => false
  end.

(** What the iteration makes true of the points it reaches: a result it
    counts or puts carries the task, a counter it moves is [completed] or
    [failed], and the handler calls no capability. *)
Definition wf_pc (pc : worker_pc) : Prop :=
  match pc with
  | Running c t p =>
      match p with
      | AtUpload _ _ _ | AtCreate _ => c = Try
      | AtStatsRead k r | AtStatsWrite k _ r =>
          res_task r = Some t ∧ k ∈ ["completed"; "failed"]
      | AtPut r => res_task r = Some t
      | AtTaskDone => True
      end
  | _ => True
  end.

Definition inv (s : state) : Prop :=
  stats_ok s ∧ accounting s ∧ Forall wf_pc (workers s).

(** A worker that will test [self.running] before it touches the queue
    again, or that has ended. *)
Definition parked (pc : worker_pc) : bool :=
  match pc with
  | AtLoopHead | Exited | Crashed _ => true
  | InGet | InPipeline _ | Running _ _ _ => false
  end.

Definition in_get (pc : worker_pc) : bool :=
  match pc with
  | InGet => true
  | _ => false
  end.

Definition waiting (ws : list worker_pc) : nat :=
  length (filter (λ pc, in_get pc = true) ws).

(** The calls of [create_product] so far are [c]. *)
Definition calls_are (c : list product_data) (s : state) : Prop :=
  create_calls (history s) = c.

(** A statement keeps a property of the state when the state it leaves,
    whether it returns or raises, has the property again. *)
Definition keeps {A} (I : state → Prop) (m : M state A) : Prop :=
  ∀ s, I s → I (m s).2.

(** ** Notions used by the properties of the whole manager *)

(** The results the hook has been called with, in call order. *)
Definition callbacks (h : list event) : list result :=
  omap (λ ev, match ev with Callback r => Some r | _ => None end) h.

(** The tasks handed to [add_to_queue] by a sequence of actions. *)
Definition submitted (acts : list action) : list task :=
  omap (λ a, match a with Call_add_to_queue t => Some t | _ => None end) acts.

(** The task a worker holds. *)
Definition task_of (pc : worker_pc) : list task :=
  match pc with
  | InPipeline t | Running _ t _ => [t]
  | _ => []
  end.

Definition in_flight (ws : list worker_pc) : list task :=
  ws ≫= task_of.

(** The tasks of the results put so far, in put order. *)
Definition tasks_done (h : list event) : list task :=
  omap res_task (results_put h).

Definition succeeded (h : list event) : list result :=
  filter (λ r, success r = true) (results_put h).

(** The number of threads of the pool that are alive. *)
Definition active (ws : list worker_pc) : nat :=
  length (filter (λ w, is_alive w = true) ws).

(** The task a worker holds and has not yet put a result for. *)
Definition unanswered_task (pc : worker_pc) : list task :=
  match pc with
  | InPipeline t => [t]
  | Running _ _ AtTaskDone => []
  | Running _ t _ => [t]
  | _ => []
  end.

Definition unanswered (ws : list worker_pc) : list task :=
  ws ≫= unanswered_task.

(** What can have happened between a state [s] in which [self.running] is
    already false and a later state [s']: [k] tasks have left the head of
    the queue and [later] ones have been submitted; each task that left was
    taken by a worker that was inside [get], and each result put comes from
    a worker that was inside [get] or held a task it had not answered. *)
Definition after_stop (s s' : state) : Prop :=
  ∃ k later,
    (k ≤ length (items (upload_queue s) ++ later))%nat
    ∧ items (upload_queue s') = drop k (items (upload_queue s) ++ later)
    ∧ (k + waiting (workers s') ≤ waiting (workers s))%nat
    ∧ (length (results_put (history s'))
       + waiting (workers s') + length (unanswered (workers s'))
       ≤ length (results_put (history s))
         + waiting (workers s) + length (unanswered (workers s)))%nat.

(** An exception that the [except Exception] clause of line 110 handles:
    one that derives from [Exception] and has not met the clause of line
    108 before. *)
Definition caught (e : exn) : bool :=
  isinstance e "Exception" && negb (isinstance e "queue.Empty").

(** Some call of [upload_media] or of [create_product] raises [e]. *)
Definition raised_by_capability (e : exn) : Prop :=
  (∃ image_path w w', upload_media image_path w = (Raise e, w'))
  ∨ (∃ p w w', create_product p w = (Raise e, w')).

(** The capabilities raise only exceptions for which [P] holds. *)
Definition raise_only (P : exn → bool) : Prop :=
  ∀ e, raised_by_capability e → P e = true.

(** The tasks that have a result, the ones a worker holds without having
    put its result, the ones that wait and the ones an escaped exception
    has dropped are the tasks submitted; the dropped ones stay counted as
    unfinished. *)
Definition conserved (acts : list action) (s : state)
    (dropped : list task) : Prop :=
  tasks_done (history s) ++ unanswered (workers s)
    ++ items (upload_queue s) ++ dropped ≡ₚ submitted acts
  ∧ unfinished_tasks (upload_queue s)
    = (length (items (upload_queue s)) + busy (workers s)
       + length dropped)%nat
  ∧ (raise_only caught → dropped = []).




(** The counter under which lines 96-99 and 112 count a result. *)
Definition counter_of (r : result) : string :=
  if success r then "completed" else "failed".

(** A worker that holds a result it has yet to put, and that counter [k]
    may already count: it stands before the [put] of line 102, 113 or 63. *)
Definition holds_result (k : string) (pc : worker_pc) : bool :=
  match pc with
  | Running _ _ (AtPut r) => bool_decide (counter_of r = k)
  | _ => false
  end.

(** The results that counter [k] can have counted: the ones put, and the
    ones held by a worker that is about to put them. *)
Definition countable (k : string) (s : state) : nat :=
  (length (filter (λ r, counter_of r = k) (results_put (history s)))
   + length (filter (λ pc, holds_result k pc = true) (workers s)))%nat.

(** What a worker about to move a counter knows of it: the key is the one
    of its result, and the value it has read was within the bound. *)
Definition counts_ok (s : state) (pc : worker_pc) : Prop :=
  match pc with
  | Running _ _ (AtStatsRead k r) => k = counter_of r
  | Running _ _ (AtStatsWrite k v r) =>
      k = counter_of r ∧ 0 ≤ v ≤ Z.of_nat (countable k s)
  | _ => True
  end.

Definition bounded (s : state) : Prop :=
  (∀ k, k ∈ ["completed"; "failed"] →
        ∃ v, counter k s = Some v ∧ 0 ≤ v ≤ Z.of_nat (countable k s))
  ∧ Forall (counts_ok s) (workers s).

(** A point that a step other than the read of a counter can lead to. *)
Definition settled (pc : worker_pc) : Prop :=
  match pc with
  | Running _ _ (AtStatsRead k r) => k = counter_of r
  | Running _ _ (AtStatsWrite _ _ _) => False
  | _ => True
  end.

(** What one action does in a state that satisfies [inv]. *)
Inductive transition : action → state → state → Prop :=
| T_submit t d n s :
    heap s !! stats s = Some d → d !! "total" = Some n →
    transition (Call_add_to_queue t) s
      (set_heap (<[stats s := <["total" := n + 1]> d]> (heap s))
                (set_upload_queue (Queue_put t (upload_queue s)) s))
| T_heap a h s :
    submitted [a] = [] → h !! stats s = heap s !! stats s →
    transition a s (set_heap h s)
| T_stop s :
    transition Call_stop s (set_running false s)
| T_loop_test i s :
    workers s !! i = Some AtLoopHead →
    transition (Worker_step i) s
      (set_worker i (if running s then InGet else Exited) s)
| T_get_empty i s :
    workers s !! i = Some InGet → items (upload_queue s) = [] →
    transition (Worker_step i) s (set_worker i AtLoopHead s)
| T_get i t rest s :
    workers s !! i = Some InGet → items (upload_queue s) = t :: rest →
    transition (Worker_step i) s
      (set_worker i (InPipeline t)
         (set_upload_queue
            (MkQueue rest (unfinished_tasks (upload_queue s))) s))
| T_work i t pc pc' d d' w evs s :
    workers s !! i = Some pc →
    unanswered_task pc = [t] → unanswered_task pc' = [t] → wf_pc pc' →
    heap s !! stats s = Some d →
    (∀ k, is_Some (d !! k) → is_Some (d' !! k)) →
    d' !! "total" = d !! "total" →
    results_put evs = [] → callbacks evs = [] →
    transition (Worker_step i) s
      (set_worker i pc'
         (State (<[stats s := d']> (heap s)) (stats s)
                (upload_queue s) (results_queue s)
                (running s) (workers s) (results_thread s) w
                (history s ++ evs)))
| T_leave i t pc e w evs s :
    workers s !! i = Some pc →
    unanswered_task pc = [t] →
    raised_by_capability e → caught e = false →
    results_put evs = [] → callbacks evs = [] →
    transition (Worker_step i) s
      (set_worker i (if isinstance e "queue.Empty" then AtLoopHead
                     else Crashed e)
         (State (heap s) (stats s) (upload_queue s) (results_queue s)
                (running s) (workers s) (results_thread s) w
                (history s ++ evs)))
| T_put i c t r s :
    workers s !! i = Some (Running c t (AtPut r)) →
    res_task r = Some t →
    transition (Worker_step i) s
      (set_worker i (Running c t AtTaskDone)
         (State (heap s) (stats s) (upload_queue s)
                (Queue_put r (results_queue s))
                (running s) (workers s) (results_thread s) (world s)
                (history s ++ [ResultPut r])))
| T_done i c t m s :
    workers s !! i = Some (Running c t AtTaskDone) →
    unfinished_tasks (upload_queue s) = S m →
    transition (Worker_step i) s
      (set_worker i AtLoopHead
         (set_upload_queue (MkQueue (items (upload_queue s)) m) s))
| T_dispatch_test s :
    results_thread s = DAtLoopHead →
    transition Dispatcher_step s
      (set_results_thread (if running s then DInGet else DExited) s)
| T_dispatch_empty s :
    results_thread s = DInGet → items (results_queue s) = [] →
    transition Dispatcher_step s (set_results_thread DAtLoopHead s)
| T_deliver r rest u w s :
    results_thread s = DInGet → items (results_queue s) = r :: rest →
    transition Dispatcher_step s
      (State (heap s) (stats s) (upload_queue s) (MkQueue rest u)
             (running s) (workers s) DAtLoopHead w
             (history s ++ [Callback r])).

End Manager.

Arguments state World : clear implicits.

(** ** [api_client.py]: the two clients behind the capabilities *)

(** A response of [requests]: [.status_code], what [.json()] gives (it
    raises on a body that is not JSON) and [.text]. *)
Record response (J : Type) := Response {
  resp_status_code : Z;
  resp_json : outcome J;
  resp_text : string
}.
Arguments Response {J} _ _ _.
Arguments resp_status_code {J} _.
Arguments resp_json {J} _.
Arguments resp_text {J} _.

(** The media document of the WordPress REST API, as far as [upload_media]
    reads it: the keys ['id'] and ['source_url'], each of which may be
    absent. *)
Record media_data := MediaData {
  md_id : option Z;
  md_source_url : option string
}.

(** A product category of WooCommerce: ['id'], ['name'], ['parent']. *)
Record category := Category { cat_id : Z; cat_name : string; cat_parent : Z }.

(** What is handed to [requests.post] and [requests.get]. *)
Record media_post := MediaPost {
  mp_url : string;
  mp_content_disposition : string;
  mp_content_type : string;
  mp_data : string;
  mp_auth : option string * option string;
  mp_timeout : Z
}.
Record product_post := ProductPost {
  pp_url : string;
  pp_auth : option string * option string;
  pp_json : product_data;
  pp_timeout : Z
}.
Record categories_get := CategoriesGet {
  cg_url : string;
  cg_auth : option string * option string;
  cg_per_page : nat;
  cg_page : nat;
  cg_hide_empty : bool;
  cg_timeout : Z
}.
Record products_get := ProductsGet {
  pg_url : string;
  pg_auth : option string * option string;
  pg_per_page : nat;
  pg_timeout : Z
}.

(** The libraries the clients call: the file system, [os.path],
    [mimetypes] and [requests]. Each call that touches the world outside
    returns or raises. *)
Class Network (World : Type) := {
  open_rb : string → World → outcome string * World;
  basename : string → string;
  guess_type : string → option string;
  post_media : media_post → World → outcome (response media_data) * World;
  post_product : product_post → World → outcome (response string) * World;
  get_categories_page :
    categories_get → World → outcome (response (list category)) * World;
  get_products : products_get → World → outcome (response string) * World
}.

(** The two client objects: what [__init__] reads from the environment
    ([os.getenv] gives [None] for a variable that is not set). *)
Record WooCommerceAPI_self := WooCommerceAPI_init {
  wc_store_url : option string;
  consumer_key : option string;
  consumer_secret : option string
}.
Record WordPressMediaAPI_self := WordPressMediaAPI_init {
  wp_store_url : option string;
  username : option string;
  password : option string
}.

(** How an f-string shows a value that may be [None]. *)
Definition fstr (o : option string) : string := default "None" o.

Definition dquote : string := String (Ascii.ascii_of_nat 34) EmptyString.

(** Line 17. *)
Definition api_base (self : WooCommerceAPI_self) : string :=
  fstr (wc_store_url self) +:+ "/wp-json/wc/v3".

Section Clients.

Context {World : Type} `{!Network World}.

(** A value that is already there, or the exception it stands for. *)
Definition of_outcome {A} (o : outcome A) : M World A := λ w, (o, w).

(** Lines 102-120: the request [upload_media] makes for a file and its
    bytes. *)
Definition media_request (self : WordPressMediaAPI_self)
    (image_path img_data : string) : media_post :=
  let filename := basename image_path in
  let mime_type :=
    match guess_type image_path with
    | Some m => if bool_decide (m = "") then "image/jpeg" else m
    | None => "image/jpeg"
    end in
  let media_url := fstr (wp_store_url self) +:+ "/wp-json/wp/v2/media" in
  MediaPost media_url
            ("attachment; filename=" +:+ dquote +:+ filename +:+ dquote)
            mime_type img_data (username self, password self) 30.

(** [WordPressMediaAPI.upload_media], lines 95-139. *)
Definition wp_upload_media (self : WordPressMediaAPI_self) (image_path : string)
  : M World media_reply :=
  try_except
    (img_data ← open_rb image_path;
     response ← post_media (media_request self image_path img_data);
     if bool_decide (resp_status_code response ∈ [200; 201]) then
       media_data ← of_outcome (resp_json response);
       id ← getitem "id" (md_id media_data);
       url ← getitem "source_url" (md_source_url media_data);
       mret (MediaOk (Uploaded id url))
     else
       mret (MediaFail ("HTTP " +:+ pretty (resp_status_code response))))
    (λ e, mret (MediaFail (str e))).


(** [WooCommerceAPI.test_connection], lines 19-31. *)
Definition wc_test_connection (self : WooCommerceAPI_self) : M World bool :=
  try_except
    (response ← get_products
       (ProductsGet (api_base self +:+ "/products")
                    (consumer_key self, consumer_secret self) 1 10);
     mret (bool_decide (resp_status_code response = 200)))
    (λ e, mret false).

(** The [while True] of [get_categories], lines 40-60, run for at most
    [fuel] requests: [None] when the loop has not ended by then. *)
Fixpoint get_categories_loop (fuel : nat) (self : WooCommerceAPI_self)
    (per_page page : nat) (categories : list category)
  : M World (option (list category)) :=
  match fuel with
  | O => mret None
  | S fuel =>
      response ← get_categories_page
        (CategoriesGet (api_base self +:+ "/products/categories")
                       (consumer_key self, consumer_secret self)
                       per_page page false 10);
      if bool_decide (resp_status_code response = 200) then
        batch ← of_outcome (resp_json response);
        let categories := categories ++ batch in
        if bool_decide (length batch < per_page)%nat then mret (Some categories)
        else get_categories_loop fuel self per_page (page + 1) categories
      else mret (Some categories)
  end.

(** [WooCommerceAPI.get_categories], lines 33-65. *)
Definition wc_get_categories (fuel : nat) (self : WooCommerceAPI_self)
  : M World (option (list category)) :=
  try_except (get_categories_loop fuel self 100 1 [])
             (λ e, mret (Some [])).


(** The page a server that holds the categories [cats] sends for a
    request. *)
Definition page_of (cats : list category) (q : categories_get)
  : response (list category) :=
  Response 200
    (Return (take (cg_per_page q) (drop ((cg_page q - 1) * cg_per_page q) cats)))
    "".

End Clients.

(** ** The producers of tasks *)

(** A product dict as [BulkProductProcessor] and [ExcelProductProcessor]
    build it and [main.py] reads it; a key that is absent is [None]. *)
Record product := Product {
  prod_folder_name : option string;
  prod_title : option string;
  prod_description : option string;
  prod_price : option string;
  prod_sku : option string;
  prod_images : option (list string);
  prod_has_images : option bool;
  prod_image_count : option Z;
  prod_excel_row : option Z
}.

(** [not x] is false for a string that is there and not empty. *)
Definition truthy (o : option string) : bool :=
  match o with
  | Some x => negb (bool_decide (x = ""))
  | None => false
  end.

(** *** [BulkProductProcessor.validate_products] *)

(** The [stats] dict of lines 180-187. *)
Record bulk_stats := BulkStats {
  bs_total : nat;
  bs_valid : nat;
  bs_invalid : nat;
  bs_with_images : nat;
  bs_without_images : nat;
  bs_errors : list string
}.

(** Lines 191-211, the loop over the products. *)
Fixpoint validate_loop (products : list product) (stats : bulk_stats)
    (valid_products : list product) : bulk_stats * list product :=
  match products with
  | [] => (stats, valid_products)
  | product :: rest =>
      let who := default "Unknown" (prod_folder_name product) in
      if negb (truthy (prod_title product)) then
        validate_loop rest
          (BulkStats (bs_total stats) (bs_valid stats) (S (bs_invalid stats))
                     (bs_with_images stats) (bs_without_images stats)
                     (bs_errors stats ++ [who +:+ ": Missing title"]))
          valid_products
      else if negb (truthy (prod_price product))
              || bool_decide (prod_price product = Some "0") then
        validate_loop rest
          (BulkStats (bs_total stats) (bs_valid stats) (S (bs_invalid stats))
                     (bs_with_images stats) (bs_without_images stats)
                     (bs_errors stats ++ [who +:+ ": Invalid price"]))
          valid_products
      else if default false (prod_has_images product) then
        validate_loop rest
          (BulkStats (bs_total stats) (S (bs_valid stats)) (bs_invalid stats)
                     (S (bs_with_images stats)) (bs_without_images stats)
                     (bs_errors stats))
          (valid_products ++ [product])
      else
        validate_loop rest
          (BulkStats (bs_total stats) (S (bs_valid stats)) (bs_invalid stats)
                     (bs_with_images stats) (S (bs_without_images stats))
                     (bs_errors stats ++ [who +:+ ": No images found"]))
          (valid_products ++ [product])
  end.

(** [validate_products], lines 178-216: the pair of ['stats'] and
    ['valid_products']. *)
Definition validate_products (products : list product)
  : bulk_stats * list product :=
  validate_loop products (BulkStats (length products) 0 0 0 0 []) [].

(** A product the loop lets through. *)
Definition acceptable (product : product) : bool :=
  truthy (prod_title product) && truthy (prod_price product)
  && negb (bool_decide (prod_price product = Some "0")).

(** *** [queue_bulk_products] of [main.py] *)

(** The person at the desk and the clock: [messagebox.askyesno] with the
    title of the box (the text shown is left out) and the two readings of
    [datetime.now()]. *)
Class Desk (World : Type) := {
  askyesno : string → World → bool * World;
  now_strftime : World → string * World;
  now_isoformat : World → string * World
}.

Section Producers.

Context {World : Type} `{!Desk World}.

Definition ask (title : string) : M (state World) bool :=
  λ s, let (b, w) := askyesno title (world s) in (Return b, set_world w s).

Definition clock (read : World → string * World) : M (state World) string :=
  λ s, let (t, w) := read (world s) in (Return t, set_world w s).

(** Lines 812-824: the dict put on the queue for a product. Its
    ['excel_row'] key, which [upload_queue.py] never reads, has no field in
    [task]. *)
Definition queue_data (product : product) (category_id : Z)
    (batch_id timestamp : string) : task :=
  Task (Some (default "" (prod_title product)))
       (Some (default "" (prod_description product)))
       (Some (default "0" (prod_price product)))
       (Some category_id)
       (Some (default [] (prod_images product)))
       (Some (default "" (prod_sku product)))
       (Some batch_id) (Some timestamp).

(** Lines 798-831, the loop over [self.bulk_products]; the updates of the
    tree view are left out. It returns [added_count] and
    [skipped_count]. *)
Fixpoint queue_bulk_loop (category_id : Z) (batch_id : string)
    (products : list product) (added_count skipped_count : nat)
  : M (state World) (nat * nat) :=
  match products with
  | [] => mret (added_count, skipped_count)
  | product :: rest =>
      upload ← (if default false (prod_has_images product) then mret true
                else ask "Missing Images");
      if negb upload then
        queue_bulk_loop category_id batch_id rest added_count (S skipped_count)
      else
        timestamp ← clock now_isoformat;
        _ ← add_to_queue (queue_data product category_id batch_id timestamp);
        queue_bulk_loop category_id batch_id rest (S added_count) skipped_count
  end.

(** [queue_bulk_products], lines 759-853, for the products loaded, the
    category chosen in the combo box, the mapping of the shown categories
    to their ids and the value of the ['total_bulk'] variable. [None]: it
    returned before the loop; else the two counts and the new value of
    ['total_bulk']. The boxes that only inform and the log are left out. *)
Definition queue_bulk_products (bulk_products : list product)
    (category_display : string) (category_dict : gmap string Z)
    (total_bulk : Z) : M (state World) (option (nat * nat * Z)) :=
  match bulk_products with
  | [] => mret None
  | _ :: _ =>
      if bool_decide (category_display = "") then mret None
      else
        match category_dict !! category_display with
        | None => mret None
        | Some category_id =>
            if bool_decide (category_id = 0) then mret None
            else
              confirm ← ask "Confirm Bulk Upload";
              if negb confirm then mret None
              else
                batch_id ← clock now_strftime;
                counts ← queue_bulk_loop category_id batch_id bulk_products 0 0;
                mret (Some (counts.1, counts.2,
                            total_bulk + Z.of_nat counts.1))
        end
  end.

End Producers.

(** ** The categories shown in the combo boxes *)

(** *** [build_category_tree] of [utils.py] *)

(** An entry of the tree: ['display'], ['id'] and ['children']. *)
#[warnings="-register-all"]
Inductive tree_item := TreeItem {
  ti_display : string;
  ti_id : Z;
  ti_children : list tree_item
}.

(** ["  " * level]. *)
Fixpoint indent (level : nat) : string :=
  match level with
  | O => ""
  | S level => "  " +:+ indent level
  end.

(** Line 50: [f"{indent}{cat['name']} (ID: {cat['id']})"]. *)
Definition display_name (level : nat) (cat : category) : string :=
  indent level +:+ cat_name cat +:+ " (ID: " +:+ pretty (cat_id cat) +:+ ")".

(** [build_tree], lines 46-58: for each category whose ['parent'] is
    [parent_id], in list order, an entry with the tree of its own children.
    [fuel] is the depth of recursion the interpreter still allows; [None]
    is its [RecursionError]. *)
Fixpoint build_tree (fuel : nat) (categories : list category)
    (parent_id : Z) (level : nat) : option (list tree_item) :=
  match fuel with
  | O => None
  | S fuel =>
      mapM (λ cat,
              children ← build_tree fuel categories (cat_id cat) (S level);
              Some (TreeItem (display_name level cat) (cat_id cat) children))
           (filter (λ cat, cat_parent cat = parent_id) categories)
  end.

(** [flatten_tree], lines 60-63: what a call appends to [result_list]. *)
Fixpoint flatten_item (item : tree_item) : list string :=
  match item with
  | TreeItem display _ children => display :: (children ≫= flatten_item)
  end.

Definition flatten_tree (tree : list tree_item) : list string :=
  tree ≫= flatten_item.

(** [build_category_tree], lines 36-68: [category_list] and [tree]. The
    dict of the first pass (lines 41-43) is never read. *)
Definition build_category_tree (fuel : nat) (categories : list category)
  : option (list string * list tree_item) :=
  tree ← build_tree fuel categories 0 0;
  Some (flatten_tree tree, tree).

(** *** [_update_category_combos] of [main.py] *)

(** [f"(ID: {cat['id']})"]. *)
Definition id_tag (id : Z) : string := "(ID: " +:+ pretty id +:+ ")".

(** [pattern in s]. *)
Definition contains (pattern s : string) : bool :=
  bool_decide (is_Some (String.index 0 pattern s)).

(** Lines 1046-1049, the inner loop with its [break]: the first display
    name that contains the tag of the id. *)
Fixpoint first_tagged (id : Z) (category_list : list string) : option string :=
  match category_list with
  | [] => None
  | display_name :: rest =>
      if contains (id_tag id) display_name then Some display_name
      else first_tagged id rest
  end.

(** Lines 1043-1049: the new [self.category_dict], for [self.categories]
    and the list shown. *)
Definition _update_category_combos (categories : list category)
    (category_list : list string) : gmap string Z :=
  foldl (λ category_dict cat,
           match first_tagged (cat_id cat) category_list with
           | Some display_name => <[display_name := cat_id cat]> category_dict
           | None => category_dict
           end)
        ∅ categories.

(** *** Notions used by the properties of the categories *)

(** [descendant categories parent_id n cat]: [cat] is in the list, and so
    are its parent, the parent of that and so on, [n] of them, up to a
    category whose parent is [parent_id]. *)
Inductive descendant (categories : list category)
  : Z → nat → category → Prop :=
| descendant_child parent_id cat :
    cat ∈ categories → cat_parent cat = parent_id →
    descendant categories parent_id 0 cat
| descendant_deeper parent_id cat n cat' :
    cat ∈ categories → cat_parent cat = parent_id →
    descendant categories (cat_id cat) n cat' →
    descendant categories parent_id (S n) cat'.

(** The character [a] does not occur in [s]. *)
Definition free (a : ascii) (s : string) : Prop :=
  String.index 0 (String a "") s = None.

(** ** A concrete shop for the examples *)

Module Demo.

(** The world is the number of media uploaded so far. The media API
    refuses ["b.jpg"], accepts every other file and numbers the uploads. *)
#[global] Instance wp_api : WordPressMediaAPI Z := {
  upload_media image_path w :=
    if bool_decide (image_path = "b.jpg")
    then (Return (MediaFail "HTTP 500"), w)
    else (Return (MediaOk (Uploaded (w + 1) ("https://shop/" +:+ image_path))),
          w + 1)
}.

#[global] Instance wc_api : WooCommerceAPI Z := {
  create_product p w :=
    (Return (Result true None None None (Some 201) (Some "{}") (Some p)), w)
}.

#[global] Instance owner : Owner Z := {
  on_upload_complete r w := (Return (), w)
}.

Definition widget (images : list string) : task :=
  Task (Some "Widget") (Some "A widget") (Some "9.99") (Some 5)
       (Some images) None None None.

(** A task dict without its ['description'] key. *)
Definition gadget (images : list string) : task :=
  Task (Some "Gadget") None (Some "1.50") (Some 5) (Some images)
       None None None.

(** A manager with one worker that holds a task it has taken from the
    queue. *)
Definition holding (t : task) : state Z :=
  State {[ 1%positive :=
             {[ "completed" := 0; "failed" := 0; "total" := 1 ]} ]}
        1%positive (MkQueue [] 1) Queue_new true
        [InPipeline t] DAtLoopHead 0 [].

(** Two tasks submitted to a manager whose only worker has not yet
    tested [self.running]. *)
Definition two_queued : state Z :=
  State {[ 1%positive :=
             {[ "completed" := 0; "failed" := 0; "total" := 2 ]} ]}
        1%positive (MkQueue [widget ["a.jpg"]; widget ["c.jpg"]] 2)
        Queue_new true [AtLoopHead] DAtLoopHead 0 [].

(** A media API that raises: for ["down.jpg"] a [ConnectionError], for
    ["busy.jpg"] a [queue.Empty], as a client built on a queue of its own
    does when that queue has run dry, and for ["exit.jpg"] a
    [SystemExit]. *)
Definition flaky_wp_api : WordPressMediaAPI Z := {|
  upload_media image_path w :=
    if bool_decide (image_path = "down.jpg")
    then (Raise (ConnectionError "connection refused"), w)
    else if bool_decide (image_path = "busy.jpg") then (Raise queue_Empty, w)
    else if bool_decide (image_path = "exit.jpg")
         then (Raise (SystemExit "1"), w)
         else (Return (MediaOk (Uploaded (w + 1) ("https://shop/" +:+ image_path))),
               w + 1)
|}.

(** A manager with one worker that is about to upload the only image of
    the task it holds. *)
Definition uploading (t : task) (image_path : string) : state Z :=
  State {[ 1%positive :=
             {[ "completed" := 0; "failed" := 0; "total" := 1 ]} ]}
        1%positive (MkQueue [] 1) Queue_new true
        [Running Try t (AtUpload image_path [] [])] DAtLoopHead 0 [].

(** The state a run of a manager with [max_workers] workers ends in. *)
Definition state_after (max_workers : nat) (acts : list action) : state Z :=
  default (init max_workers 0) (run acts (init max_workers 0)).

(** [n] steps of worker [i] in a row. An iteration that uploads one image
    and creates the product takes nine: the test of the loop, the [get],
    the start of the body, the upload, the creation, the read and the store
    of the counter, the [put] and the [task_done]. *)
Definition steps (n i : nat) : list action := replicate n (Worker_step i).

(** A run of two workers. Three tasks are submitted; the first worker takes
    the first and the second worker the second; the first result is put and
    delivered; the second, a failure, is put and waits in [results_queue],
    its task not yet marked done; the first worker takes the third task,
    and a fourth is submitted. *)
Definition midday : list action :=
  [Call_add_to_queue (widget ["a.jpg"]); Call_add_to_queue (widget ["b.jpg"]);
   Call_add_to_queue (gadget ["c.jpg"])]
  ++ steps 2 0 ++ steps 2 1 ++ steps 7 0
  ++ [Dispatcher_step; Dispatcher_step]
  ++ steps 3 1 ++ steps 3 0
  ++ [Call_add_to_queue (widget ["d.jpg"])].

(** A run of two workers in which every task submitted gets its result. *)
Definition evening : list action :=
  [Call_add_to_queue (widget ["a.jpg"]); Call_add_to_queue (gadget ["c.jpg"])]
  ++ steps 9 0 ++ steps 8 1
  ++ [Dispatcher_step; Dispatcher_step; Dispatcher_step; Dispatcher_step].

(** A run of one worker: the first of three tasks is done, the worker holds
    the second, the third waits. *)
Definition one_by_one : list action :=
  [Call_add_to_queue (widget ["a.jpg"]); Call_add_to_queue (widget ["b.jpg"])]
  ++ steps 9 0 ++ steps 3 0
  ++ [Call_add_to_queue (gadget ["c.jpg"])].

(** What the threads and the owner do after [stop] at midday. *)
Definition closing : list action :=
  steps 6 0 ++ steps 2 1
  ++ [Dispatcher_step; Call_add_to_queue (widget ["e.jpg"])].

(** A run of three workers with three tasks that all succeed. The first
    worker has read [self.stats['completed']], which was 0, and has not yet
    stored its sum; meanwhile the two others have run their tasks to the
    end. *)
Definition overtaken : list action :=
  [Call_add_to_queue (widget ["a.jpg"]); Call_add_to_queue (widget ["c.jpg"]);
   Call_add_to_queue (widget ["d.jpg"])]
  ++ steps 6 0 ++ steps 9 1 ++ steps 9 2.

(** The shop holds 250 categories. *)
Definition shelf : list category :=
  (λ i, Category (Z.of_nat i) "Toys" 0) <$> seq 1 250.

(** The servers behind the clients, the world being the number of media
    stored: every file can be read but ["missing.jpg"], a medium posted is
    stored and numbered, a product posted is created, and [fault] says which
    requests for a page of categories go wrong, and how. *)
Definition servers
    (fault : categories_get → option (outcome (response (list category))))
  : Network Z := {|
  open_rb path w :=
    if bool_decide (path = "missing.jpg")
    then (Raise (Exn "FileNotFoundError" ("OSError" :: Exception_bases)
                 "No such file or directory"), w)
    else (Return ("bytes of " +:+ path), w);
  basename path := path;
  guess_type path := Some "image/jpeg";
  post_media q w :=
    (Return (Response 201
               (Return (MediaData (Some (w + 1)) (Some "https://shop/media")))
               "{}"),
     w + 1);
  post_product q w := (Return (Response 201 (Return "{}") "{}"), w);
  get_categories_page q w :=
    match fault q with
    | Some o => (o, w)
    | None => (Return (page_of shelf q), w)
    end;
  get_products q w := (Return (Response 200 (Return "[]") "[]"), w)
|}.

Definition no_fault
  : categories_get → option (outcome (response (list category))) :=
  λ _, None.

(** The third page is answered with status 502. *)
Definition bad_gateway
  : categories_get → option (outcome (response (list category))) :=
  λ q, if bool_decide (cg_page q = 3%nat)
       then Some (Return (Response 502 (Raise (ValueError "not JSON"))
                                   "Bad Gateway"))
       else None.


Definition shop : WooCommerceAPI_self :=
  WooCommerceAPI_init (Some "https://shop") (Some "ck") (Some "cs").


(** The person at the desk confirms the bulk upload and declines every
    product without images. *)
#[global] Instance desk : Desk Z := {
  askyesno title w := (bool_decide (title = "Confirm Bulk Upload"), w);
  now_strftime w := ("20240101_120000", w);
  now_isoformat w := ("2024-01-01T12:00:00", w)
}.

Definition kettle : product :=
  Product (Some "kettle") (Some "Kettle") (Some "Boils water") (Some "19.90")
          (Some "K-1") (Some ["kettle.jpg"]) (Some true) (Some 1) (Some 2).

Definition teapot : product :=
  Product (Some "teapot") (Some "Teapot") None (Some "12.00")
          None (Some []) (Some false) (Some 0) (Some 3).

(** Four categories: two at the top, one below the first, and one whose
    parent is not in the list. *)
Definition dolls : category := Category 2 "Dolls" 1.

Definition toys : list category :=
  [Category 1 "Toys" 0; dolls; Category 3 "Games" 0; Category 4 "Lost" 9].

(** The height of an id in [toys]. *)
Definition toys_height (id : Z) : nat :=
  if bool_decide (id = 0) then 2%nat
  else if bool_decide (id = 1 ∨ id = 9) then 1%nat else 0%nat.

Definition toys_listing : list string * list tree_item :=
  default ([], []) (build_category_tree 5 toys).

End Demo.

Section Properties.

Context {World : Type}.
Context `{!WordPressMediaAPI World, !WooCommerceAPI World, !Owner World}.

Implicit Types (s : state World) (I : state World → Prop).
Local Abbreviation keeps := (@keeps World _).

(** Two states are equal when their fields are. *)
Lemma state_eq s1 s2 :
  heap s1 = heap s2 → stats s1 = stats s2 →
  upload_queue s1 = upload_queue s2 → results_queue s1 = results_queue s2 →
  running s1 = running s2 → workers s1 = workers s2 →
  results_thread s1 = results_thread s2 → world s1 = world s2 →
  history s1 = history s2 →
  s1 = s2.
Proof. destruct s1, s2. simpl. by intros -> -> -> -> -> -> -> -> ->. Qed.

Ltac same_state :=
  f_equal; apply state_eq;
  cbn [heap stats upload_queue results_queue running workers results_thread
       world history log set_world set_history set_heap set_upload_queue
       set_results_queue set_workers set_running set_results_thread];
  rewrite <- ?app_assoc; try done.

(** ** Statements in sequence *)

Lemma bind_eq {A B} (m : M (state World) A) (k : A → M (state World) B) s :
  (m ≫= k) s = match m s with
               | (Return a, s') => k a s'
               | (Raise e, s') => (Raise e, s')
               end.
Proof. reflexivity. Qed.

Lemma try_bind {A B} (m : M (state World) A) (k : A → M (state World) B) h s :
  try_except (m ≫= k) h s
  = match m s with
    | (Return a, s') => try_except (k a) h s'
    | (Raise e, s') => h e s'
    end.
Proof.
  unfold try_except. rewrite bind_eq. by destruct (m s) as [[a|e] s'].
Qed.

Lemma dict_iadd_eq l k n s :
  dict_iadd l k n s
  = match heap s !! l with
    | Some d =>
        match d !! k with
        | Some v => (Return (), set_heap (<[l := <[k := v + n]> d]> (heap s)) s)
        | None => (Raise (KeyError k), s)
        end
    | None => (Raise (ReferenceError "no such object"), s)
    end.
Proof.
  unfold dict_iadd. rewrite bind_eq. unfold dict_getitem, dict_setitem.
  destruct (heap s !! l) as [d|] eqn:Hd; [|done].
  destruct (d !! k); [|done]. by rewrite Hd.
Qed.

Lemma keeps_ret {A} I (a : A) : keeps I (mret a : M (state World) A).
Proof. by intros s. Qed.

Lemma keeps_raise {A} I e : keeps I (raise e : M (state World) A).
Proof. by intros s. Qed.

Lemma keeps_reads {A} I (f : state World → A) : keeps I (reads f).
Proof. by intros s. Qed.

Lemma keeps_getitem {A} I k (field : option A) : keeps I (getitem k field).
Proof. by destruct field; intros s. Qed.

Lemma keeps_bind {A B} I (m : M (state World) A) (k : A → M (state World) B) :
  keeps I m → (∀ a, keeps I (k a)) → keeps I (m ≫= k).
Proof.
  intros Hm Hk s Hs. rewrite bind_eq. specialize (Hm s Hs).
  destruct (m s) as [[a|e] s']; simpl in *; [by apply Hk | done].
Qed.

Lemma keeps_try {A} I (m : M (state World) A) h :
  keeps I m → (∀ e, keeps I (h e)) → keeps I (try_except m h).
Proof.
  intros Hm Hh s Hs. unfold try_except. specialize (Hm s Hs).
  destruct (m s) as [[a|e] s']; simpl in *; [done | by apply Hh].
Qed.

Lemma keeps_if {A} I (b : bool) (m1 m2 : M (state World) A) :
  keeps I m1 → keeps I m2 → keeps I (if b then m1 else m2).
Proof. by destruct b. Qed.

Create HintDb keeps discriminated.
#[local] Hint Resolve keeps_ret keeps_raise keeps_reads keeps_getitem
  keeps_if : keeps.
#[local] Hint Extern 2 (keeps _ (_ ≫= _)) =>
  apply keeps_bind; [ | intros ? ] : keeps.
#[local] Hint Extern 2 (keeps _ (try_except _ _)) =>
  apply keeps_try; [ | intros ? ] : keeps.

(** ** The upload loop *)

Lemma upload_loop_frame images : ∀ acc s,
  ∃ w evs, (upload_loop images acc s).2
           = set_world w (set_history (history s ++ evs) s)
         ∧ create_calls evs = [] ∧ results_put evs = [].
Proof.
  induction images as [|p rest IH]; intros acc s; simpl.
  - exists (world s), []. rewrite app_nil_r. by destruct s.
  - unfold mbind, M_bind, bind, call_upload_media. simpl.
    destruct (upload_media p (world s)) as [[[u|err]|e] w1] eqn:Hup; simpl.
    + edestruct (IH (acc ++ [u])) as (w & evs & -> & Hc & Hr).
      exists w, (UploadMedia p :: evs). simpl. rewrite <- app_assoc. done.
    + edestruct (IH acc) as (w & evs & -> & Hc & Hr).
      exists w, (UploadMedia p :: evs). simpl. rewrite <- app_assoc. done.
    + exists w1, [UploadMedia p]. done.
Qed.

Lemma upload_loop_returns images : ∀ acc s,
  Forall (λ r, replied r = true) (media_replies images (world s)) →
  ∃ w, upload_loop images acc s
       = (Return (acc ++ successes images (world s)),
          set_world w (set_history (history s ++ (UploadMedia <$> images)) s)).
Proof.
  unfold successes.
  induction images as [|p rest IH]; intros acc s Hall; simpl.
  - exists (world s). rewrite !app_nil_r. by destruct s.
  - rewrite bind_eq. unfold call_upload_media. simpl in *.
    destruct (upload_media p (world s)) as [[[u|err]|e] w1] eqn:Hup;
      simpl in *; inversion_clear Hall as [|?? Hr Hrest]; try done.
    + destruct (IH (acc ++ [u]) (set_world w1 (log (UploadMedia p) s)))
        as [w ->]; [done|].
      exists w. simpl. by rewrite <- !app_assoc.
    + destruct (IH acc (set_world w1 (log (UploadMedia p) s)))
        as [w ->]; [done|].
      exists w. simpl. by rewrite <- !app_assoc.
Qed.

Lemma add_images_from uploaded_images : ∀ i images,
  (i = 0%nat → images = []) →
  add_images i uploaded_images images
  = images ++ (IdRef ∘ media_id <$> uploaded_images).
Proof.
  induction uploaded_images as [|u rest IH]; intros i images Hi; simpl.
  - by rewrite app_nil_r.
  - rewrite IH by done. case_bool_decide as Hz.
    + by rewrite (Hi Hz).
    + by rewrite <- app_assoc.
Qed.

Lemma add_images_all uploaded_images :
  add_images 0 uploaded_images [] = IdRef ∘ media_id <$> uploaded_images.
Proof. by rewrite add_images_from. Qed.

(** ** What a statement leaves of the history *)

Lemma create_calls_app h1 h2 :
  create_calls (h1 ++ h2) = create_calls h1 ++ create_calls h2.
Proof. apply omap_app. Qed.

Lemma results_put_app h1 h2 :
  results_put (h1 ++ h2) = results_put h1 ++ results_put h2.
Proof. apply omap_app. Qed.

Lemma create_calls_uploads images : create_calls (UploadMedia <$> images) = [].
Proof. by induction images. Qed.

Lemma results_put_uploads images : results_put (UploadMedia <$> images) = [].
Proof. by induction images. Qed.

(** The statements after the call of [create_product], and the handler,
    call no capability. *)
Lemma keeps_calls_iadd c l k n : keeps (calls_are c) (dict_iadd l k n).
Proof.
  intros s Hs. rewrite dict_iadd_eq.
  destruct (heap s !! l) as [d|]; [|done]. by destruct (d !! k).
Qed.

Lemma keeps_calls_put c r : keeps (calls_are c) (results_queue_put r).
Proof.
  intros s Hs. unfold calls_are in *. simpl.
  rewrite create_calls_app, Hs. simpl. by rewrite app_nil_r.
Qed.

Lemma keeps_calls_task_done c : keeps (calls_are c) upload_queue_task_done.
Proof.
  intros s Hs. unfold upload_queue_task_done.
  by destruct (Queue_task_done (upload_queue s)).
Qed.

#[local] Hint Resolve keeps_calls_iadd keeps_calls_put keeps_calls_task_done
  : keeps.

Lemma keeps_calls_on_exception c t e : keeps (calls_are c) (on_exception t e).
Proof. unfold on_exception. auto 10 with keeps. Qed.

#[local] Hint Resolve keeps_calls_on_exception : keeps.

Lemma keeps_calls_except_clause c t e :
  keeps (calls_are c) (except_clause t e).
Proof. unfold except_clause. auto 10 with keeps. Qed.

#[local] Hint Resolve keeps_calls_except_clause : keeps.

Lemma calls_create_product c p s :
  calls_are c s → calls_are (c ++ [p]) (call_create_product p s).2.
Proof.
  unfold calls_are, call_create_product. intros <-. simpl.
  destruct (create_product p (world s)) as [r w]. simpl.
  by rewrite create_calls_app.
Qed.

(** ** The pipeline of one task *)

Lemma refused_replied images w :
  Forall (λ r, refused r = true) (media_replies images w) →
  Forall (λ r, replied r = true) (media_replies images w)
  ∧ successes images w = [].
Proof.
  unfold successes. induction 1 as [|r rs Hr _ [IH1 IH2]]; [done|].
  destruct r as [[u|err]|e]; try done. split; [by constructor | done].
Qed.

(** Lines 62-70: with nothing uploaded, a failure is put, the task is marked
    done and the iteration ends; no counter moves. *)
Lemma no_images_path t s images title :
  task_images t = Some images →
  task_title t = Some title →
  Forall (λ r, refused r = true) (media_replies images (world s)) →
  (0 < unfinished_tasks (upload_queue s))%nat →
  let r := failure title "No images uploaded successfully" t in
  ∃ w, process_task t s
       = (Return (),
          State (heap s) (stats s)
                (MkQueue (items (upload_queue s))
                         (Nat.pred (unfinished_tasks (upload_queue s))))
                (Queue_put r (results_queue s))
                (running s) (workers s) (results_thread s) w
                ((history s ++ (UploadMedia <$> images)) ++ [ResultPut r])).
Proof.
  intros Himg Htitle Hall Hpos r.
  destruct (refused_replied _ _ Hall) as [Hret Hnone].
  unfold process_task, pipeline. rewrite Himg, Htitle.
  rewrite try_bind. simpl. rewrite try_bind.
  destruct (upload_loop_returns images [] s Hret) as [w ->].
  rewrite Hnone. simpl. exists w.
  do 2 (rewrite try_bind; simpl).
  unfold try_except, upload_queue_task_done, Queue_task_done. simpl.
  destruct (unfinished_tasks (upload_queue s)); [lia | done].
Qed.

(** C3 (amended). When the task has the keys of the payload, no upload
    raises and at least one asset uploads successfully, the iteration
    calls [create_product] exactly once, and the ['images'] of that payload
    are the successfully uploaded assets in the order of the task, failed
    uploads skipped: the first successful one comes first, as the featured
    image. *)
Theorem create_once_with_uploaded_images t s images :
  task_images t = Some images →
  payload_keys t = true →
  Forall (λ r, replied r = true) (media_replies images (world s)) →
  successes images (world s) ≠ [] →
  ∃ p, create_calls (history (process_task t s).2)
       = create_calls (history s) ++ [p]
     ∧ wc_images p = (IdRef ∘ media_id <$> successes images (world s))
     ∧ head (wc_images p)
       = (IdRef ∘ media_id <$> head (successes images (world s))).
Proof.
  intros Himg Hkeys Hall Hne.
  apply bool_decide_eq_true in Hkeys
    as ([name Hn] & [description Hd] & [price Hp] & [category_id Hc]).
  unfold process_task, pipeline. rewrite Himg.
  rewrite try_bind. simpl. rewrite try_bind.
  destruct (upload_loop_returns images [] s Hall) as [w ->]. simpl.
  destruct (successes images (world s)) as [|u ups] eqn:Hs; [done|].
  rewrite Hn, Hd, Hp, Hc.
  do 4 (rewrite try_bind; simpl). rewrite try_bind.
  set (p := ProductData _ _ _ _ _ _ _).
  exists p. split; [|split].
  - set (s1 := set_world _ _).
    assert (calls_are (create_calls (history s)) s1) as Hs1.
    { unfold calls_are, s1. simpl.
      rewrite create_calls_app, create_calls_uploads. apply app_nil_r. }
    apply (calls_create_product _ p) in Hs1.
    destruct (call_create_product p s1) as [[reply|e] s2]; simpl in Hs1.
    + match goal with
      | |- context [try_except ?m ?h s2] =>
          assert (keeps (calls_are (create_calls (history s) ++ [p]))
                        (try_except m h)) as Hk by auto 10 with keeps;
          exact (Hk s2 Hs1)
      end.
    + by apply (keeps_calls_except_clause _ t e s2).
  - subst p. simpl. by rewrite add_images_from.
  - subst p. simpl. by rewrite add_images_from.
Qed.

(** What one run of the [try] body does in a state where the stats dict has
    its keys and the task is accounted for: it raises before it has written
    anything but the world and the calls, or it returns after one result
    put and one [task_done], with at most one counter moved by one. *)
Lemma pipeline_cases t s d c f n :
  heap s !! stats s = Some d →
  d !! "completed" = Some c →
  d !! "failed" = Some f →
  unfinished_tasks (upload_queue s) = S n →
  ∃ w evs, results_put evs = [] ∧
    ((∃ e, pipeline t s
           = (Raise e, set_world w (set_history (history s ++ evs) s)))
     ∨ (∃ r d',
          pipeline t s
          = (Return (),
             State (<[stats s := d']> (heap s)) (stats s)
                   (MkQueue (items (upload_queue s)) n)
                   (Queue_put r (results_queue s))
                   (running s) (workers s) (results_thread s) w
                   ((history s ++ evs) ++ [ResultPut r]))
          ∧ res_task r = Some t
          ∧ (d' = d ∧ success r = false
             ∨ d' = <["completed" := c + 1]> d ∧ success r = true
             ∨ d' = <["failed" := f + 1]> d ∧ success r = false))).
Proof.
  intros Hd Hc Hf Hn. unfold pipeline.
  destruct (task_images t) as [images|]; simpl.
  2: { exists (world s), []. split; [done|]. left. eexists.
       rewrite app_nil_r. by destruct s. }
  rewrite bind_eq. simpl. rewrite bind_eq.
  destruct (upload_loop_frame images [] s) as (w & evs & Hs1 & _ & Hr).
  destruct (upload_loop images [] s) as [[ups|e] s1]; simpl in Hs1; subst s1.
  2: { exists w, evs. split; [done|]. left. by eexists. }
  destruct ups as [|u ups].
  - exists w, evs. split; [done|].
    destruct (task_title t) as [title|]; simpl; [right | left; by eexists].
    exists (failure title "No images uploaded successfully" t), d.
    do 2 (rewrite bind_eq; simpl).
    unfold upload_queue_task_done, Queue_task_done. simpl. rewrite Hn.
    rewrite (insert_id _ _ _ Hd). split; [done|]. split; [done|]. by left.
  - destruct (task_title t) as [name|]; simpl;
      [| exists w, evs; split; [done|]; left; by eexists].
    rewrite bind_eq; simpl.
    destruct (task_description t) as [description|]; simpl;
      [| exists w, evs; split; [done|]; left; by eexists].
    rewrite bind_eq; simpl.
    destruct (task_price t) as [price|]; simpl;
      [| exists w, evs; split; [done|]; left; by eexists].
    rewrite bind_eq; simpl.
    destruct (task_category_id t) as [category_id|]; simpl;
      [| exists w, evs; split; [done|]; left; by eexists].
    rewrite bind_eq; simpl. rewrite bind_eq.
    set (p := ProductData _ _ _ _ _ _ _).
    unfold call_create_product. simpl.
    destruct (create_product p w) as [[reply|e] w1]; simpl.
    2: { exists w1, (evs ++ [CreateProduct p]). rewrite results_put_app, Hr.
         split; [done|]. left. eexists. same_state. }
    exists w1, (evs ++ [CreateProduct p]). rewrite results_put_app, Hr.
    split; [done|]. right. exists (set_task t reply).
    rewrite bind_eq. simpl. rewrite bind_eq.
    destruct (success reply) eqn:Hsucc; rewrite dict_iadd_eq; simpl;
      rewrite Hd, ?Hc, ?Hf; simpl; rewrite bind_eq; simpl;
      unfold upload_queue_task_done, Queue_task_done; simpl; rewrite Hn;
      eexists; (split; [same_state|]); (split; [done|]).
    + right; left. done.
    + right; right. done.
Qed.

(** The [except] clause in such a state: the failure is counted and put, the
    task is marked done, and nothing is raised. *)
Lemma on_exception_eq t e s d f n :
  heap s !! stats s = Some d →
  d !! "failed" = Some f →
  unfinished_tasks (upload_queue s) = S n →
  let r := failure (default "Unknown" (task_title t)) (str e) t in
  on_exception t e s
  = (Return (),
     State (<[stats s := <["failed" := f + 1]> d]> (heap s)) (stats s)
           (MkQueue (items (upload_queue s)) n)
           (Queue_put r (results_queue s))
           (running s) (workers s) (results_thread s) (world s)
           (history s ++ [ResultPut r])).
Proof.
  intros Hd Hf Hn r. unfold on_exception.
  rewrite bind_eq. simpl. rewrite bind_eq. rewrite dict_iadd_eq. rewrite Hd, Hf.
  rewrite bind_eq. simpl.
  unfold upload_queue_task_done, Queue_task_done. simpl. by rewrite Hn.
Qed.

(** ** The invariant of the reachable states *)

Lemma stats_ok_lookup s :
  stats_ok s ↔
  ∃ d c f n, heap s !! stats s = Some d ∧ d !! "completed" = Some c
           ∧ d !! "failed" = Some f ∧ d !! "total" = Some n.
Proof.
  unfold stats_ok, counter. split.
  - intros ([c Hc] & [f Hf] & [n Hn]).
    destruct (heap s !! stats s) as [d|]; [|done]. simpl in *.
    by exists d, c, f, n.
  - intros (d & c & f & n & -> & Hc & Hf & Hn). simpl.
    rewrite Hc, Hf, Hn. eauto.
Qed.

Lemma stats_ok_moved s d k v h :
  stats_ok s → heap s !! stats s = Some d →
  stats_ok (set_heap (<[stats s := <[k := v]> d]> h) s).
Proof.
  intros Hok Hd. apply stats_ok_lookup in Hok as (d' & c & f & n & Hd' & Hc & Hf & Hn).
  rewrite Hd in Hd'. injection Hd' as <-.
  unfold stats_ok, counter. simpl. rewrite lookup_insert_eq. simpl.
  rewrite !lookup_insert_is_Some. rewrite Hc, Hf, Hn.
  repeat split; destruct (decide (k = "completed")), (decide (k = "failed")),
    (decide (k = "total")); eauto.
Qed.

Lemma stats_ok_other s l d :
  stats_ok s → l ≠ stats s → stats_ok (set_heap (<[l := d]> (heap s)) s).
Proof.
  unfold stats_ok, counter. simpl. intros Hok Hl.
  by rewrite lookup_insert_ne.
Qed.

Lemma busy_insert ws : ∀ i old new,
  ws !! i = Some old →
  (busy (<[i := new]> ws) + (if in_pipeline old then 1 else 0)
   = busy ws + (if in_pipeline new then 1 else 0))%nat.
Proof.
  unfold busy. induction ws as [|pc ws IH]; intros [|i] old new Hi;
    simplify_eq/=.
  - rewrite !filter_cons. destruct (in_pipeline old), (in_pipeline new);
      repeat case_decide; simpl; try done; lia.
  - rewrite !filter_cons. specialize (IH i old new Hi).
    case_decide; simpl; lia.
Qed.

Lemma busy_positive ws i pc :
  ws !! i = Some pc → in_pipeline pc = true → (0 < busy ws)%nat.
Proof.
  intros Hi Hpc. pose proof (busy_insert ws i _ AtLoopHead Hi) as Hb.
  rewrite Hpc in Hb. simpl in Hb. lia.
Qed.

Lemma add_to_queue_eq t s d n :
  heap s !! stats s = Some d → d !! "total" = Some n →
  add_to_queue t s
  = (Return (S (length (items (upload_queue s)))),
     set_heap (<[stats s := <["total" := n + 1]> d]> (heap s))
              (set_upload_queue (Queue_put t (upload_queue s)) s)).
Proof.
  intros Hd Hn. unfold add_to_queue.
  do 2 (rewrite bind_eq; simpl). rewrite bind_eq.
  rewrite dict_iadd_eq. simpl. rewrite Hd, Hn. simpl.
  unfold reads, Queue_qsize. simpl. rewrite length_app. simpl.
  by rewrite Nat.add_1_r.
Qed.

Lemma get_stats_eq s d :
  heap s !! stats s = Some d →
  get_stats s
  = (Return (fresh (dom (heap s))),
     set_heap (<[fresh (dom (heap s)) := d]> (heap s)) s).
Proof.
  intros Hd. unfold get_stats. rewrite bind_eq. simpl.
  unfold dict_copy. by rewrite Hd.
Qed.

Lemma fresh_not_stats s d :
  heap s !! stats s = Some d → fresh (dom (heap s)) ≠ stats s.
Proof.
  intros Hd Heq. apply (is_fresh (dom (heap s))). rewrite Heq.
  apply elem_of_dom. eauto.
Qed.

Lemma unanswered_in_pipeline pc t :
  unanswered_task pc = [t] → in_pipeline pc = true.
Proof. by destruct pc. Qed.

Lemma state_id s : set_world (world s) (set_history (history s ++ []) s) = s.
Proof. rewrite app_nil_r. by destruct s. Qed.

(** ** One statement of an iteration *)

Lemma caught_KeyError k : caught (KeyError k) = true.
Proof. by vm_compute. Qed.

(** The steps between two statements on shared state only read the task:
    they lead to the next point or raise a [KeyError]. *)
Lemma after_uploads_cases t ups s :
  (∃ p, after_uploads t ups s = (Return p, s)
        ∧ unanswered_task (Running Try t p) = [t]
        ∧ wf_pc (Running Try t p))
  ∨ (∃ k, after_uploads t ups s = (Raise (KeyError k), s)).
Proof.
  unfold after_uploads. destruct ups as [|u ups].
  - destruct (task_title t) as [title|]; simpl; [left|right; by eexists].
    by eexists.
  - destruct (task_title t) as [name|]; simpl; [|right; by eexists].
    destruct (task_description t) as [description|]; simpl;
      [|right; by eexists].
    destruct (task_price t) as [price|]; simpl; [|right; by eexists].
    destruct (task_category_id t) as [category_id|]; simpl;
      [|right; by eexists].
    left. by eexists.
Qed.

Lemma next_upload_cases t images ups s :
  (∃ p, next_upload t images ups s = (Return p, s)
        ∧ unanswered_task (Running Try t p) = [t]
        ∧ wf_pc (Running Try t p))
  ∨ (∃ k, next_upload t images ups s = (Raise (KeyError k), s)).
Proof.
  destruct images as [|image_path rest]; [apply after_uploads_cases|].
  left. by eexists.
Qed.

Lemma enter_cases t s :
  (∃ p, enter t s = (Return p, s)
        ∧ unanswered_task (Running Try t p) = [t]
        ∧ wf_pc (Running Try t p))
  ∨ (∃ k, enter t s = (Raise (KeyError k), s)).
Proof.
  unfold enter. destruct (task_images t) as [images|]; simpl;
    [apply next_upload_cases | right; by eexists].
Qed.

(** A call of [upload_media] and what follows it: the world and the log of
    calls move, and the statement leads to the next point or raises, either
    what the capability raised or a [KeyError]. *)
Lemma upload_cases t image_path rest ups s :
  ∃ w,
    (∃ p, statement t (AtUpload image_path rest ups) s
          = (Return (Some p), set_world w (log (UploadMedia image_path) s))
          ∧ unanswered_task (Running Try t p) = [t]
          ∧ wf_pc (Running Try t p))
    ∨ (∃ e, statement t (AtUpload image_path rest ups) s
            = (Raise e, set_world w (log (UploadMedia image_path) s))
            ∧ (caught e = true ∨ raised_by_capability e)).
Proof.
  simpl. rewrite bind_eq. unfold call_upload_media. simpl.
  destruct (upload_media image_path (world s)) as [[reply|e] w] eqn:Hup;
    exists w.
  - rewrite bind_eq.
    destruct (next_upload_cases t rest
                match reply with
                | MediaOk u => ups ++ [u]
                | MediaFail _ => ups
                end
                (set_world w (log (UploadMedia image_path) s)))
      as [(p & -> & ? & ?)|[k ->]].
    + left. by exists p.
    + right. exists (KeyError k). split; [done|]. by left.
  - right. exists e. split; [done|]. right. left.
    by exists image_path, (world s), w.
Qed.

Lemma create_cases t p s :
  ∃ w,
    (∃ p', statement t (AtCreate p) s
           = (Return (Some p'), set_world w (log (CreateProduct p) s))
           ∧ unanswered_task (Running Try t p') = [t]
           ∧ wf_pc (Running Try t p'))
    ∨ (∃ e, statement t (AtCreate p) s
            = (Raise e, set_world w (log (CreateProduct p) s))
            ∧ (caught e = true ∨ raised_by_capability e)).
Proof.
  simpl. rewrite bind_eq. unfold call_create_product. simpl.
  destruct (create_product p (world s)) as [[reply|e] w] eqn:Hcr; exists w.
  - left. eexists. split; [done|]. split; [done|]. simpl. split; [done|].
    destruct (success reply); repeat constructor.
  - right. exists e. split; [done|]. right. right.
    by exists p, (world s), w.
Qed.

(** ** The steps of the threads and of the owner *)

(** A step of an iteration that leaves the stats dict as it is. *)
Lemma T_quiet i t pc pc' w evs s :
  stats_ok s →
  workers s !! i = Some pc →
  unanswered_task pc = [t] → unanswered_task pc' = [t] → wf_pc pc' →
  results_put evs = [] → callbacks evs = [] →
  transition (Worker_step i) s
    (set_worker i pc' (set_world w (set_history (history s ++ evs) s))).
Proof.
  intros Hok Hi Hu Hu' Hwf Hr Hcb.
  apply stats_ok_lookup in Hok as (d & c & f & n & Hd & _).
  replace (set_world w (set_history (history s ++ evs) s))
    with (State (<[stats s := d]> (heap s)) (stats s)
                (upload_queue s) (results_queue s)
                (running s) (workers s) (results_thread s) w
                (history s ++ evs))
    by (by rewrite (insert_id _ _ _ Hd)).
  by apply (T_work i t pc pc' d d).
Qed.

(** An exception raised in the [try] body before the result is put. *)
Lemma T_except i t pc e w evs s :
  stats_ok s →
  workers s !! i = Some pc →
  unanswered_task pc = [t] →
  caught e = true ∨ raised_by_capability e →
  results_put evs = [] → callbacks evs = [] →
  transition (Worker_step i) s
    (set_worker i (except_clauses t e)
       (set_world w (set_history (history s ++ evs) s))).
Proof.
  intros Hok Hi Hu He Hr Hcb. unfold except_clauses.
  destruct (caught e) eqn:Hcaught.
  - unfold caught in Hcaught.
    apply andb_true_iff in Hcaught as [-> ->%negb_true_iff].
    apply (T_quiet i t pc); try done. split; [done|repeat constructor].
  - destruct He as [?|He]; [done|].
    pose proof (T_leave i t pc e w evs s Hi Hu He Hcaught Hr Hcb) as Htr.
    unfold caught in Hcaught.
    destruct (isinstance e "queue.Empty"); [done|].
    by destruct (isinstance e "Exception").
Qed.

(** Every step from a state that satisfies [inv] is one of the
    transitions. *)
Lemma exec_transition a s s' : inv s → exec a s = Some s' → transition a s s'.
Proof.
  intros (Hok & Hacc & Hwf) Hex. pose proof Hok as Hok'.
  apply stats_ok_lookup in Hok' as (d & c & f & n & Hd & Hc & Hf & Hn).
  assert (s = set_heap (heap s) s) as Hself by (by destruct s).
  destruct a as [t| | | | |timeout|l mu|i|]; simpl in Hex.
  - rewrite (add_to_queue_eq t s d n Hd Hn) in Hex. simplify_eq/=.
    by constructor.
  - simplify_eq. rewrite Hself at 2. by constructor.
  - simplify_eq. rewrite Hself at 2. by constructor.
  - rewrite (get_stats_eq s d Hd) in Hex. simplify_eq/=.
    constructor; [done|]. apply lookup_insert_ne.
    by apply (fresh_not_stats s d).
  - simplify_eq. constructor.
  - unfold wait_for_completion in Hex. case_match; simplify_eq.
    rewrite Hself at 2. by constructor.
  - case_bool_decide as Hl; [done|]. simplify_eq. unfold dict_mutate.
    destruct (heap s !! l).
    + constructor; [done|]. by apply lookup_insert_ne.
    + rewrite Hself at 2. by constructor.
  - unfold _process_queue_worker in Hex.
    destruct (workers s !! i) as [[| |t|cl t p| |e]|] eqn:Hi; try done.
    + simplify_eq. by constructor.
    + unfold Queue_get in Hex.
      destruct (items (upload_queue s)) as [|t rest] eqn:Hq; simplify_eq;
        by constructor.
    + simplify_eq. rewrite bind_eq.
      destruct (enter_cases t s) as [(p & -> & Hu & Hwf')|[k ->]]; simpl.
      * rewrite <- (state_id s) at 2. by apply (T_quiet i t (InPipeline t)).
      * rewrite <- (state_id s) at 2.
        apply (T_except i t (InPipeline t)); try done.
        left. apply caught_KeyError.
    + simplify_eq.
      pose proof (Forall_lookup_1 _ _ _ _ Hwf Hi) as Hpc. simpl in Hpc.
      destruct p as [image_path rest ups|p|k r|k v r|r|].
      * subst cl.
        destruct (upload_cases t image_path rest ups s)
          as [w [(p' & -> & Hu & Hwf')|(e & -> & He)]]; simpl.
        -- by apply (T_quiet i t (Running Try t (AtUpload image_path rest ups))
                       _ w [UploadMedia image_path]).
        -- by apply (T_except i t (Running Try t (AtUpload image_path rest ups))
                       e w [UploadMedia image_path]).
      * subst cl.
        destruct (create_cases t p s)
          as [w [(p' & -> & Hu & Hwf')|(e & -> & He)]]; simpl.
        -- by apply (T_quiet i t (Running Try t (AtCreate p))
                       _ w [CreateProduct p]).
        -- by apply (T_except i t (Running Try t (AtCreate p))
                       e w [CreateProduct p]).
      * destruct Hpc as [Ht Hk].
        assert (is_Some (d !! k)) as [v Hv].
        { repeat (apply elem_of_cons in Hk as [->|Hk]); eauto.
          by apply elem_of_nil in Hk. }
        simpl. rewrite bind_eq. simpl. rewrite bind_eq.
        unfold dict_getitem. rewrite Hd, Hv. simpl.
        rewrite <- (state_id s) at 2.
        by apply (T_quiet i t (Running cl t (AtStatsRead k r))).
      * destruct Hpc as [Ht Hk].
        simpl. rewrite bind_eq. simpl. rewrite bind_eq.
        unfold dict_setitem. rewrite Hd. simpl.
        replace (set_heap _ s)
          with (State (<[stats s := <[k := v + 1]> d]> (heap s)) (stats s)
                      (upload_queue s) (results_queue s)
                      (running s) (workers s) (results_thread s) (world s)
                      (history s ++ []))
          by (rewrite app_nil_r; by destruct s).
        apply (T_work i t (Running cl t (AtStatsWrite k v r))
                 (Running cl t (AtPut r)) d (<[k := v + 1]> d)); try done.
        -- intros k' Hk'. apply lookup_insert_is_Some.
           destruct (decide (k = k')); auto.
        -- apply lookup_insert_ne. intros ->.
           repeat (apply elem_of_cons in Hk as [?|Hk]; [done|]).
           by apply elem_of_nil in Hk.
      * exact (T_put i cl t r s Hi Hpc).
      * pose proof (busy_positive _ _ _ Hi eq_refl) as Hpos.
        unfold accounting in Hacc.
        destruct (unfinished_tasks (upload_queue s)) as [|m] eqn:Hm; [lia|].
        simpl. rewrite ?bind_eq.
        unfold upload_queue_task_done, Queue_task_done. rewrite Hm. simpl.
        by apply (T_done i cl t m).
  - unfold _process_results in Hex.
    destruct (results_thread s) eqn:Hd'; simplify_eq; [by constructor|].
    unfold Queue_get in Hex.
    destruct (items (results_queue s)) as [|r rest] eqn:Hq; simplify_eq;
      [by constructor|].
    unfold deliver. simpl.
    destruct (on_upload_complete r (world s)) as [[[]|e] w]; simpl.
    + replace (set_results_thread _ _) with
        (State (heap s) (stats s) (upload_queue s)
               (MkQueue rest (Nat.pred (unfinished_tasks (results_queue s))))
               (running s) (workers s) DAtLoopHead w
               (history s ++ [Callback r])) by done.
      by constructor.
    + replace (set_results_thread _ _) with
        (State (heap s) (stats s) (upload_queue s)
               (MkQueue rest (unfinished_tasks (results_queue s)))
               (running s) (workers s) DAtLoopHead w
               (history s ++ [Callback r])) by done.
      by constructor.
Qed.

Ltac transitions Htr :=
  destruct Htr as
    [ t d n s Hd Hn
    | a h s Hsub Hh
    | s
    | i s Hi
    | i s Hi Hq
    | i t rest s Hi Hq
    | i t pc pc' d d' w evs s Hi Hu Hu' Hwf' Hd Hkeys Htotal Hr Hcb
    | i t pc e w evs s Hi Hu He Hcaught Hr Hcb
    | i c t r s Hi Ht
    | i c t m s Hi Hm
    | s Hpc
    | s Hpc Hq
    | r rest u w s Hpc Hq ].

(** ** The invariant of the reachable states *)

Lemma transition_inv a s s' : inv s → transition a s s' → inv s'.
Proof.
  intros (Hok & Hacc & Hwf) Htr. unfold inv, accounting in *.
  transitions Htr; simpl.
  - split; [|split; [|done]].
    + by apply (stats_ok_moved (set_upload_queue _ s)).
    + rewrite length_app. simpl. lia.
  - split; [|done]. unfold stats_ok, counter in *. simpl. by rewrite Hh.
  - done.
  - split; [done|]. split; [|by apply Forall_insert; [|destruct (running s)]].
    pose proof (busy_insert _ _ _ (if running s then InGet else Exited) Hi)
      as Hb. destruct (running s); simpl in Hb; lia.
  - split; [done|]. split; [|by apply Forall_insert].
    pose proof (busy_insert _ _ _ AtLoopHead Hi) as Hb. simpl in Hb. lia.
  - split; [done|]. split; [|by apply Forall_insert].
    pose proof (busy_insert _ _ _ (InPipeline t) Hi) as Hb. simpl in Hb.
    rewrite Hq in Hacc. simpl in *. lia.
  - split; [|split; [|by apply Forall_insert]].
    + apply stats_ok_lookup in Hok as (d0 & c & f & n & Hd0 & Hc & Hf & Hn).
      simplify_eq. apply stats_ok_lookup.
      destruct (Hkeys "completed") as [c' Hc']; [by eauto|].
      destruct (Hkeys "failed") as [f' Hf']; [by eauto|].
      exists d', c', f', n. simpl. rewrite lookup_insert_eq.
      by rewrite Htotal.
    + pose proof (busy_insert _ _ _ pc' Hi) as Hb.
      rewrite (unanswered_in_pipeline _ _ Hu) in Hb.
      rewrite (unanswered_in_pipeline _ _ Hu') in Hb. lia.
  - split; [done|]. split.
    + pose proof (busy_insert _ _ _
                    (if isinstance e "queue.Empty" then AtLoopHead
                     else Crashed e) Hi) as Hb.
      destruct (isinstance e "queue.Empty"); simpl in Hb; lia.
    + apply Forall_insert; [done|].
      by destruct (isinstance e "queue.Empty").
  - split; [done|]. split; [|by apply Forall_insert].
    pose proof (busy_insert _ _ _ (Running c t AtTaskDone) Hi) as Hb.
    simpl in Hb. lia.
  - split; [done|]. split; [|by apply Forall_insert].
    pose proof (busy_insert _ _ _ AtLoopHead Hi) as Hb. simpl in Hb. lia.
  - done.
  - done.
  - done.
Qed.

Lemma inv_exec a s s' : inv s → exec a s = Some s' → inv s'.
Proof.
  intros Hinv Hex. apply (transition_inv a s); [done|].
  by apply exec_transition.
Qed.

Lemma inv_init max_workers (w : World) : inv (init max_workers w).
Proof.
  split; [|split].
  - repeat split; eexists; by vm_compute.
  - unfold accounting, busy. simpl.
    induction max_workers as [|m IH]; [done|]. simpl.
    rewrite filter_cons. by case_decide.
  - simpl. apply Forall_replicate. done.
Qed.

Lemma inv_run acts : ∀ s s', inv s → run acts s = Some s' → inv s'.
Proof.
  induction acts as [|a acts IH]; intros s s' Hinv Hrun; simpl in Hrun.
  - by simplify_eq.
  - destruct (exec a s) as [s1|] eqn:Hex; [|done].
    eapply IH; [|done]. by eapply inv_exec.
Qed.

Lemma reachable_inv s : reachable s → inv s.
Proof.
  intros (max_workers & w & acts & Hrun).
  eapply inv_run; [apply inv_init | done].
Qed.

(** C1. A task that declares no image does not reach record creation:
    the list of uploaded images is empty, so the iteration takes the branch
    of line 62, puts the failure ["No images uploaded successfully"] and
    never calls [create_product]. (The task has a title, and it has been
    put on the queue, so that its [task_done] is due.) *)
Theorem assetless_task_fails_without_create t s title :
  task_images t = Some [] →
  task_title t = Some title →
  (0 < unfinished_tasks (upload_queue s))%nat →
  ∃ s', process_task t s = (Return (), s')
      ∧ create_calls (history s') = create_calls (history s)
      ∧ results_put (history s')
        = results_put (history s)
          ++ [failure title "No images uploaded successfully" t].
Proof.
  intros Himg Htitle Hpos.
  destruct (no_images_path t s [] title Himg Htitle) as [w ->];
    [by constructor | done |].
  eexists. split; [done|]. simpl.
  rewrite create_calls_app, results_put_app, !app_nil_r. done.
Qed.

(** C4 (amended). When the task declares at least one image, has a title,
    and the media API refuses every upload, [create_product] is never called
    and the iteration puts exactly one result: the failure whose error is
    ["No images uploaded successfully"]. (The task has been put on the
    queue, so that its [task_done] is due.) *)
Theorem all_uploads_refused t s images title :
  task_images t = Some images →
  images ≠ [] →
  task_title t = Some title →
  Forall (λ r, refused r = true) (media_replies images (world s)) →
  (0 < unfinished_tasks (upload_queue s))%nat →
  ∃ s', process_task t s = (Return (), s')
      ∧ create_calls (history s') = create_calls (history s)
      ∧ results_put (history s')
        = results_put (history s)
          ++ [failure title "No images uploaded successfully" t]
      ∧ success (failure title "No images uploaded successfully" t) = false.
Proof.
  intros Himg _ Htitle Hall Hpos.
  destruct (no_images_path t s images title Himg Htitle Hall Hpos) as [w ->].
  eexists. split; [done|]. simpl.
  rewrite !create_calls_app, !results_put_app.
  rewrite create_calls_uploads, results_put_uploads, !app_nil_r. done.
Qed.

(** A statement that raises has moved nothing but the world and the log of
    the calls. *)
Lemma statement_raises t p s e s1 :
  statement t p s = (Raise e, s1) →
  heap s1 = heap s ∧ stats s1 = stats s
  ∧ upload_queue s1 = upload_queue s ∧ results_queue s1 = results_queue s
  ∧ workers s1 = workers s
  ∧ results_put (history s1) = results_put (history s).
Proof.
  intros Hst. destruct p as [image_path rest ups|p|k r|k v r|r|].
  - destruct (upload_cases t image_path rest ups s)
      as [w [(p' & Heq & _)|(e' & Heq & _)]]; rewrite Heq in Hst;
      simplify_eq. simpl. by rewrite results_put_app, app_nil_r.
  - destruct (create_cases t p s)
      as [w [(p' & Heq & _)|(e' & Heq & _)]]; rewrite Heq in Hst;
      simplify_eq. simpl. by rewrite results_put_app, app_nil_r.
  - simpl in Hst. rewrite bind_eq in Hst. simpl in Hst.
    rewrite bind_eq in Hst. unfold dict_getitem in Hst.
    destruct (heap s !! stats s) as [d|]; [|by simplify_eq].
    destruct (d !! k); by simplify_eq.
  - simpl in Hst. rewrite bind_eq in Hst. simpl in Hst.
    rewrite bind_eq in Hst. unfold dict_setitem in Hst.
    destruct (heap s !! stats s) as [d|]; by simplify_eq.
  - done.
  - simpl in Hst. rewrite ?bind_eq in Hst.
    unfold upload_queue_task_done in Hst.
    destruct (Queue_task_done (upload_queue s)); by simplify_eq.
Qed.

(** X26. Not every exception raised in the [try] body becomes a failed
    result. When the statement a worker runs there raises an exception
    that is a [queue.Empty], or that does not derive from [Exception], the
    step puts no result, moves no counter and does not mark the task done;
    after a [queue.Empty] the worker is back at the test of its loop, with
    the task forgotten, and after the other the thread has ended. *)
Theorem exception_escapes_the_handler s i t p e s1 :
  workers s !! i = Some (Running Try t p) →
  statement t p s = (Raise e, s1) →
  caught e = false →
  ∃ s2,
    exec (Worker_step i) s = Some s2
    ∧ results_put (history s2) = results_put (history s)
    ∧ heap s2 = heap s
    ∧ unfinished_tasks (upload_queue s2) = unfinished_tasks (upload_queue s)
    ∧ workers s2 !! i
      = Some (if isinstance e "queue.Empty" then AtLoopHead else Crashed e).
Proof.
  intros Hi Hst Hcaught.
  destruct (statement_raises t p s e s1 Hst)
    as (Hheap & _ & Hq & _ & Hws & Hres).
  eexists. split.
  { simpl. unfold _process_queue_worker. by rewrite Hi, Hst. }
  simpl. rewrite Hq. repeat split; try done.
  rewrite Hws. unfold except_clauses, caught in *.
  rewrite list_lookup_insert_eq by by eapply lookup_lt_Some.
  destruct (isinstance e "queue.Empty"); [done|].
  by destruct (isinstance e "Exception").
Qed.

(** *** The iteration after the counters are due, step by step *)

Lemma set_worker_lookup i pc s :
  is_Some (workers s !! i) → workers (set_worker i pc s) !! i = Some pc.
Proof.
  intros [pc0 Hi]. simpl. apply list_lookup_insert_eq.
  by eapply lookup_lt_Some.
Qed.

(** The read of [self.stats[k]] (the first half of lines 97, 99 and 112). *)
Lemma step_read i c t k r s :
  stats_ok s →
  workers s !! i = Some (Running c t (AtStatsRead k r)) →
  k ∈ ["completed"; "failed"] →
  ∃ v, counter k s = Some v
     ∧ exec (Worker_step i) s
       = Some (set_worker i (Running c t (AtStatsWrite k v r)) s).
Proof.
  intros Hok Hi Hk.
  apply stats_ok_lookup in Hok as (d & cv & f & n & Hd & Hc & Hf & Hn).
  assert (is_Some (d !! k)) as [v Hv].
  { repeat (apply elem_of_cons in Hk as [->|Hk]); eauto.
    by apply elem_of_nil in Hk. }
  exists v. split; [unfold counter; by rewrite Hd|].
  simpl. unfold _process_queue_worker. rewrite Hi. simpl.
  rewrite bind_eq. simpl. rewrite bind_eq. unfold dict_getitem.
  by rewrite Hd, Hv.
Qed.

(** The store of the sum (the second half of these lines). *)
Lemma step_store i c t k v r s :
  stats_ok s →
  workers s !! i = Some (Running c t (AtStatsWrite k v r)) →
  ∃ d, heap s !! stats s = Some d
     ∧ exec (Worker_step i) s
       = Some (set_worker i (Running c t (AtPut r))
                 (set_heap (<[stats s := <[k := v + 1]> d]> (heap s)) s)).
Proof.
  intros Hok Hi.
  apply stats_ok_lookup in Hok as (d & cv & f & n & Hd & Hc & Hf & Hn).
  exists d. split; [done|].
  simpl. unfold _process_queue_worker. rewrite Hi. simpl.
  rewrite bind_eq. simpl. rewrite bind_eq. unfold dict_setitem.
  by rewrite Hd.
Qed.

(** The [put] of lines 63, 102 and 113. *)
Lemma step_put i c t r s :
  workers s !! i = Some (Running c t (AtPut r)) →
  exec (Worker_step i) s
  = Some (set_worker i (Running c t AtTaskDone)
            (log (ResultPut r)
                 (set_results_queue (Queue_put r (results_queue s)) s))).
Proof.
  intros Hi. simpl. unfold _process_queue_worker. by rewrite Hi.
Qed.

(** The [task_done] of lines 69, 105 and 119. *)
Lemma step_task_done i c t s :
  accounting s →
  workers s !! i = Some (Running c t AtTaskDone) →
  ∃ m, unfinished_tasks (upload_queue s) = S m
     ∧ exec (Worker_step i) s
       = Some (set_worker i AtLoopHead
                 (set_upload_queue (MkQueue (items (upload_queue s)) m) s)).
Proof.
  intros Hacc Hi.
  pose proof (busy_positive _ _ _ Hi eq_refl) as Hpos.
  unfold accounting in Hacc.
  destruct (unfinished_tasks (upload_queue s)) as [|m] eqn:Hm; [lia|].
  exists m. split; [done|].
  simpl. unfold _process_queue_worker. rewrite Hi. simpl.
  rewrite ?bind_eq. unfold upload_queue_task_done, Queue_task_done.
  by rewrite Hm.
Qed.









(** An exception that the handler catches: when the [try] body of an
    iteration that runs without interruption raises an exception that
    derives from [Exception] and is not a [queue.Empty], the iteration
    still returns; the failure is counted, the one result put is a failure
    that carries the task and [str(e)], and the task is marked done. *)
Lemma process_task_catches t s e s1 :
  stats_ok s →
  (0 < unfinished_tasks (upload_queue s))%nat →
  pipeline t s = (Raise e, s1) →
  caught e = true →
  ∃ s2 r f,
    process_task t s = (Return (), s2)
    ∧ results_put (history s2) = results_put (history s) ++ [r]
    ∧ success r = false
    ∧ res_error r = Some (str e)
    ∧ res_task r = Some t
    ∧ res_title r = Some (default "Unknown" (task_title t))
    ∧ counter "failed" s = Some f ∧ counter "failed" s2 = Some (f + 1)
    ∧ S (unfinished_tasks (upload_queue s2))
      = unfinished_tasks (upload_queue s).
Proof.
  intros Hok Hpos Hraise Hcaught.
  apply stats_ok_lookup in Hok as (d & c & f & n & Hd & Hc & Hf & Hn).
  destruct (unfinished_tasks (upload_queue s)) as [|m] eqn:Hm; [lia|].
  destruct (pipeline_cases t s d c f m Hd Hc Hf Hm)
    as (w & evs & Hr & [[e' He] | (r & d' & Hp & _)]);
    [|congruence].
  rewrite He in Hraise. simplify_eq.
  unfold caught in Hcaught.
  apply andb_true_iff in Hcaught as [HX HE%negb_true_iff].
  exists (on_exception t e
            (set_world w (set_history (history s ++ evs) s))).2,
         (failure (default "Unknown" (task_title t)) (str e) t), f.
  split.
  { unfold process_task, try_except. rewrite He.
    unfold except_clause. rewrite HE, HX.
    by rewrite (on_exception_eq t e _ d f m). }
  rewrite (on_exception_eq t e _ d f m) by done. simpl.
  split; [|split; [done|split; [done|split; [done|split; [done|]]]]].
  - rewrite !results_put_app, Hr. simpl. by rewrite app_nil_r.
  - unfold counter. simpl. rewrite Hd. simpl. rewrite !lookup_insert_eq.
    simpl. by rewrite lookup_insert_eq.
Qed.

(** *** An iteration without interruption *)

Lemma set_worker_twice i pc pc' s :
  set_worker i pc' (set_worker i pc s) = set_worker i pc' s.
Proof.
  unfold set_worker, set_workers. simpl. by rewrite list_insert_insert_eq.
Qed.

Lemma framed_bind {A B} (m : M (state World) A) (k : A → M (state World) B) :
  framed m → (∀ a, framed (k a)) → framed (m ≫= k).
Proof.
  intros Hm Hk s. destruct (Hm s) as [Hws Hfr]. split.
  - rewrite bind_eq. destruct (m s) as [[a|e] s1]; simpl in *; [|done].
    by rewrite (proj1 (Hk a s1)).
  - intros i pc. rewrite !bind_eq, Hfr.
    destruct (m s) as [[a|e] s1]; simpl; [apply Hk | done].
Qed.

Lemma after_uploads_framed t ups :
  framed (World := World) (after_uploads t ups).
Proof.
  intros s. unfold after_uploads. destruct ups as [|u ups].
  - by destruct (task_title t).
  - by destruct (task_title t), (task_description t), (task_price t),
      (task_category_id t).
Qed.

Lemma next_upload_framed t images ups :
  framed (World := World) (next_upload t images ups).
Proof.
  destruct images as [|image_path rest]; [apply after_uploads_framed|done].
Qed.

Lemma enter_framed t : framed (World := World) (enter t).
Proof.
  intros s. unfold enter.
  destruct (task_images t) as [images|]; [|done].
  apply (next_upload_framed t images []).
Qed.

Lemma call_upload_media_framed image_path :
  framed (call_upload_media image_path).
Proof.
  intros s. unfold call_upload_media. simpl.
  by destruct (upload_media image_path (world s)) as [[reply|e] w].
Qed.

Lemma call_create_product_framed pd : framed (call_create_product pd).
Proof.
  intros s. unfold call_create_product. simpl.
  by destruct (create_product pd (world s)) as [[reply|e] w].
Qed.

Lemma dict_getitem_framed l k : framed (World := World) (dict_getitem l k).
Proof.
  intros s. unfold dict_getitem. simpl.
  destruct (heap s !! l) as [d|]; [|done]. by destruct (d !! k).
Qed.

Lemma dict_setitem_framed l k v :
  framed (World := World) (dict_setitem l k v).
Proof.
  intros s. unfold dict_setitem. simpl.
  by destruct (heap s !! l) as [d|].
Qed.

Lemma upload_queue_task_done_framed :
  framed (World := World) upload_queue_task_done.
Proof.
  intros s. unfold upload_queue_task_done. simpl.
  by destruct (Queue_task_done (upload_queue s)).
Qed.

Lemma statement_framed t p : framed (statement t p).
Proof.
  destruct p as [image_path rest ups|pd|k r|k v r|r|]; cbn [statement].
  - apply framed_bind; [apply call_upload_media_framed|]. intros result.
    apply framed_bind; [apply next_upload_framed|]. by intros p'.
  - apply framed_bind; [apply call_create_product_framed|]. by intros result.
  - apply framed_bind; [done|]. intros st.
    apply framed_bind; [apply dict_getitem_framed|]. by intros v.
  - apply framed_bind; [done|]. intros st.
    apply framed_bind; [apply dict_setitem_framed|]. by intros [].
  - apply framed_bind; [done|]. by intros [].
  - apply framed_bind; [apply upload_queue_task_done_framed|]. by intros [].
Qed.

Lemma continue_framed t fuel : ∀ p, framed (continue fuel t p).
Proof.
  induction fuel as [|fuel IH]; intros p; [done|].
  simpl. apply framed_bind; [apply statement_framed|].
  intros [p'|]; [apply IH | done].
Qed.

(** Each statement leads to a point with fewer statements left. *)
Lemma statement_decreases t p s p' s' :
  statement t p s = (Return (Some p'), s') →
  (statements_left p' < statements_left p)%nat.
Proof.
  destruct p as [image_path rest ups|pd|k r|k v r|r|]; simpl;
    rewrite ?bind_eq.
  - destruct (call_upload_media image_path s) as [[reply|e] s1]; [|done].
    rewrite bind_eq.
    destruct (next_upload t rest _ s1) as [[p1|e] s2] eqn:Hnext; [|done].
    intros Hp. cbv [mret M_ret ret] in Hp. simplify_eq.
    destruct rest as [|image_path' rest].
    + simpl in Hnext. unfold after_uploads in Hnext.
      destruct (match reply with
                | MediaOk u => ups ++ [u]
                | MediaFail _ => ups
                end).
      * destruct (task_title t);
          cbv [getitem mbind M_bind bind mret M_ret ret] in Hnext;
          simplify_eq. simpl. lia.
      * destruct (task_title t), (task_description t), (task_price t),
          (task_category_id t);
          cbv [getitem mbind M_bind bind mret M_ret ret] in Hnext;
          simplify_eq. simpl. lia.
    + cbv [next_upload mret M_ret ret] in Hnext. simplify_eq. simpl. lia.
  - destruct (call_create_product pd s) as [[reply|e] s1]; [|done].
    intros Hp. cbv [mret M_ret ret] in Hp. simplify_eq. simpl. lia.
  - simpl. rewrite bind_eq.
    destruct (dict_getitem (stats s) k s) as [[v|e] s1]; [|done].
    intros Hp. cbv [mret M_ret ret] in Hp. simplify_eq. simpl. lia.
  - simpl. rewrite bind_eq.
    destruct (dict_setitem (stats s) k (v + 1) s) as [[[]|e] s1]; [|done].
    intros Hp. cbv [mret M_ret ret] in Hp. simplify_eq. simpl. lia.
  - intros Hp.
    cbv [results_queue_put modify mbind M_bind bind mret M_ret ret] in Hp.
    simplify_eq. simpl. lia.
  - destruct (upload_queue_task_done s) as [[[]|e] s1]; [|done].
    intros Hp. cbv [mret M_ret ret] in Hp. simplify_eq.
Qed.

(** The handler, run in a row: when a worker stands at a point of the
    [except] clause and runs alone, it ends where the statements from that
    point on, one after the other, end. *)
Lemma handler_alone i t fuel :
  ∀ p s,
    (statements_left p ≤ fuel)%nat →
    workers s !! i = Some (Running Except t p) →
    ∃ n, run (replicate n (Worker_step i)) s
         = Some (set_worker i (ending (continue fuel t p s).1)
                            (continue fuel t p s).2).
Proof.
  induction fuel as [|fuel IH]; intros p s Hle Hi.
  { destruct p; simpl in Hle; lia. }
  assert (exec (Worker_step i) s
          = Some (resume i Except t (statement t p s))) as Hex.
  { unfold exec, _process_queue_worker. by rewrite Hi. }
  destruct (statement_framed t p s) as [Hws _].
  cbn [continue]. rewrite bind_eq.
  destruct (statement t p s) as [[[p'|]|e] s1] eqn:Hst;
    cbn [resume fst snd] in *.
  - pose proof (statement_decreases t p s p' s1 Hst) as Hlt.
    destruct (IH p' (set_worker i (Running Except t p') s1)) as [n Hrun];
      [lia | apply set_worker_lookup; rewrite Hws; eauto |].
    exists (S n). cbn [replicate run]. rewrite Hex, Hrun.
    rewrite (proj2 (continue_framed t fuel p' s1)). cbn [fst snd].
    by rewrite set_worker_twice.
  - exists 1%nat. cbn [replicate run]. by rewrite Hex.
  - exists 1%nat. cbn [replicate run]. by rewrite Hex.
Qed.

Lemma continue_S fuel t p s :
  continue (S fuel) t p s
  = match statement t p s with
    | (Return (Some p'), s') => continue fuel t p' s'
    | (Return None, s') => (Return (), s')
    | (Raise e, s') => (Raise e, s')
    end.
Proof.
  cbn [continue]. rewrite bind_eq.
  by destruct (statement t p s) as [[[p'|]|e] s'].
Qed.

(** Lines 102-105 (and 63-69, 113-119) are the statements from the [put]
    on, in a row. *)
Lemma put_continue t fuel r s :
  (results_queue_put r;; upload_queue_task_done) s
  = continue (S (S fuel)) t (AtPut r) s.
Proof.
  rewrite continue_S. cbn [statement]. rewrite !bind_eq.
  cbn [results_queue_put modify mret M_ret ret].
  rewrite continue_S. cbn [statement]. rewrite !bind_eq.
  by destruct (upload_queue_task_done _) as [[[]|e1] s3].
Qed.

(** Lines 96-105 (and 112-119) are the statements from the read of the
    counter on, in a row. *)
Lemma count_continue t fuel k r s :
  (st ← reads stats;
   dict_iadd st k 1;; results_queue_put r;; upload_queue_task_done) s
  = continue (S (S (S (S fuel)))) t (AtStatsRead k r) s.
Proof.
  unfold dict_iadd. rewrite continue_S. cbn [statement].
  rewrite !bind_eq. cbn [reads]. rewrite !bind_eq.
  destruct (dict_getitem (stats s) k s) as [[v|e1] s1] eqn:Hget; [|done].
  assert (s1 = s) as ->.
  { unfold dict_getitem in Hget. destruct (heap s !! stats s) as [d|];
      [|done]. destruct (d !! k); by simplify_eq. }
  cbn [mret M_ret ret]. rewrite continue_S. cbn [statement].
  rewrite !bind_eq. cbn [reads]. rewrite !bind_eq.
  destruct (dict_setitem (stats s) k (v + 1) s) as [[[]|e1] s2]; [|done].
  cbn [mret M_ret ret]. by rewrite <- (put_continue t fuel r s2).
Qed.

(** The handler of lines 111-119 is the statements from its first point
    on, in a row. *)
Lemma on_exception_continue t e s :
  on_exception t e s
  = continue 4 t (AtStatsRead "failed"
                    (failure (default "Unknown" (task_title t)) (str e) t)) s.
Proof. apply (count_continue t 0). Qed.

(** The [try] body from the uploads on (lines 53-106) is the statements
    from its next point on, in a row. *)
Lemma uploads_continue t fuel :
  ∀ images ups s,
    (length images + 5 ≤ fuel)%nat →
    (uploaded_images ← upload_loop images ups;
     match uploaded_images with
     | [] =>
         title ← getitem "title" (task_title t);
         results_queue_put (failure title "No images uploaded successfully" t);;
         upload_queue_task_done
     | _ :: _ =>
         name ← getitem "title" (task_title t);
         description ← getitem "description" (task_description t);
         regular_price ← getitem "price" (task_price t);
         category_id ← getitem "category_id" (task_category_id t);
         let wc_product_data :=
           ProductData name description "simple" regular_price
                       [IdRef category_id] (default "" (task_sku t))
                       (add_images 0 uploaded_images []) in
         result ← call_create_product wc_product_data;
         let result := set_task t result in
         st ← reads stats;
         (if success result then dict_iadd st "completed" 1
          else dict_iadd st "failed" 1);;
         results_queue_put result;;
         upload_queue_task_done
     end) s
    = (p ← next_upload t images ups; continue fuel t p) s.
Proof.
  intros images. revert fuel.
  induction images as [|image_path rest IH]; intros fuel ups s Hle.
  - destruct fuel as [|[|[|[|[|fuel]]]]]; simpl in Hle; try lia.
    cbn [upload_loop next_upload]. rewrite bind_eq. cbn [ret].
    unfold after_uploads. destruct ups as [|u ups].
    + destruct (task_title t) as [title|]; [|done].
      rewrite !bind_eq. cbn [getitem ret mret M_ret].
      apply (put_continue t (S (S (S fuel)))).
    + destruct (task_title t) as [name|]; [|done].
      destruct (task_description t) as [description|]; [|done].
      destruct (task_price t) as [regular_price|]; [|done].
      destruct (task_category_id t) as [category_id|]; [|done].
      rewrite !bind_eq. cbn [getitem ret mret M_ret].
      rewrite !bind_eq. cbn [getitem ret mret M_ret].
      rewrite !bind_eq. cbn [getitem ret mret M_ret].
      rewrite !bind_eq. cbn [getitem ret mret M_ret].
      rewrite !bind_eq. cbn [getitem ret mret M_ret].
      rewrite continue_S. cbn [statement]. rewrite !bind_eq.
      destruct (call_create_product _ s) as [[reply|e1] s1]; [|done].
      cbn [mret M_ret ret].
      rewrite <- (count_continue t fuel).
      by destruct (success (set_task t reply)).
  - destruct fuel as [|fuel]; simpl in Hle; [lia|].
    cbn [upload_loop next_upload].
    rewrite !bind_eq. cbn [mret M_ret ret]. rewrite continue_S.
    cbn [statement]. rewrite !bind_eq.
    destruct (call_upload_media image_path s) as [[reply|e1] s1]; [|done].
    rewrite !bind_eq.
    assert (length rest + 5 ≤ fuel)%nat as Hle' by lia.
    destruct reply as [u|err].
    + etrans; [exact (IH fuel (ups ++ [u]) s1 Hle')|].
      rewrite bind_eq.
      by destruct (next_upload t rest _ s1) as [[p|e1] s2].
    + etrans; [exact (IH fuel ups s1 Hle')|].
      rewrite bind_eq.
      by destruct (next_upload t rest _ s1) as [[p|e1] s2].
Qed.

(** The [try] body is its statements in a row. *)
Lemma pipeline_continue t fuel s :
  (length (default [] (task_images t)) + 6 ≤ fuel)%nat →
  pipeline t s = (p ← enter t; continue fuel t p) s.
Proof.
  intros Hle. unfold pipeline, enter.
  destruct (task_images t) as [images|]; [|done]. simpl in Hle.
  apply (uploads_continue t fuel images [] s). lia.
Qed.

Lemma on_exception_framed t e : framed (World := World) (on_exception t e).
Proof.
  intros s. rewrite on_exception_continue.
  destruct (continue_framed t 4
              (AtStatsRead "failed"
                 (failure (default "Unknown" (task_title t)) (str e) t)) s)
    as [Hws Hfr].
  split; [done|]. intros i pc. by rewrite on_exception_continue, Hfr.
Qed.

Lemma except_clause_framed t e : framed (World := World) (except_clause t e).
Proof.
  unfold except_clause. destruct (isinstance e "queue.Empty"); [done|].
  destruct (isinstance e "Exception"); [apply on_exception_framed | done].
Qed.

Lemma framed_try {A} (m : M (state World) A) h :
  framed m → (∀ e, framed (h e)) → framed (try_except m h).
Proof.
  intros Hm Hh s. destruct (Hm s) as [Hws Hfr]. unfold try_except. split.
  - destruct (m s) as [[a|e] s1]; simpl in *; [done|].
    by rewrite (proj1 (Hh e s1)).
  - intros i pc. rewrite Hfr.
    destruct (m s) as [[a|e] s1]; simpl; [done | apply Hh].
Qed.

(** The [try] body with its [except] clauses, run in a row: when a worker
    stands at a point of the [try] body and runs alone, it ends where the
    statements from that point on, caught by the clauses of lines 108-119,
    end. *)
Lemma try_alone i t fuel :
  ∀ p s,
    (statements_left p ≤ fuel)%nat →
    workers s !! i = Some (Running Try t p) →
    ∃ n, run (replicate n (Worker_step i)) s
         = Some (set_worker i
                   (ending (try_except (continue fuel t p)
                                       (except_clause t) s).1)
                   (try_except (continue fuel t p) (except_clause t) s).2).
Proof.
  induction fuel as [|fuel IH]; intros p s Hle Hi.
  { destruct p; simpl in Hle; lia. }
  assert (exec (Worker_step i) s
          = Some (resume i Try t (statement t p s))) as Hex.
  { unfold exec, _process_queue_worker. by rewrite Hi. }
  destruct (statement_framed t p s) as [Hws _].
  cbn [continue]. rewrite try_bind.
  destruct (statement t p s) as [[[p'|]|e] s1] eqn:Hst;
    cbn [resume fst snd] in *.
  - pose proof (statement_decreases t p s p' s1 Hst) as Hlt.
    destruct (IH p' (set_worker i (Running Try t p') s1)) as [n Hrun];
      [lia | apply set_worker_lookup; rewrite Hws; eauto |].
    exists (S n). cbn [replicate run]. rewrite Hex, Hrun.
    rewrite (proj2 (framed_try _ _ (continue_framed t fuel p')
                      (except_clause_framed t) s1)).
    cbn [fst snd]. by rewrite set_worker_twice.
  - exists 1%nat. cbn [replicate run]. by rewrite Hex.
  - unfold except_clauses in Hex. unfold except_clause.
    destruct (isinstance e "queue.Empty").
    { exists 1%nat. cbn [replicate run]. by rewrite Hex. }
    destruct (isinstance e "Exception").
    2: { exists 1%nat. cbn [replicate run]. by rewrite Hex. }
    set (p' := AtStatsRead "failed"
                 (failure (default "Unknown" (task_title t)) (str e) t)) in *.
    destruct (handler_alone i t 4 p'
                (set_worker i (Running Except t p') s1)) as [n Hrun];
      [simpl; lia | apply set_worker_lookup; rewrite Hws; eauto |].
    exists (S n). cbn [replicate run]. rewrite Hex, Hrun.
    rewrite (proj2 (continue_framed t 4 p' s1)). cbn [fst snd].
    by rewrite set_worker_twice, on_exception_continue.
Qed.

(** The clauses of lines 108-119, run in a row from where the exception
    has led the worker. *)
Lemma except_alone i t e s :
  is_Some (workers s !! i) →
  ∃ n, run (replicate n (Worker_step i)) (set_worker i (except_clauses t e) s)
       = Some (set_worker i (ending (except_clause t e s).1)
                          (except_clause t e s).2).
Proof.
  intros Hsome. unfold except_clauses, except_clause.
  destruct (isinstance e "queue.Empty"); [by exists 0%nat|].
  destruct (isinstance e "Exception"); [|by exists 0%nat].
  set (p := AtStatsRead "failed"
              (failure (default "Unknown" (task_title t)) (str e) t)).
  destruct (handler_alone i t 4 p (set_worker i (Running Except t p) s))
    as [n Hrun]; [simpl; lia | by apply set_worker_lookup |].
  exists n. rewrite Hrun.
  rewrite (proj2 (continue_framed t 4 p s)). cbn [fst snd].
  by rewrite set_worker_twice, on_exception_continue.
Qed.

Lemma enter_left t s p s' :
  enter t s = (Return p, s') →
  (statements_left p ≤ length (default [] (task_images t)) + 6)%nat.
Proof.
  unfold enter. destruct (task_images t) as [[|image_path rest]|];
    intros Hp; cbv [getitem mbind M_bind bind ret next_upload] in Hp;
    [|cbv [mret M_ret ret] in Hp; simplify_eq; simpl; lia|done].
  unfold after_uploads in Hp.
  destruct (task_title t);
    cbv [getitem mbind M_bind bind mret M_ret ret] in Hp; simplify_eq.
  simpl. lia.
Qed.

(** X27. [process_task] is the worker left alone. When a worker has taken
    a task from the queue and no other thread and no call of the owner
    comes in between, its steps lead to the state [process_task] leaves,
    with the worker back at the test of its loop when [process_task]
    returns and gone when it raises. *)
Theorem process_task_is_the_worker_alone i t s :
  workers s !! i = Some (InPipeline t) →
  ∃ n, run (replicate n (Worker_step i)) s
       = Some (set_worker i (ending (process_task t s).1)
                          (process_task t s).2).
Proof.
  intros Hi.
  assert (is_Some (workers s !! i)) as Hsome by eauto.
  set (fuel := (length (default [] (task_images t)) + 6)%nat).
  assert (exec (Worker_step i) s
          = Some (resume i Try t ((p ← enter t; mret (Some p)) s))) as Hex.
  { unfold exec, _process_queue_worker. by rewrite Hi. }
  unfold process_task, try_except.
  rewrite (pipeline_continue t fuel s) by done.
  rewrite bind_eq in Hex. rewrite bind_eq.
  destruct (enter_framed t s) as [Hws _].
  destruct (enter t s) as [[p|e] s1] eqn:Hent; cbn [resume fst snd] in *.
  - destruct (try_alone i t fuel p (set_worker i (Running Try t p) s1))
      as [n Hrun];
      [by eapply enter_left | apply set_worker_lookup; rewrite Hws; eauto |].
    exists (S n). cbn [replicate run]. rewrite Hex.
    cbn [mret M_ret ret resume]. rewrite Hrun.
    rewrite (proj2 (framed_try _ _ (continue_framed t fuel p)
                      (except_clause_framed t) s1)).
    cbn [fst snd]. by rewrite set_worker_twice.
  - destruct (except_alone i t e s1) as [n Hrun]; [rewrite Hws; eauto|].
    exists (S n). cbn [replicate run]. by rewrite Hex.
Qed.

(** ** The operations of the owner *)

(** C7. In every reachable state and for every task, [add_to_queue] is
    enabled and returns: the task is appended to the queue and the value
    returned is the depth of the queue, a natural number. *)
Theorem add_to_queue_accepts t s :
  reachable s →
  ∃ s', exec (Call_add_to_queue t) s = Some s'
      ∧ add_to_queue t s = (Return (Queue_qsize (upload_queue s')), s')
      ∧ items (upload_queue s') = items (upload_queue s) ++ [t]
      ∧ Queue_qsize (upload_queue s') = S (Queue_qsize (upload_queue s)).
Proof.
  intros Hreach. destruct (reachable_inv s Hreach) as (Hok & _).
  apply stats_ok_lookup in Hok as (d & c & f & n & Hd & Hc & Hf & Hn).
  eexists. simpl. rewrite (add_to_queue_eq t s d n Hd Hn).
  split; [done|]. simpl. unfold Queue_qsize. simpl.
  rewrite length_app. simpl. rewrite Nat.add_1_r. done.
Qed.

(** C9. [wait_for_completion] does not look at its [timeout]: with any two
    values, of any types, it behaves the same. It returns, leaving the
    state as it is, exactly when [upload_queue] counts no unfinished task,
    and blocks otherwise. *)
Theorem wait_for_completion_ignores_timeout
    {T1 T2 : Type} (t1 : T1) (t2 : T2) s :
  wait_for_completion t1 s = wait_for_completion t2 s
  ∧ (wait_for_completion t1 s = Some s
     ↔ unfinished_tasks (upload_queue s) = 0%nat)
  ∧ (wait_for_completion t1 s = None
     ↔ unfinished_tasks (upload_queue s) ≠ 0%nat).
Proof.
  unfold wait_for_completion, Queue_join_returns.
  split; [done|]. case_bool_decide; split; split; intros; done.
Qed.

(** In a reachable state every task that waits in the queue or is held by
    a worker is counted as unfinished: when the join returns, there is
    none. *)
Lemma wait_for_completion_returns {T} (timeout : T) s :
  reachable s →
  wait_for_completion timeout s = Some s →
  items (upload_queue s) = [] ∧ busy (workers s) = 0%nat.
Proof.
  intros Hreach. destruct (reachable_inv s Hreach) as (_ & Hacc & _).
  unfold accounting in Hacc.
  unfold wait_for_completion, Queue_join_returns.
  case_bool_decide as Hz; [|done]. intros _. rewrite Hz in Hacc.
  split; [|lia].
  destruct (items (upload_queue s)); [done | simpl in Hacc; lia].
Qed.

Lemma mutations_frame l mus : ∀ s,
  l ≠ stats s →
  ∃ h, mutations l mus s = set_heap h s
       ∧ h !! stats s = heap s !! stats s.
Proof.
  unfold mutations.
  induction mus as [|mu mus IH]; intros s Hl; simpl.
  - exists (heap s). by destruct s.
  - unfold dict_mutate at 2. destruct (heap s !! l) as [d|] eqn:Hd; [|auto].
    destruct (IH (set_heap (<[l := mutate mu d]> (heap s)) s) Hl)
      as (h & -> & Hh).
    exists h. split; [done|]. simpl in Hh.
    by rewrite lookup_insert_ne in Hh.
Qed.

(** C10. [get_stats] allocates a new dict with the items of [self.stats]
    and returns it: the state is as before but for that new object, and
    whatever the caller then does to the dict it got, [self.stats] keeps its
    items and the next [get_stats] returns these items again. *)
Theorem get_stats_returns_a_copy s mus :
  reachable s →
  ∃ l d,
    heap s !! stats s = Some d ∧ heap s !! l = None
    ∧ get_stats s = (Return l, set_heap (<[l := d]> (heap s)) s)
    ∧ ∃ h, mutations l mus (get_stats s).2 = set_heap h s
         ∧ h !! stats s = Some d
         ∧ ∃ l2, get_stats (set_heap h s)
                 = (Return l2, set_heap (<[l2 := d]> h) s).
Proof.
  intros Hreach. destruct (reachable_inv s Hreach) as (Hok & _).
  apply stats_ok_lookup in Hok as (d & c & f & n & Hd & _).
  exists (fresh (dom (heap s))), d.
  pose proof (fresh_not_stats s d Hd) as Hne.
  split; [done|]. split.
  { apply not_elem_of_dom. apply is_fresh. }
  rewrite (get_stats_eq s d Hd). split; [done|]. simpl.
  destruct (mutations_frame (fresh (dom (heap s))) mus
              (set_heap (<[fresh (dom (heap s)) := d]> (heap s)) s) Hne)
    as (h & Hmut & Hh).
  simpl in Hh. rewrite lookup_insert_ne in Hh by done.
  exists h. split; [by rewrite Hmut|]. rewrite Hh. split; [done|].
  eexists. rewrite (get_stats_eq (set_heap h s) d); [done|].
  simpl. by rewrite Hh.
Qed.

(** ** The whole manager: what every run keeps *)

Lemma callbacks_app h1 h2 : callbacks (h1 ++ h2) = callbacks h1 ++ callbacks h2.
Proof. apply omap_app. Qed.

(** A property that holds at the start and is kept by every transition
    holds for the whole run. *)
Lemma run_keeps (G : list action → state World → Prop) acts :
  (∀ a s s' done, inv s → G done s → transition a s s' → G (done ++ [a]) s') →
  ∀ s s' done, inv s → G done s → run acts s = Some s' → G (done ++ acts) s'.
Proof.
  intros Hstep. induction acts as [|a acts IH]; intros s s' done Hinv HG Hrun;
    simpl in Hrun.
  - simplify_eq. by rewrite app_nil_r.
  - destruct (exec a s) as [s1|] eqn:Hex; [|done].
    rewrite (cons_middle a), app_assoc.
    apply (IH s1); [by eapply inv_exec | | done].
    apply (Hstep a s); [done..|]. by apply exec_transition.
Qed.

Lemma reachable_keeps (G : state World → Prop) :
  (∀ max_workers w, G (init max_workers w)) →
  (∀ a s s', inv s → G s → transition a s s' → G s') →
  ∀ s, reachable s → G s.
Proof.
  intros Hinit Hstep s (max_workers & w & acts & Hrun).
  apply (run_keeps (λ _, G) acts (λ a s1 s2 _, Hstep a s1 s2)
           (init max_workers w) s []); [apply inv_init | apply Hinit | done].
Qed.

Lemma succeeded_app h1 h2 : succeeded (h1 ++ h2) = succeeded h1 ++ succeeded h2.
Proof. unfold succeeded. by rewrite results_put_app, filter_app. Qed.

Lemma tasks_done_app h1 h2 :
  tasks_done (h1 ++ h2) = tasks_done h1 ++ tasks_done h2.
Proof. unfold tasks_done. by rewrite results_put_app, omap_app. Qed.

Lemma tasks_done_quiet h evs :
  results_put evs = [] → tasks_done (h ++ evs) = tasks_done h.
Proof.
  intros Hr. rewrite tasks_done_app. unfold tasks_done at 2.
  rewrite Hr. apply app_nil_r.
Qed.

Lemma submitted_app acts1 acts2 :
  submitted (acts1 ++ acts2) = submitted acts1 ++ submitted acts2.
Proof. apply omap_app. Qed.

Lemma count_insert (f : worker_pc → bool) ws : ∀ i old new,
  ws !! i = Some old →
  (length (filter (λ pc, f pc = true) (<[i := new]> ws))
   + (if f old then 1 else 0)
   = length (filter (λ pc, f pc = true) ws) + (if f new then 1 else 0))%nat.
Proof.
  induction ws as [|pc ws IH]; intros [|i] old new Hi; simplify_eq/=.
  - rewrite !filter_cons. destruct (f old), (f new);
      repeat case_decide; simpl; try done; lia.
  - rewrite !filter_cons. specialize (IH i old new Hi).
    case_decide; simpl; lia.
Qed.

Lemma bind_insert (f : worker_pc → list task) ws : ∀ i old new,
  ws !! i = Some old →
  (<[i := new]> ws ≫= f) ++ f old ≡ₚ (ws ≫= f) ++ f new.
Proof.
  induction ws as [|pc ws IH]; intros [|i] old new Hi; simplify_eq/=.
  - solve_Permutation.
  - rewrite <- !app_assoc. by rewrite (IH i old new Hi).
Qed.

Lemma in_flight_insert ws i old new :
  ws !! i = Some old →
  in_flight (<[i := new]> ws) ++ task_of old ≡ₚ in_flight ws ++ task_of new.
Proof. apply bind_insert. Qed.

Lemma unanswered_insert ws i old new :
  ws !! i = Some old →
  unanswered (<[i := new]> ws) ++ unanswered_task old
    ≡ₚ unanswered ws ++ unanswered_task new.
Proof. apply bind_insert. Qed.

Lemma unanswered_same ws i old new :
  ws !! i = Some old →
  unanswered_task new = unanswered_task old →
  unanswered (<[i := new]> ws) ≡ₚ unanswered ws.
Proof.
  intros Hi Heq. pose proof (unanswered_insert ws i old new Hi) as Hp.
  rewrite Heq in Hp. by apply (inj (.++ unanswered_task old)) in Hp.
Qed.

Lemma in_flight_init n : in_flight (replicate n AtLoopHead) = [].
Proof. unfold in_flight. induction n as [|n IH]; [done|]. simpl. apply IH. Qed.

Lemma unanswered_init n : unanswered (replicate n AtLoopHead) = [].
Proof. unfold unanswered. induction n as [|n IH]; [done|]. simpl. apply IH. Qed.

Lemma in_flight_length ws : length (in_flight ws) = busy ws.
Proof.
  unfold in_flight, busy. induction ws as [|pc ws IH]; [done|].
  rewrite bind_cons, length_app, filter_cons, IH.
  destruct pc; case_decide; simpl; try done; lia.
Qed.

Lemma unanswered_length ws : (length (unanswered ws) ≤ busy ws)%nat.
Proof.
  unfold unanswered, busy. induction ws as [|pc ws IH]; [done|].
  rewrite bind_cons, length_app, filter_cons.
  destruct pc as [| | |c t []| |]; case_decide; simpl; try done; lia.
Qed.

(** ** Shutdown *)

Lemma unanswered_not_parked pc t : unanswered_task pc = [t] → parked pc = false.
Proof. by destruct pc. Qed.

Lemma parked_step a s s' :
  running s = false →
  Forall (λ pc, parked pc = true) (workers s) →
  transition a s s' →
  running s' = false
  ∧ Forall (λ pc, parked pc = true) (workers s')
  ∧ results_put (history s') = results_put (history s)
  ∧ items (upload_queue s) `prefix_of` items (upload_queue s').
Proof.
  intros Hrun Hpark Htr.
  assert (∀ i pc, workers s !! i = Some pc → parked pc = true) as Hp.
  { intros i pc Hi. apply (Forall_lookup_1 _ _ _ _ Hpark Hi). }
  transitions Htr; simpl; try done.
  - repeat split; try done. by apply prefix_app_r.
  - rewrite Hrun. repeat split; try done. by apply Forall_insert.
  - by specialize (Hp _ _ Hi).
  - by specialize (Hp _ _ Hi).
  - specialize (Hp _ _ Hi). by rewrite (unanswered_not_parked _ _ Hu) in Hp.
  - specialize (Hp _ _ Hi). by rewrite (unanswered_not_parked _ _ Hu) in Hp.
  - by specialize (Hp _ _ Hi).
  - by specialize (Hp _ _ Hi).
  - by rewrite results_put_app, app_nil_r.
Qed.

Lemma parked_run acts : ∀ s s',
  inv s → running s = false →
  Forall (λ pc, parked pc = true) (workers s) →
  run acts s = Some s' →
  Forall (λ pc, parked pc = true) (workers s')
  ∧ results_put (history s') = results_put (history s)
  ∧ items (upload_queue s) `prefix_of` items (upload_queue s').
Proof.
  induction acts as [|a acts IH]; intros s s' Hinv Hrun Hpark Hacts;
    simpl in Hacts.
  - by simplify_eq.
  - destruct (exec a s) as [s1|] eqn:Hex; [|done].
    destruct (parked_step a s s1 Hrun Hpark (exec_transition a s s1 Hinv Hex))
      as (Hr1 & Hp1 & Hres & Hpre).
    destruct (IH s1 s' (inv_exec a s s1 Hinv Hex) Hr1 Hp1 Hacts)
      as (Hp' & Hres' & Hpre').
    split; [done|]. split; [congruence|]. by etrans.
Qed.

(** C6 (amended). When [stop] is called in a reachable state where every
    worker is at the test of its loop or has ended (none inside [get], none
    in its pipeline), then whatever happens afterwards the tasks that were
    in the queue stay at its head, in order, no result is put any more, and
    no worker ever enters its pipeline. *)
Theorem parked_workers_abandon_the_queue s acts s' :
  reachable s →
  Forall (λ pc, parked pc = true) (workers s) →
  run acts (stop s).2 = Some s' →
  items (upload_queue s) `prefix_of` items (upload_queue s')
  ∧ results_put (history s') = results_put (history s)
  ∧ Forall (λ pc, in_pipeline pc = false) (workers s').
Proof.
  intros Hreach Hpark Hacts.
  pose proof (reachable_inv s Hreach) as Hinv.
  assert (inv (stop s).2) as Hinv' by (by apply (inv_exec Call_stop s)).
  destruct (parked_run acts (stop s).2 s' Hinv' eq_refl Hpark Hacts)
    as (Hp & Hres & Hpre).
  split; [done|]. split; [done|].
  eapply Forall_impl; [exact Hp|]. by intros [].
Qed.

(** Without the premise on the workers: after [stop], a worker that was
    inside [get] can still take one task, and no more than that. *)
Lemma after_stop_quiet s s' :
  items (upload_queue s') = items (upload_queue s) →
  results_put (history s') = results_put (history s) →
  (waiting (workers s') ≤ waiting (workers s))%nat →
  (waiting (workers s') + length (unanswered (workers s'))
   ≤ waiting (workers s) + length (unanswered (workers s)))%nat →
  after_stop s s'.
Proof.
  intros Hi Hr Hw Hb. exists 0%nat, []. rewrite app_nil_r, Hi, Hr. simpl.
  repeat split; lia.
Qed.

Lemma after_stop_trans s1 s2 s3 :
  after_stop s1 s2 → after_stop s2 s3 → after_stop s1 s3.
Proof.
  intros (k1 & l1 & Hk1 & Hi1 & Hw1 & Hr1) (k2 & l2 & Hk2 & Hi2 & Hw2 & Hr2).
  exists (k1 + k2)%nat, (l1 ++ l2). rewrite Hi1 in Hk2, Hi2.
  rewrite !length_app, length_drop, length_app in Hk2.
  rewrite !length_app in Hk1. split; [rewrite !length_app; lia|].
  split; [|lia]. rewrite Hi2, app_assoc, <- drop_drop.
  by rewrite (drop_app_le (_ ++ l1)) by (rewrite length_app; lia).
Qed.

Lemma stopped_step a s s' :
  running s = false → transition a s s' →
  running s' = false ∧ after_stop s s'.
Proof.
  intros Hrun Htr.
  transitions Htr; simpl; (split; [done|]);
    try (by apply after_stop_quiet).
  - exists 0%nat, [t]. simpl. repeat split; lia.
  - rewrite Hrun.
    pose proof (count_insert in_get _ _ _ Exited Hi) as Hw.
    pose proof (unanswered_same _ _ _ Exited Hi eq_refl) as Hb.
    apply Permutation_length in Hb.
    simpl in Hw. apply after_stop_quiet; simpl; unfold waiting; try done; lia.
  - pose proof (count_insert in_get _ _ _ AtLoopHead Hi) as Hw.
    pose proof (unanswered_same _ _ _ AtLoopHead Hi eq_refl) as Hb.
    apply Permutation_length in Hb.
    simpl in Hw. apply after_stop_quiet; simpl; unfold waiting; try done; lia.
  - pose proof (count_insert in_get _ _ _ (InPipeline t) Hi) as Hw.
    pose proof (unanswered_insert _ _ _ (InPipeline t) Hi) as Hb.
    apply Permutation_length in Hb. rewrite !length_app in Hb.
    simpl in Hw, Hb.
    exists 1%nat, []. rewrite app_nil_r, Hq. simpl. rewrite drop_0.
    unfold waiting. repeat split; lia.
  - assert (in_get pc = false ∧ in_get pc' = false) as [Hg Hg']
      by (by destruct pc, pc').
    pose proof (count_insert in_get _ _ _ pc' Hi) as Hw.
    rewrite Hg, Hg' in Hw.
    pose proof (unanswered_same _ _ _ pc' Hi) as Hb.
    rewrite Hu, Hu' in Hb. specialize (Hb eq_refl).
    apply Permutation_length in Hb.
    apply after_stop_quiet; simpl; unfold waiting;
      rewrite ?results_put_app, ?Hr, ?app_nil_r; try done; lia.
  - set (pc' := if isinstance e "queue.Empty" then AtLoopHead else Crashed e).
    assert (in_get pc = false ∧ in_get pc' = false
            ∧ unanswered_task pc' = []) as (Hg & Hg' & Hn)
      by (unfold pc'; by destruct pc, (isinstance e "queue.Empty")).
    pose proof (count_insert in_get _ _ _ pc' Hi) as Hw.
    rewrite Hg, Hg' in Hw.
    pose proof (unanswered_insert _ _ _ pc' Hi) as Hb.
    apply Permutation_length in Hb. rewrite !length_app, Hu, Hn in Hb.
    simpl in Hb.
    apply after_stop_quiet; simpl; unfold waiting;
      rewrite ?results_put_app, ?Hr, ?app_nil_r; try done; lia.
  - pose proof (count_insert in_get _ _ _ (Running c t AtTaskDone) Hi) as Hw.
    pose proof (unanswered_insert _ _ _ (Running c t AtTaskDone) Hi) as Hb.
    apply Permutation_length in Hb. rewrite !length_app in Hb.
    simpl in Hw, Hb.
    exists 0%nat, []. rewrite app_nil_r. simpl.
    rewrite results_put_app, length_app. simpl.
    unfold waiting. repeat split; lia.
  - pose proof (count_insert in_get _ _ _ AtLoopHead Hi) as Hw.
    pose proof (unanswered_same _ _ _ AtLoopHead Hi eq_refl) as Hb.
    apply Permutation_length in Hb.
    simpl in Hw. apply after_stop_quiet; simpl; unfold waiting; try done; lia.
  - apply after_stop_quiet; simpl;
      rewrite ?results_put_app, ?app_nil_r; done.
Qed.

Lemma stopped_run acts : ∀ s s',
  inv s → running s = false → run acts s = Some s' → after_stop s s'.
Proof.
  induction acts as [|a acts IH]; intros s s' Hinv Hrun Hacts;
    simpl in Hacts.
  - simplify_eq. by apply after_stop_quiet.
  - destruct (exec a s) as [s1|] eqn:Hex; [|done].
    destruct (stopped_step a s s1 Hrun (exec_transition a s s1 Hinv Hex))
      as [Hrun1 H1].
    eapply after_stop_trans; [exact H1|].
    apply IH; [by eapply inv_exec | done | done].
Qed.

(** After [stop] in a reachable state, at most as many tasks leave the
    queue as there were workers inside [get], and at most as many results
    are put as there were workers inside [get] or holding a task they had
    not yet answered. *)
Lemma stop_bounds_late_work s acts s' :
  reachable s → run acts (stop s).2 = Some s' →
  ∃ k later,
    items (upload_queue s') = drop k (items (upload_queue s) ++ later)
    ∧ (k ≤ waiting (workers s))%nat
    ∧ (length (results_put (history s'))
       ≤ length (results_put (history s))
         + waiting (workers s) + length (unanswered (workers s)))%nat.
Proof.
  intros Hreach Hacts. pose proof (reachable_inv s Hreach) as Hinv.
  assert (inv (stop s).2) as Hinv' by (by apply (inv_exec Call_stop s)).
  destruct (stopped_run acts (stop s).2 s' Hinv' eq_refl Hacts)
    as (k & later & _ & Hi & Hw & Hr).
  exists k, later. simpl in *. repeat split; [done|lia|lia].
Qed.

(** *** Results are delivered in the order they were put *)



(** *** Every submitted task is somewhere *)

Lemma conservation_kept a s s' done :
  (∃ dropped, conserved done s dropped) →
  transition a s s' →
  ∃ dropped, conserved (done ++ [a]) s' dropped.
Proof.
  intros (dropped & HG & Hcount & HH) Htr. unfold conserved.
  setoid_rewrite submitted_app.
  transitions Htr; rewrite ?Hsub; simpl;
    try (exists dropped; rewrite ?app_nil_r; by split).
  - exists dropped. split; [|split; [|done]].
    + rewrite <- HG. solve_Permutation.
    + rewrite length_app. simpl. lia.
  - exists dropped. rewrite app_nil_r. split; [|split; [|done]].
    + by rewrite (unanswered_same _ _ AtLoopHead) by by destruct (running s).
    + pose proof (busy_insert _ _ _ (if running s then InGet else Exited) Hi)
        as Hb. destruct (running s); simpl in Hb; lia.
  - exists dropped. rewrite app_nil_r. split; [|split; [|done]].
    + by rewrite (unanswered_same _ _ InGet).
    + pose proof (busy_insert _ _ _ AtLoopHead Hi) as Hb. simpl in Hb. lia.
  - exists dropped. rewrite app_nil_r. split; [|split; [|done]].
    + pose proof (unanswered_insert _ _ _ (InPipeline t) Hi) as Hp.
      simpl in Hp. rewrite app_nil_r in Hp.
      rewrite Hp, <- HG, Hq. solve_Permutation.
    + pose proof (busy_insert _ _ _ (InPipeline t) Hi) as Hb. simpl in Hb.
      rewrite Hq in Hcount. simpl in *. lia.
  - exists dropped. rewrite app_nil_r. split; [|split; [|done]].
    + rewrite (tasks_done_quiet _ _ Hr).
      by rewrite (unanswered_same _ _ pc pc' Hi) by (by rewrite Hu, Hu').
    + pose proof (busy_insert _ _ _ pc' Hi) as Hb.
      rewrite (unanswered_in_pipeline _ _ Hu) in Hb.
      rewrite (unanswered_in_pipeline _ _ Hu') in Hb. lia.
  - set (pc' := if isinstance e "queue.Empty" then AtLoopHead else Crashed e).
    assert (unanswered_task pc' = [] ∧ in_pipeline pc' = false) as [Hnone Hb']
      by (unfold pc'; by destruct (isinstance e "queue.Empty")).
    exists (t :: dropped). rewrite app_nil_r. split; [|split].
    + rewrite (tasks_done_quiet _ _ Hr).
      pose proof (unanswered_insert _ _ _ pc' Hi) as Hp.
      rewrite Hu, Hnone, app_nil_r in Hp. rewrite <- HG, <- Hp.
      solve_Permutation.
    + pose proof (busy_insert _ _ _ pc' Hi) as Hb.
      rewrite (unanswered_in_pipeline _ _ Hu), Hb' in Hb. simpl. lia.
    + intros Honly. specialize (Honly e He). congruence.
  - exists dropped. rewrite app_nil_r. split; [|split; [|done]].
    + rewrite tasks_done_app. unfold tasks_done at 2. simpl. rewrite Ht.
      simpl.
      pose proof (unanswered_insert _ _ _ (Running c t AtTaskDone) Hi) as Hp.
      simpl in Hp. rewrite app_nil_r in Hp. rewrite <- HG, <- Hp.
      solve_Permutation.
    + pose proof (busy_insert _ _ _ (Running c t AtTaskDone) Hi) as Hb.
      simpl in Hb. lia.
  - exists dropped. rewrite app_nil_r. split; [|split; [|done]].
    + by rewrite (unanswered_same _ _ (Running c t AtTaskDone)).
    + pose proof (busy_insert _ _ _ AtLoopHead Hi) as Hb. simpl in Hb. lia.
  - exists dropped. rewrite app_nil_r. split; [|by split].
    by rewrite tasks_done_app, app_nil_r.
Qed.

Lemma conservation acts max_workers (w : World) s :
  run acts (init max_workers w) = Some s →
  ∃ dropped, conserved acts s dropped.
Proof.
  intros Hrun.
  apply (run_keeps (λ done s, ∃ dropped, conserved done s dropped)
           acts (λ a s1 s2 done _ HG, conservation_kept a s1 s2 done HG)
           (init max_workers w) s []); [apply inv_init | | done].
  exists []. unfold conserved. simpl. rewrite unanswered_init.
  split; [done|]. split; [|done].
  unfold busy. clear. induction max_workers as [|m IH]; [done|].
  simpl. rewrite filter_cons. by case_decide.
Qed.

Lemma results_counted s :
  reachable s →
  length (tasks_done (history s)) = length (results_put (history s)).
Proof.
  revert s. apply reachable_keeps; [done|].
  intros a s s' _ HG Htr. unfold tasks_done in *.
  transitions Htr; simpl; try done.
  - by rewrite results_put_app, Hr, app_nil_r.
  - by rewrite results_put_app, Hr, app_nil_r.
  - rewrite results_put_app, omap_app, !length_app. simpl.
    rewrite Ht. simpl. lia.
  - by rewrite results_put_app, app_nil_r.
Qed.

(** X2. In every run each submitted task is in exactly one place: it has a
    result, or a worker holds it and has not yet put its result, or it
    waits in the queue, or an exception that escaped the handler has
    dropped it. A dropped task stays counted as unfinished. When the
    capabilities raise only exceptions that the handler catches, no task is
    dropped. *)
Theorem tasks_conserved acts max_workers (w : World) s :
  run acts (init max_workers w) = Some s →
  ∃ dropped,
    tasks_done (history s) ++ unanswered (workers s)
      ++ items (upload_queue s) ++ dropped ≡ₚ submitted acts
    ∧ unfinished_tasks (upload_queue s)
      = (length (items (upload_queue s)) + busy (workers s)
         + length dropped)%nat
    ∧ (raise_only caught → dropped = []).
Proof. apply conservation. Qed.

(** X3. When [wait_for_completion] returns, the queue is empty, no worker
    holds a task, and the results put are one for each task submitted. *)
Theorem wait_for_completion_all_done
    {T : Type} (timeout : T) acts max_workers (w : World) s :
  run acts (init max_workers w) = Some s →
  wait_for_completion timeout s = Some s →
  items (upload_queue s) = [] ∧ in_flight (workers s) = []
  ∧ tasks_done (history s) ≡ₚ submitted acts
  ∧ length (results_put (history s)) = length (submitted acts).
Proof.
  intros Hrun Hwait.
  assert (reachable s) as Hreach by (by exists max_workers, w, acts).
  apply (wait_for_completion_returns timeout s Hreach) in Hwait as Hjoin.
  destruct Hjoin as [Hq Hb].
  destruct (conservation acts max_workers w s Hrun) as (dropped & Hc & Hn & _).
  unfold wait_for_completion, Queue_join_returns in Hwait.
  case_bool_decide as Hz; [|done].
  assert (dropped = []) as -> by (apply length_zero_iff_nil; lia).
  assert (in_flight (workers s) = []) as Hf.
  { apply length_zero_iff_nil. by rewrite in_flight_length. }
  assert (unanswered (workers s) = []) as Hu.
  { apply length_zero_iff_nil. pose proof (unanswered_length (workers s)).
    lia. }
  rewrite Hq, Hu, !app_nil_r in Hc. repeat split; try done.
  by rewrite <- Hc, results_counted.
Qed.

(** X4. With a single worker and capabilities that raise only exceptions
    the handler catches, the order is kept as well: the tasks of the
    results put, then the task the worker holds without having put its
    result, then the queue, are the submitted tasks in the order of their
    submission. *)
Theorem single_worker_is_fifo acts (w : World) s :
  raise_only caught →
  run acts (init 1 w) = Some s →
  tasks_done (history s) ++ unanswered (workers s) ++ items (upload_queue s)
  = submitted acts.
Proof.
  intros Honly Hrun.
  enough (length (workers s) = 1%nat
          ∧ tasks_done (history s) ++ unanswered (workers s)
            ++ items (upload_queue s) = submitted acts) as [_ ?] by done.
  apply (run_keeps
           (λ done s, length (workers s) = 1%nat
                      ∧ tasks_done (history s) ++ unanswered (workers s)
                        ++ items (upload_queue s) = submitted done)
           acts) with (s := init 1 w) (done := []);
    [|apply inv_init|done|done].
  clear -Honly. intros a s s' done _ [Hlen HG] Htr. rewrite submitted_app.
  assert (∀ i pc, workers s !! i = Some pc → i = 0%nat ∧ workers s = [pc])
    as Hone.
  { intros i pc Hi. destruct (workers s) as [|pc0 [|??]]; simplify_eq/=.
    by destruct i; simplify_eq/=. }
  transitions Htr; rewrite ?Hsub; simpl; rewrite ?length_insert, ?app_nil_r;
    (split; [done|]); try done.
  - rewrite <- HG. by rewrite !app_assoc.
  - destruct (Hone _ _ Hi) as [-> Hw]. rewrite Hw in *.
    by destruct (running s).
  - destruct (Hone _ _ Hi) as [-> Hw]. by rewrite Hw in *.
  - destruct (Hone _ _ Hi) as [-> Hw]. rewrite Hw in *. simpl in *.
    by rewrite Hq in HG.
  - destruct (Hone _ _ Hi) as [-> Hw]. rewrite Hw in *.
    rewrite (tasks_done_quiet _ _ Hr). unfold unanswered in *. simpl in *.
    by rewrite Hu' , <- Hu.
  - specialize (Honly e He). congruence.
  - destruct (Hone _ _ Hi) as [-> Hw]. rewrite Hw in *.
    rewrite tasks_done_app. unfold tasks_done at 2. simpl. rewrite Ht.
    simpl in *. by rewrite <- app_assoc.
  - destruct (Hone _ _ Hi) as [-> Hw]. by rewrite Hw in *.
  - by rewrite tasks_done_app, app_nil_r.
Qed.

(** *** What the counters count *)



(** *** The counters and the results *)

Lemma counter_of_key r : counter_of r ∈ ["completed"; "failed"].
Proof. unfold counter_of. destruct (success r); repeat constructor. Qed.

Lemma countable_insert k s s' i pc pc' :
  workers s !! i = Some pc → workers s' = <[i := pc']> (workers s) →
  results_put (history s') = results_put (history s) →
  (countable k s' + (if holds_result k pc then 1 else 0)
   = countable k s + (if holds_result k pc' then 1 else 0))%nat.
Proof.
  intros Hi Hws Hres. unfold countable. rewrite Hws, Hres.
  pose proof (count_insert (holds_result k) (workers s) i pc pc' Hi). lia.
Qed.

(** A step of worker [i] keeps the bound when the results that can have
    been counted are no fewer, the counters are within the bound again, and
    the worker knows of the counter what it must. *)
Lemma bounded_step s s' i pc' :
  bounded s → workers s' = <[i := pc']> (workers s) →
  (∀ k, (countable k s ≤ countable k s')%nat) →
  (∀ k, k ∈ ["completed"; "failed"] →
        ∃ v, counter k s' = Some v ∧ 0 ≤ v ≤ Z.of_nat (countable k s')) →
  counts_ok s' pc' →
  bounded s'.
Proof.
  intros [Hc Hws] Hws' Hmono Hc' Hnew. split; [done|].
  rewrite Hws'. apply Forall_insert; [|done].
  eapply Forall_impl; [done|]. intros [| |t|c t p| |e]; simpl; try done.
  destruct p; try done. intros [-> Hv]. split; [done|].
  specialize (Hmono (counter_of r)). lia.
Qed.

(** A step that puts no result and stores no counter. *)
Lemma bounded_move s s' i pc pc' :
  bounded s → workers s !! i = Some pc →
  workers s' = <[i := pc']> (workers s) →
  results_put (history s') = results_put (history s) →
  (∀ k, counter k s' = counter k s) →
  (∀ k, holds_result k pc = false) →
  settled pc' ∨ (∃ c t k v r, pc' = Running c t (AtStatsWrite k v r)
                              ∧ k = counter_of r ∧ counter k s = Some v) →
  bounded s'.
Proof.
  intros Hb Hi Hws' Hres Hcnt Hold Hnew. pose proof Hb as [Hc Hws].
  assert (∀ k, (countable k s ≤ countable k s')%nat) as Hmono.
  { intros k. pose proof (countable_insert k s s' i pc pc' Hi Hws' Hres) as H.
    rewrite Hold in H. destruct (holds_result k pc'); lia. }
  apply (bounded_step s s' i pc'); try done.
  - intros k Hk. destruct (Hc k Hk) as (v & Hv & Hle). exists v.
    rewrite Hcnt. split; [done|]. specialize (Hmono k). lia.
  - destruct Hnew as [Hnew|(c & t & k & v & r & -> & -> & Hv)].
    + destruct pc' as [| |t|c t p| |e]; try done. by destruct p.
    + simpl. split; [done|].
      destruct (Hc (counter_of r) (counter_of_key r)) as (v' & Hv' & Hle).
      simplify_eq. specialize (Hmono (counter_of r)). lia.
Qed.

(** A step of the owner or of the results thread. *)
Lemma bounded_same s s' :
  bounded s → workers s' = workers s →
  results_put (history s') = results_put (history s) →
  (∀ k, k ∈ ["completed"; "failed"] → counter k s' = counter k s) →
  bounded s'.
Proof.
  intros [Hc Hws] Hws' Hres Hcnt.
  assert (∀ k, countable k s' = countable k s) as Heq.
  { intros k. unfold countable. by rewrite Hws', Hres. }
  split.
  - intros k Hk. rewrite Heq, Hcnt by done. by apply Hc.
  - rewrite Hws'. eapply Forall_impl; [done|].
    intros [| |t|c t p| |e]; simpl; try done.
    destruct p; try done. by rewrite Heq.
Qed.

Lemma after_uploads_settled c t ups s p s' :
  after_uploads t ups s = (Return p, s') → settled (Running c t p).
Proof.
  unfold after_uploads. destruct ups as [|u ups].
  - destruct (task_title t); intros Hp;
      cbv [getitem mbind M_bind bind mret M_ret ret] in Hp; by simplify_eq.
  - destruct (task_title t), (task_description t), (task_price t),
      (task_category_id t); intros Hp;
      cbv [getitem mbind M_bind bind mret M_ret ret] in Hp; by simplify_eq.
Qed.

Lemma next_upload_settled c t images ups s p s' :
  next_upload t images ups s = (Return p, s') → settled (Running c t p).
Proof.
  destruct images as [|image_path rest]; [apply after_uploads_settled|].
  intros Hp. cbv [next_upload mret M_ret ret] in Hp. by simplify_eq.
Qed.

Lemma enter_settled c t s p s' :
  enter t s = (Return p, s') → settled (Running c t p).
Proof.
  unfold enter. destruct (task_images t) as [images|]; intros Hp;
    cbv [getitem mbind M_bind bind ret] in Hp; [|done].
  exact (next_upload_settled c t _ _ _ _ _ Hp).
Qed.

Lemma except_clauses_settled t e : settled (except_clauses t e).
Proof.
  unfold except_clauses. destruct (isinstance e "queue.Empty"); [done|].
  by destruct (isinstance e "Exception").
Qed.

(** The statements of the [try] body before the counters. *)
Lemma statement_settled c t p s p' s' :
  match p with AtUpload _ _ _ | AtCreate _ => True | _ => False end →
  statement t p s = (Return (Some p'), s') → settled (Running c t p').
Proof.
  destruct p as [image_path rest ups|pd| | | |]; try done; intros _; simpl;
    rewrite bind_eq.
  - destruct (call_upload_media image_path s) as [[reply|e] s1]; [|done].
    rewrite bind_eq.
    destruct (next_upload t rest _ s1) as [[p1|e] s2] eqn:Hnext; [|done].
    intros Hp. cbv [mret M_ret ret] in Hp. simplify_eq.
    exact (next_upload_settled c t _ _ _ _ _ Hnext).
  - destruct (call_create_product pd s) as [[reply|e] s1]; [|done].
    intros Hp. cbv [mret M_ret ret] in Hp. by simplify_eq.
Qed.

Lemma resume_settled i c t p s s' :
  match p with AtUpload _ _ _ | AtCreate _ => True | _ => False end →
  resume i c t (statement t p s) = s' →
  ∃ pc' s1, s' = set_worker i pc' s1 ∧ (statement t p s).2 = s1
            ∧ settled pc'.
Proof.
  intros Hp Hres. destruct (statement t p s) as [[[p'|]|e] s1] eqn:Hst;
    simpl in Hres; subst s'; eexists _, s1; (split; [done|]);
    (split; [done|]).
  - by eapply statement_settled.
  - done.
  - destruct c; [apply except_clauses_settled | done].
Qed.

Lemma filter_counter_of k (l : list result) r :
  length (filter (λ r, counter_of r = k) (l ++ [r]))
  = (length (filter (λ r, counter_of r = k) l)
     + (if bool_decide (counter_of r = k) then 1 else 0))%nat.
Proof.
  rewrite filter_app, length_app, filter_cons, filter_nil.
  case_decide; by case_bool_decide.
Qed.

Lemma bounded_exec a s s' : inv s → bounded s → exec a s = Some s' → bounded s'.
Proof.
  intros Hinv Hb Hex.
  assert (∀ i, a = Worker_step i → bounded s') as Hworker.
  { intros i ->. pose proof Hex as Hex'. simpl in Hex.
    unfold _process_queue_worker in Hex.
    destruct (workers s !! i) as [[| |t|c t p| |e]|] eqn:Hi; try done.
    - simplify_eq. eapply (bounded_move s _ i AtLoopHead _ Hb Hi); try done.
      left. by destruct (running s).
    - destruct (Queue_get (upload_queue s)) as [[t q]|]; simplify_eq.
      + eapply (bounded_move s _ i InGet _ Hb Hi); try done. by left.
      + eapply (bounded_move s _ i InGet _ Hb Hi); try done. by left.
    - simplify_eq. rewrite bind_eq.
      destruct (enter t s) as [[p|e] s1] eqn:Hent; simpl.
      + assert (s1 = s) as ->.
        { destruct (enter_cases t s) as [(p0 & Heq & _)|[k Heq]];
            rewrite Heq in Hent; by simplify_eq. }
        eapply (bounded_move s _ i (InPipeline t) _ Hb Hi); try done.
        left. exact (enter_settled Try t _ _ _ Hent).
      + assert (s1 = s) as ->.
        { destruct (enter_cases t s) as [(p0 & Heq & _)|[k Heq]];
            rewrite Heq in Hent; by simplify_eq. }
        eapply (bounded_move s _ i (InPipeline t) _ Hb Hi); try done.
        left. apply except_clauses_settled.
    - destruct p as [image_path rest ups|pd|k r|k v r|r|].
      + simplify_eq.
        destruct (resume_settled i c t (AtUpload image_path rest ups) s _
                    I eq_refl) as (pc' & s1 & -> & Hs1 & Hset).
        destruct (upload_cases t image_path rest ups s)
          as [w [(p' & Heq & _)|(e & Heq & _)]]; rewrite Heq in Hs1;
          simpl in Hs1; subst s1;
          (eapply (bounded_move s _ i _ _ Hb Hi); try done;
           [simpl; by rewrite results_put_app, app_nil_r | by left]).
      + simplify_eq.
        destruct (resume_settled i c t (AtCreate pd) s _ I eq_refl)
          as (pc' & s1 & -> & Hs1 & Hset).
        destruct (create_cases t pd s)
          as [w [(p' & Heq & _)|(e & Heq & _)]]; rewrite Heq in Hs1;
          simpl in Hs1; subst s1;
          (eapply (bounded_move s _ i _ _ Hb Hi); try done;
           [simpl; by rewrite results_put_app, app_nil_r | by left]).
      + pose proof (Forall_lookup_1 _ _ _ _ (proj2 Hb) Hi) as Hk.
        simpl in Hk. subst k.
        destruct (step_read i c t (counter_of r) r s (proj1 Hinv) Hi
                    (counter_of_key r)) as (v & Hv & Hex1).
        rewrite Hex1 in Hex'. simplify_eq.
        eapply (bounded_move s _ i _ _ Hb Hi); try done.
        right. by exists c, t, (counter_of r), v, r.
      + pose proof (Forall_lookup_1 _ _ _ _ (proj2 Hb) Hi) as [Hk Hv].
        simpl in Hk. subst k.
        destruct (step_store i c t (counter_of r) v r s (proj1 Hinv) Hi)
          as (d & Hd & Hex1).
        rewrite Hex1 in Hex'. simplify_eq.
        match goal with |- bounded ?x => set (s2 := x) end.
        assert (∀ k,
                  countable k s2
                  = (countable k s
                     + (if bool_decide (counter_of r = k) then 1 else 0))%nat)
          as Hcount.
        { intros k.
          pose proof (countable_insert k s s2 i _ (Running c t (AtPut r))
                        Hi eq_refl eq_refl) as H.
          simpl in H. lia. }
        apply (bounded_step s _ i (Running c t (AtPut r)) Hb); try done.
        * intros k. rewrite Hcount. lia.
        * intros k Hk. rewrite Hcount. unfold counter. simpl.
          rewrite lookup_insert_eq. simpl.
          destruct (decide (counter_of r = k)) as [<-|Hne].
          -- rewrite lookup_insert_eq. eexists. split; [done|].
             rewrite bool_decide_eq_true_2 by done. lia.
          -- rewrite lookup_insert_ne by done.
             destruct (proj1 Hb k Hk) as (v' & Hv' & Hle).
             exists v'. unfold counter in Hv'. rewrite Hd in Hv'.
             split; [done|]. lia.
      + rewrite (step_put i c t r s Hi) in Hex'. simplify_eq.
        match goal with |- bounded ?x => set (s2 := x) end.
        assert (∀ k, countable k s2 = countable k s) as Hcount.
        { intros k. unfold countable, s2. simpl.
          rewrite results_put_app. simpl.
          rewrite filter_counter_of.
          pose proof (count_insert (holds_result k) (workers s) i _
                        (Running c t AtTaskDone) Hi) as H.
          simpl in H. lia. }
        apply (bounded_step s _ i (Running c t AtTaskDone) Hb); try done.
        * intros k. by rewrite Hcount.
        * intros k Hk. rewrite Hcount. by apply Hb.
      + destruct (step_task_done i c t s) as (m & Hm & Hex1);
          [apply Hinv | done |].
        rewrite Hex1 in Hex'. simplify_eq.
        eapply (bounded_move s _ i _ _ Hb Hi); try done. by left. }
  apply exec_transition in Hex as Htr; [|done]. clear Hex.
  transitions Htr; try (by apply (Hworker _ eq_refl));
    apply (bounded_same _ _ Hb); try done.
  - intros k Hk. unfold counter. simpl. rewrite lookup_insert_eq, Hd. simpl.
    apply lookup_insert_ne.
    intros <-. repeat (apply elem_of_cons in Hk as [?|Hk]; [done|]).
    by apply elem_of_nil in Hk.
  - intros k Hk. unfold counter. simpl. by rewrite Hh.
  - simpl. by rewrite results_put_app, app_nil_r.
Qed.

Lemma bounded_init max_workers (w : World) : bounded (init max_workers w).
Proof.
  split.
  - intros k Hk. unfold countable. simpl.
    repeat (apply elem_of_cons in Hk as [->|Hk]);
      [eexists; split; [by vm_compute|]; lia..|].
    by apply elem_of_nil in Hk.
  - simpl. by apply Forall_replicate.
Qed.

Lemma reachable_bounded s : reachable s → bounded s.
Proof.
  intros (max_workers & w & acts & Hrun).
  assert (∀ s0, inv s0 → bounded s0 → run acts s0 = Some s → bounded s)
    as Hall.
  { clear Hrun. induction acts as [|a acts IH]; intros s0 Hinv Hb Hrun;
      simpl in Hrun; [by simplify_eq|].
    destruct (exec a s0) as [s1|] eqn:Hex; [|done].
    apply (IH s1); [by eapply inv_exec | by eapply bounded_exec | done]. }
  apply (Hall (init max_workers w)); [apply inv_init | apply bounded_init | done].
Qed.

(** X6. The counters never count a result that is not there. In every
    reachable state [completed] is at least 0 and at most the number of
    successful results put plus the number of workers that hold a
    successful result between the store of the counter (line 97) and the
    [put] (line 102); [failed] is at least 0 and at most the number of
    failures put plus the number of workers that hold a failure they are
    about to put. (Either counter can be smaller: an update can be lost,
    and the failure of lines 62-70 is not counted.) *)
Theorem counters_do_not_overcount s :
  reachable s →
  ∃ c f,
    counter "completed" s = Some c ∧ counter "failed" s = Some f
    ∧ 0 ≤ c ≤ Z.of_nat
                (length (succeeded (history s))
                 + length (filter (λ pc, holds_result "completed" pc = true)
                                  (workers s)))
    ∧ 0 ≤ f ≤ Z.of_nat
                (length (filter (λ r, success r = false)
                                (results_put (history s)))
                 + length (filter (λ pc, holds_result "failed" pc = true)
                                  (workers s))).
Proof.
  intros Hreach. destruct (reachable_bounded s Hreach) as [Hc _].
  destruct (Hc "completed") as (c & Hcv & Hcle); [repeat constructor|].
  destruct (Hc "failed") as (f & Hfv & Hfle); [repeat constructor|].
  exists c, f. split; [done|]. split; [done|].
  unfold countable, succeeded in *.
  rewrite (list_filter_iff (λ r, counter_of r = "completed")
                           (λ r, success r = true)) in Hcle.
  2: { intros r. unfold counter_of. by destruct (success r). }
  rewrite (list_filter_iff (λ r, counter_of r = "failed")
                           (λ r, success r = false)) in Hfle.
  2: { intros r. unfold counter_of. by destruct (success r). }
  done.
Qed.

(** *** The pool *)

Lemma pool max_workers (w : World) acts s :
  run acts (init max_workers w) = Some s →
  length (workers s) = max_workers
  ∧ (raise_only (λ e, isinstance e "Exception") →
     running s = true → active (workers s) = max_workers).
Proof.
  intros Hrun.
  apply (run_keeps
           (λ _ s, length (workers s) = max_workers
                   ∧ (raise_only (λ e, isinstance e "Exception") →
                      running s = true → active (workers s) = max_workers))
           acts) with (s := init max_workers w) (done := []);
    [|apply inv_init| |done].
  - clear. intros a s s' _ _ [Hlen Hact] Htr. unfold active in *.
    transitions Htr; simpl; rewrite ?length_insert; try done.
    + split; [done|]. intros Honly Hrun. rewrite Hrun.
      pose proof (count_insert is_alive _ _ _ InGet Hi) as Hn. simpl in Hn.
      specialize (Hact Honly Hrun). lia.
    + split; [done|]. intros Honly Hrun.
      pose proof (count_insert is_alive _ _ _ AtLoopHead Hi) as Hn.
      simpl in Hn. specialize (Hact Honly Hrun). lia.
    + split; [done|]. intros Honly Hrun.
      pose proof (count_insert is_alive _ _ _ (InPipeline t) Hi) as Hn.
      simpl in Hn. specialize (Hact Honly Hrun). lia.
    + split; [done|]. intros Honly Hrun.
      assert (is_alive pc = true ∧ is_alive pc' = true) as [Ha Ha']
        by (by destruct pc, pc').
      pose proof (count_insert is_alive _ _ _ pc' Hi) as Hn.
      rewrite Ha, Ha' in Hn. specialize (Hact Honly Hrun). lia.
    + split; [done|]. intros Honly Hrun.
      pose proof (Honly e He) as HX. simpl in HX.
      unfold caught in Hcaught. rewrite HX in Hcaught. simpl in Hcaught.
      apply negb_false_iff in Hcaught. rewrite Hcaught.
      assert (is_alive pc = true) as Ha by (by destruct pc).
      pose proof (count_insert is_alive _ _ _ AtLoopHead Hi) as Hn.
      rewrite Ha in Hn. simpl in Hn. specialize (Hact Honly Hrun). lia.
    + split; [done|]. intros Honly Hrun.
      pose proof (count_insert is_alive _ _ _ (Running c t AtTaskDone) Hi)
        as Hn. simpl in Hn. specialize (Hact Honly Hrun). lia.
    + split; [done|]. intros Honly Hrun.
      pose proof (count_insert is_alive _ _ _ AtLoopHead Hi) as Hn.
      simpl in Hn. specialize (Hact Honly Hrun). lia.
  - simpl. rewrite length_replicate. split; [done|]. intros _ _.
    unfold active. clear. induction max_workers as [|m IH]; [done|].
    change (replicate (S m) AtLoopHead) with (AtLoopHead :: replicate m AtLoopHead).
    rewrite filter_cons. case_decide; [|done]. simpl. by rewrite IH.
Qed.

(** X7. The pool keeps the size it was created with, so at any time at
    most [max_workers] tasks are in a pipeline. *)
Theorem at_most_max_workers_in_pipeline max_workers (w : World) acts s :
  run acts (init max_workers w) = Some s →
  length (workers s) = max_workers
  ∧ (length (in_flight (workers s)) ≤ max_workers)%nat.
Proof.
  intros Hrun. destruct (pool max_workers w acts s Hrun) as [Hlen _].
  split; [done|]. rewrite in_flight_length. unfold busy.
  rewrite <- Hlen. apply length_filter.
Qed.

(** X8. When the capabilities raise only exceptions that derive from
    [Exception], no worker thread ends as long as [stop] has not been
    called: [get_active_workers] returns [max_workers]. *)
Theorem all_workers_alive_while_running max_workers (w : World) acts s :
  raise_only (λ e, isinstance e "Exception") →
  run acts (init max_workers w) = Some s →
  running s = true →
  get_active_workers s = (Return max_workers, s).
Proof.
  intros Honly Hrun Htrue.
  destruct (pool max_workers w acts s Hrun) as [_ Hact].
  unfold get_active_workers, reads. by rewrite <- (Hact Honly Htrue).
Qed.

(** *** After [stop] *)

(** X9. [stop] cannot be undone: once [self.running] is false it stays
    false in every later state, and the number of live worker threads
    never grows again. *)
Theorem stopped_for_good s0 acts s' :
  reachable s0 →
  running s0 = false →
  run acts s0 = Some s' →
  running s' = false ∧ (active (workers s') ≤ active (workers s0))%nat.
Proof.
  intros Hreach Hstop Hrun.
  apply (run_keeps
           (λ _ s', running s' = false
                    ∧ (active (workers s') ≤ active (workers s0))%nat)
           acts) with (s := s0) (done := []);
    [|by apply reachable_inv|done|done].
  clear. intros a s1 s2 _ _ [Hoff Hact] Htr. unfold active in *.
  transitions Htr; simpl; try done.
  - pose proof (count_insert is_alive _ _ _
                  (if running s then InGet else Exited) Hi) as Hn.
    rewrite Hoff in *. simpl in Hn. split; [done|]. lia.
  - pose proof (count_insert is_alive _ _ _ AtLoopHead Hi) as Hn.
    simpl in Hn. split; [done|]. lia.
  - pose proof (count_insert is_alive _ _ _ (InPipeline t) Hi) as Hn.
    simpl in Hn. split; [done|]. lia.
  - assert (is_alive pc = true ∧ is_alive pc' = true) as [Ha Ha']
      by (by destruct pc, pc').
    pose proof (count_insert is_alive _ _ _ pc' Hi) as Hn.
    rewrite Ha, Ha' in Hn. split; [done|]. lia.
  - assert (is_alive pc = true) as Ha by (by destruct pc).
    pose proof (count_insert is_alive _ _ _
                  (if isinstance e "queue.Empty" then AtLoopHead
                   else Crashed e) Hi) as Hn.
    rewrite Ha in Hn. split; [done|].
    destruct (isinstance e "queue.Empty"); simpl in Hn; lia.
  - pose proof (count_insert is_alive _ _ _ (Running c t AtTaskDone) Hi)
      as Hn. simpl in Hn. split; [done|]. lia.
  - pose proof (count_insert is_alive _ _ _ AtLoopHead Hi) as Hn.
    simpl in Hn. split; [done|]. lia.
Qed.

(** X10. Results can be stranded: once [self.running] is false and the
    results thread is at the test of its loop or has ended, the hook is
    never called again, whatever is or comes into [results_queue]. *)
Theorem no_delivery_after_stop s0 acts s' :
  reachable s0 →
  running s0 = false →
  results_thread s0 ≠ DInGet →
  run acts s0 = Some s' →
  callbacks (history s') = callbacks (history s0)
  ∧ results_thread s' ≠ DInGet.
Proof.
  intros Hreach Hstop Hpc Hrun.
  enough (running s' = false ∧ callbacks (history s') = callbacks (history s0)
          ∧ results_thread s' ≠ DInGet) as (_ & ? & ?) by done.
  apply (run_keeps
           (λ _ s', running s' = false
                    ∧ callbacks (history s') = callbacks (history s0)
                    ∧ results_thread s' ≠ DInGet)
           acts) with (s := s0) (done := []);
    [|by apply reachable_inv|done|done].
  clear. intros a s1 s2 _ _ (Hoff & Hcbs & Hpc') Htr.
  transitions Htr; simpl; try done.
  - by rewrite callbacks_app, Hcb, app_nil_r.
  - by rewrite callbacks_app, Hcb, app_nil_r.
  - by rewrite callbacks_app, app_nil_r.
  - by rewrite Hoff.
Qed.

End Properties.

(** ** The properties at concrete inputs *)

Import Demo.

Lemma assetless_task_fails_without_create_widget :
  let t := widget [] in
  task_images t = Some [] ∧ task_title t = Some "Widget" ∧
  ∃ s', process_task t (holding t) = (Return (), s')
      ∧ create_calls (history s') = create_calls (history (holding t))
      ∧ results_put (history s')
        = results_put (history (holding t))
          ++ [failure "Widget" "No images uploaded successfully" t].
Proof.
  split; [reflexivity|]. split; [reflexivity|].
  apply (assetless_task_fails_without_create (widget []));
    [reflexivity | reflexivity | simpl; lia].
Defined.

Lemma all_uploads_refused_widget :
  let t := widget ["b.jpg"; "b.jpg"] in
  ∃ s', process_task t (holding t) = (Return (), s')
      ∧ create_calls (history s') = create_calls (history (holding t))
      ∧ results_put (history s')
        = results_put (history (holding t))
          ++ [failure "Widget" "No images uploaded successfully" t]
      ∧ success (failure "Widget" "No images uploaded successfully" t) = false.
Proof.
  apply (all_uploads_refused (widget ["b.jpg"; "b.jpg"]) _
                             ["b.jpg"; "b.jpg"]);
    [reflexivity | discriminate | reflexivity
    | repeat constructor | simpl; lia].
Defined.

Lemma create_once_with_uploaded_images_widget :
  let t := widget ["a.jpg"; "b.jpg"; "c.jpg"] in
  ∃ p, create_calls (history (process_task t (holding t)).2)
       = create_calls (history (holding t)) ++ [p]
     ∧ wc_images p
       = (IdRef ∘ media_id <$> successes ["a.jpg"; "b.jpg"; "c.jpg"] 0)
     ∧ head (wc_images p)
       = (IdRef ∘ media_id <$> head (successes ["a.jpg"; "b.jpg"; "c.jpg"] 0)).
Proof.
  apply (create_once_with_uploaded_images
                      (widget ["a.jpg"; "b.jpg"; "c.jpg"])
           (holding (widget ["a.jpg"; "b.jpg"; "c.jpg"]))
           ["a.jpg"; "b.jpg"; "c.jpg"]);
    [reflexivity | reflexivity | repeat constructor | discriminate].
Defined.

Lemma holding_reachable t : reachable (holding t).
Proof.
  exists 1%nat, 0, [Call_add_to_queue t; Worker_step 0; Worker_step 0].
  by vm_compute.
Qed.

Lemma exception_escapes_the_handler_busy :
  let t := widget ["busy.jpg"] in
  let s := uploading t "busy.jpg" in
  ∃ s2,
    exec (WordPressMediaAPI0 := flaky_wp_api) (Worker_step 0) s = Some s2
    ∧ results_put (history s2) = results_put (history s)
    ∧ heap s2 = heap s
    ∧ unfinished_tasks (upload_queue s2) = unfinished_tasks (upload_queue s)
    ∧ workers s2 !! 0%nat = Some AtLoopHead.
Proof.
  apply (exception_escapes_the_handler (WordPressMediaAPI0 := flaky_wp_api)
           (uploading (widget ["busy.jpg"]) "busy.jpg") 0
           (widget ["busy.jpg"]) (AtUpload "busy.jpg" [] []) queue_Empty
           (log (UploadMedia "busy.jpg")
                (uploading (widget ["busy.jpg"]) "busy.jpg")));
    [reflexivity | by vm_compute | by vm_compute].
Defined.



Lemma process_task_is_the_worker_alone_widget :
  let t := widget ["a.jpg"; "b.jpg"] in
  ∃ n, run (replicate n (Worker_step 0)) (holding t)
       = Some (set_worker 0 (ending (process_task t (holding t)).1)
                          (process_task t (holding t)).2).
Proof.
  apply (process_task_is_the_worker_alone 0 (widget ["a.jpg"; "b.jpg"])
           (holding (widget ["a.jpg"; "b.jpg"]))).
  reflexivity.
Defined.


Lemma add_to_queue_accepts_widget :
  ∃ s', exec (Call_add_to_queue (widget [])) (holding (widget ["a.jpg"]))
        = Some s'
      ∧ add_to_queue (widget []) (holding (widget ["a.jpg"]))
        = (Return (Queue_qsize (upload_queue s')), s')
      ∧ items (upload_queue s') = [widget []]
      ∧ Queue_qsize (upload_queue s') = 1%nat.
Proof.
  apply (add_to_queue_accepts (widget []) (holding (widget ["a.jpg"]))).
  apply holding_reachable.
Defined.

Lemma get_stats_returns_a_copy_widget :
  ∃ l d,
    heap (holding (widget [])) !! stats (holding (widget [])) = Some d
    ∧ heap (holding (widget [])) !! l = None
    ∧ get_stats (holding (widget []))
      = (Return l, set_heap (<[l := d]> (heap (holding (widget []))))
                            (holding (widget [])))
    ∧ ∃ h, mutations l [SetItem "failed" 7; DelItem "total"; Clear]
                     (get_stats (holding (widget []))).2
           = set_heap h (holding (widget []))
         ∧ h !! stats (holding (widget [])) = Some d
         ∧ ∃ l2, get_stats (set_heap h (holding (widget [])))
                 = (Return l2, set_heap (<[l2 := d]> h) (holding (widget []))).
Proof.
  apply (get_stats_returns_a_copy (holding (widget []))).
  apply holding_reachable.
Defined.

(** Scenario D of the specification: two tasks in the queue, the only
    worker at the test of its loop. *)
Lemma two_queued_reachable :
  reachable two_queued.
Proof.
  exists 1%nat, 0,
    [Call_add_to_queue (widget ["a.jpg"]); Call_add_to_queue (widget ["c.jpg"])].
  by vm_compute.
Qed.

Lemma parked_workers_abandon_the_queue_scenario_D :
  ∃ s',
    run [Worker_step 0; Dispatcher_step; Call_add_to_queue (widget [])]
        (stop two_queued).2 = Some s'
    ∧ items (upload_queue two_queued) `prefix_of` items (upload_queue s')
    ∧ results_put (history s') = results_put (history two_queued)
    ∧ Forall (λ pc, in_pipeline pc = false) (workers s').
Proof.
  eexists. split; [by vm_compute|].
  apply (parked_workers_abandon_the_queue two_queued
           [Worker_step 0; Dispatcher_step; Call_add_to_queue (widget [])]);
    [apply two_queued_reachable | by repeat constructor | by vm_compute].
Defined.

(** C6, as stated, fails: a worker that is already inside
    [upload_queue.get] when [stop] is called has passed the test of
    [self.running]. Here one task is in the queue and no worker is in its
    pipeline when [stop] is called; the waiting worker then takes the task,
    runs it and puts its result. *)
Lemma waiting_worker_takes_a_task_after_stop :
  let t := widget ["a.jpg"] in
  ∃ s s',
    run [Worker_step 0; Call_add_to_queue t] (init 1 0) = Some s
    ∧ items (upload_queue s) = [t]
    ∧ Forall (λ pc, in_pipeline pc = false) (workers s)
    ∧ run (steps 7 0) (stop s).2 = Some s'
    ∧ items (upload_queue s') = []
    ∧ ∃ r, results_put (history s') = [r] ∧ res_task r = Some t.
Proof.
  do 2 eexists. split; [by vm_compute|]. split; [done|].
  split; [by repeat constructor|]. split; [by vm_compute|].
  split; [done|]. by eexists.
Qed.

(** C4, as stated, fails on the text of the error: with one image declared
    and its upload refused, the one result put is a failure, and its error
    is not ["no assets uploaded successfully"]. *)
Lemma refused_uploads_error_text :
  let t := widget ["b.jpg"] in
  let s' := (process_task t (holding t)).2 in
  Forall (λ r, refused r = true) (media_replies ["b.jpg"] 0)
  ∧ ∃ r, results_put (history s') = [r]
       ∧ success r = false
       ∧ res_error r = Some "No images uploaded successfully"
       ∧ res_error r ≠ Some "no assets uploaded successfully".
Proof.
  split; [by repeat constructor|].
  eexists. split; [by vm_compute|]. done.
Qed.

(** C2. The failure of lines 62-70 is put without being counted: after one
    task whose only upload is refused, a state is reached where one result
    has been put and the sum of [completed] and [failed] is still 0. *)
Theorem no_images_failure_is_not_counted :
  ∃ s c f,
    reachable s
    ∧ counter "completed" s = Some c
    ∧ counter "failed" s = Some f
    ∧ length (results_put (history s)) = 1%nat
    ∧ c + f ≠ Z.of_nat (length (results_put (history s))).
Proof.
  exists (state_after 1 (Call_add_to_queue (widget ["b.jpg"]) :: steps 5 0)),
         0, 0.
  split; [|by vm_compute].
  exists 1%nat, 0, (Call_add_to_queue (widget ["b.jpg"]) :: steps 5 0).
  by vm_compute.
Qed.

(** C8. A counter can go down. [self.stats['completed'] += 1] reads the
    item and stores the sum, and nothing keeps another worker from running
    between the two: here one worker has read 0, two others have then
    counted their tasks, and the store of the first puts the counter back
    from 2 to 1. *)
Theorem lost_update_lowers_completed :
  ∃ s s',
    reachable s
    ∧ exec (Worker_step 0) s = Some s'
    ∧ counter "completed" s = Some 2
    ∧ counter "completed" s' = Some 1.
Proof.
  exists (state_after 3 overtaken),
         (state_after 3 (overtaken ++ [Worker_step 0])).
  split; [|by vm_compute].
  exists 3%nat, 0, overtaken. by vm_compute.
Qed.

(** C3, as stated, fails for a task dict that lacks a key of the payload:
    the one image of this task uploads successfully, and [create_product]
    is not called; the task ends with the failure of the handler. It fails
    as well when an upload raises after another has succeeded. *)
Lemma uploaded_asset_without_create :
  (let t := gadget ["a.jpg"] in
   let s' := (process_task t (holding t)).2 in
   successes ["a.jpg"] (world (holding t)) ≠ []
   ∧ create_calls (history s') = []
   ∧ ∃ r, results_put (history s') = [r]
        ∧ success r = false
        ∧ res_error r = Some "'description'")
  ∧ (let t := widget ["a.jpg"; "down.jpg"] in
     let s' := (process_task (WordPressMediaAPI0 := flaky_wp_api)
                             t (holding t)).2 in
     successes (WordPressMediaAPI0 := flaky_wp_api)
               ["a.jpg"; "down.jpg"] (world (holding t)) ≠ []
     ∧ create_calls (history s') = []
     ∧ ∃ r, results_put (history s') = [r]
          ∧ success r = false
          ∧ res_error r = Some "connection refused").
Proof.
  split.
  - split; [by vm_compute|]. split; [by vm_compute|].
    eexists. split; [by vm_compute|]. done.
  - split; [by vm_compute|]. split; [by vm_compute|].
    eexists. split; [by vm_compute|]. done.
Qed.

(** Scenario B of the specification. *)
Example scenario_B :
  let t := widget ["b.jpg"; "b.jpg"] in
  let s' := (process_task t (holding t)).2 in
  create_calls (history s') = []
  ∧ success <$> results_put (history s') = [false]
  ∧ res_error <$> results_put (history s')
    = [Some "No images uploaded successfully"].
Proof. by vm_compute. Qed.

Lemma wait_for_completion_ignores_timeout_example :
  wait_for_completion (Some 5) two_queued = wait_for_completion "soon" two_queued
  ∧ (wait_for_completion (Some 5) two_queued = Some two_queued
     ↔ unfinished_tasks (upload_queue two_queued) = 0%nat)
  ∧ (wait_for_completion (Some 5) two_queued = None
     ↔ unfinished_tasks (upload_queue two_queued) ≠ 0%nat).
Proof.
  apply (wait_for_completion_ignores_timeout (Some 5) "soon" two_queued).
Defined.

(** Scenario A of the specification. *)
Example scenario_A :
  let t := widget ["a.jpg"; "b.jpg"] in
  let s' := (process_task t (holding t)).2 in
  wc_images <$> create_calls (history s') = [[IdRef 1]]
  ∧ success <$> results_put (history s') = [true]
  ∧ counter "completed" s' = Some 1.
Proof. by vm_compute. Qed.


(** ** The clients of [api_client.py] *)

Section ClientProperties.

Context {World : Type} `{!Network World}.

Lemma bind_run {St A B} (m : M St A) (k : A → M St B) s :
  (m ≫= k) s = match m s with
               | (Return a, s') => k a s'
               | (Raise e, s') => (Raise e, s')
               end.
Proof. reflexivity. Qed.



(** X12. [upload_media] reports success exactly when the file was read, the
    request, which carries the bytes of the file as they are, was answered
    with status 200 or 201, and the JSON body has an ['id'] and a
    ['source_url']; the reply then carries these two. *)
Theorem upload_media_success self image_path (w w' : World) u :
  wp_upload_media self image_path w = (Return (MediaOk u), w')
  ↔ ∃ img_data w1 response,
      open_rb image_path w = (Return img_data, w1)
      ∧ mp_data (media_request self image_path img_data) = img_data
      ∧ post_media (media_request self image_path img_data) w1
        = (Return response, w')
      ∧ resp_status_code response ∈ [200; 201]
      ∧ resp_json response
        = Return (MediaData (Some (media_id u)) (Some (media_url u))).
Proof.
  unfold wp_upload_media, try_except. rewrite bind_run. split.
  - destruct (open_rb image_path w) as [[img_data|e] w1]; [|done].
    rewrite bind_run.
    destruct (post_media _ w1) as [[response|e] w2] eqn:Hpost; [|done].
    case_bool_decide as Hst; [|done].
    rewrite bind_run. unfold of_outcome.
    destruct (resp_json response) as [[[id|] [url|]]|e] eqn:Hj; try done.
    intros [= <- <-]. eexists _, _, _. by repeat split.
  - intros (img_data & w1 & response & -> & _ & Hpost & Hst & Hj).
    rewrite bind_run, Hpost. rewrite bool_decide_eq_true_2 by done.
    rewrite bind_run. unfold of_outcome. rewrite Hj. simpl. by destruct u.
Qed.





(** *** [get_categories] *)

Lemma loop_to_the_end self cats fuel : ∀ page acc (w : World),
  (∀ q w, ∃ w', get_categories_page q w = (Return (page_of cats q), w')) →
  (1 ≤ page)%nat →
  acc = take ((page - 1) * 100) cats →
  ((page - 1) * 100 ≤ length cats)%nat →
  (length cats < (page - 1 + fuel) * 100)%nat →
  (get_categories_loop fuel self 100 page acc w).1 = Return (Some cats).
Proof.
  induction fuel as [|fuel IH]; intros page acc w Hserver Hpage Hacc Hle Hlt.
  { lia. }
  simpl. rewrite bind_run.
  destruct (Hserver (CategoriesGet (api_base self +:+ "/products/categories")
                       (consumer_key self, consumer_secret self)
                       100 page false 10) w) as [w' ->].
  simpl. rewrite bind_run. unfold of_outcome.
  set (k := ((page - 1) * 100)%nat) in *.
  case_bool_decide as Hshort.
  - simpl. f_equal. f_equal. subst acc.
    rewrite length_take, length_drop in Hshort.
    rewrite (take_ge (drop k cats)) by (rewrite length_drop; lia).
    apply take_drop.
  - rewrite length_take, length_drop in Hshort.
    apply IH; [done | lia | | |].
    + subst acc. rewrite take_take_drop. f_equal. lia.
    + lia.
    + lia.
Qed.

(** X15. When the server holds the categories [cats] and serves them page
    by page, [get_categories] ends and returns all of them, in order, as
    soon as it may make one request more than there are full pages. *)
Theorem get_categories_lists_all self cats fuel (w : World) :
  (∀ q w, ∃ w', get_categories_page q w = (Return (page_of cats q), w')) →
  (length cats < fuel * 100)%nat →
  (wc_get_categories fuel self w).1 = Return (Some cats).
Proof.
  intros Hserver Hfuel. unfold wc_get_categories, try_except.
  assert ((get_categories_loop fuel self 100 1 [] w).1 = Return (Some cats))
    as Hloop by (apply loop_to_the_end; simpl; try done; lia).
  by destruct (get_categories_loop fuel self 100 1 [] w) as [[r|e] w'].
Qed.

Lemma loop_to_page self cats k (R : list category → outcome (option (list category)))
    fuel : ∀ page acc (w : World),
  (∀ q w, (cg_page q < k)%nat →
          ∃ w', get_categories_page q w = (Return (page_of cats q), w')) →
  (∀ fuel' acc' w',
     (get_categories_loop (S fuel') self 100 k acc' w').1 = R acc') →
  (1 ≤ page ≤ k)%nat →
  acc = take ((page - 1) * 100) cats →
  ((k - 1) * 100 ≤ length cats)%nat →
  (k - page < fuel)%nat →
  (get_categories_loop fuel self 100 page acc w).1
  = R (take ((k - 1) * 100) cats).
Proof.
  induction fuel as [|fuel IH];
    intros page acc w Hserver Hthere Hpage Hacc Hle Hlt.
  { lia. }
  destruct (decide (page = k)) as [->|Hne].
  { subst acc. apply Hthere. }
  simpl. rewrite bind_run.
  destruct (Hserver (CategoriesGet (api_base self +:+ "/products/categories")
                       (consumer_key self, consumer_secret self)
                       100 page false 10) w) as [w' ->]; [simpl; lia|].
  simpl. rewrite bind_run. unfold of_outcome.
  set (n := ((page - 1) * 100)%nat) in *.
  rewrite bool_decide_eq_false_2
    by (rewrite length_take, length_drop; lia).
  apply IH; [done | done | lia | | done | lia].
  subst acc. rewrite take_take_drop. f_equal. lia.
Qed.

(** X16. A page that is answered with another status than 200 ends the
    listing without an error: [get_categories] returns the categories of
    the pages before it and nothing tells the caller that some are
    missing. *)
Theorem get_categories_truncates_on_error self cats k fuel (w : World) :
  (∀ q w, (cg_page q < k)%nat →
          ∃ w', get_categories_page q w = (Return (page_of cats q), w')) →
  (∀ q w, cg_page q = k →
          ∃ response w',
            get_categories_page q w = (Return response, w')
            ∧ resp_status_code response ≠ 200) →
  (1 ≤ k)%nat →
  ((k - 1) * 100 ≤ length cats)%nat →
  (k ≤ fuel)%nat →
  (wc_get_categories fuel self w).1
  = Return (Some (take ((k - 1) * 100) cats)).
Proof.
  intros Hserver Hbad Hk Hle Hfuel. unfold wc_get_categories, try_except.
  assert ((get_categories_loop fuel self 100 1 [] w).1
          = Return (Some (take ((k - 1) * 100) cats))) as Hloop.
  { apply (loop_to_page self cats k (λ acc, Return (Some acc)));
      simpl; try done; try lia.
    intros fuel' acc' w0. simpl. rewrite bind_run.
    destruct (Hbad (CategoriesGet (api_base self +:+ "/products/categories")
                      (consumer_key self, consumer_secret self)
                      100 k false 10) w0 eq_refl) as (resp & w1 & -> & Hst).
    by rewrite bool_decide_eq_false_2. }
  by destruct (get_categories_loop fuel self 100 1 [] w) as [[r|e] w'].
Qed.


End ClientProperties.

(** ** The producers *)

Section ProducerProperties.

Context {World : Type}.
Context `{!WordPressMediaAPI World, !WooCommerceAPI World, !Owner World}.
Context `{!Desk World}.

Implicit Types (s : state World).

Lemma validate_loop_spec products : ∀ stats valid_products,
  (bs_with_images stats + bs_without_images stats = bs_valid stats)%nat →
  length valid_products = bs_valid stats →
  (length (bs_errors stats) = bs_invalid stats + bs_without_images stats)%nat →
  let r := validate_loop products stats valid_products in
  bs_total r.1 = bs_total stats
  ∧ (bs_valid r.1 + bs_invalid r.1
     = bs_valid stats + bs_invalid stats + length products)%nat
  ∧ (bs_with_images r.1 + bs_without_images r.1 = bs_valid r.1)%nat
  ∧ length r.2 = bs_valid r.1
  ∧ (length (bs_errors r.1) = bs_invalid r.1 + bs_without_images r.1)%nat
  ∧ r.2 = valid_products ++ filter (λ p, acceptable p = true) products.
Proof.
  induction products as [|product rest IH];
    intros stats valid_products Hw Hv He; simpl.
  { rewrite app_nil_r. repeat split; try done; lia. }
  assert (∀ st vp,
    (bs_with_images st + bs_without_images st = bs_valid st)%nat →
    length vp = bs_valid st →
    (length (bs_errors st) = bs_invalid st + bs_without_images st)%nat →
    bs_total st = bs_total stats →
    (bs_valid st + bs_invalid st = S (bs_valid stats + bs_invalid stats))%nat →
    vp ++ filter (λ p, acceptable p = true) rest
    = valid_products ++ filter (λ p, acceptable p = true) (product :: rest) →
    let r := validate_loop rest st vp in
    bs_total r.1 = bs_total stats
    ∧ (bs_valid r.1 + bs_invalid r.1
       = bs_valid stats + bs_invalid stats + S (length rest))%nat
    ∧ (bs_with_images r.1 + bs_without_images r.1 = bs_valid r.1)%nat
    ∧ length r.2 = bs_valid r.1
    ∧ (length (bs_errors r.1) = bs_invalid r.1 + bs_without_images r.1)%nat
    ∧ r.2 = valid_products
            ++ filter (λ p, acceptable p = true) (product :: rest)) as Hnext.
  { intros st vp H1 H2 H3 H4 H5 H6.
    destruct (IH st vp H1 H2 H3) as (? & ? & ? & ? & ? & Hr).
    repeat split; try done; try lia. by rewrite Hr. }
  clear IH.
  destruct (acceptable product) eqn:Hacc; unfold acceptable in Hacc.
  - apply andb_true_iff in Hacc as [Hacc Hp0].
    apply andb_true_iff in Hacc as [Ht Hp].
    rewrite Ht, Hp. apply negb_true_iff in Hp0. rewrite Hp0. simpl.
    assert (acceptable product = true) as Hok
      by (unfold acceptable; by rewrite Ht, Hp, Hp0).
    destruct (default false (prod_has_images product)); apply Hnext; simpl;
      rewrite ?length_app; simpl; try lia; try done;
      by rewrite filter_cons_True, <- app_assoc.
  - assert (acceptable product ≠ true) as Hno
      by (unfold acceptable; by rewrite Hacc).
    destruct (truthy (prod_title product)); simpl.
    2: { apply Hnext; simpl; rewrite ?length_app; simpl; try lia; try done.
         by rewrite filter_cons_False. }
    destruct (truthy (prod_price product)); simpl.
    2: { apply Hnext; simpl; rewrite ?length_app; simpl; try lia; try done.
         by rewrite filter_cons_False. }
    simpl in Hacc. apply negb_false_iff in Hacc. rewrite Hacc.
    apply Hnext; simpl; rewrite ?length_app; simpl; try lia; try done.
    by rewrite filter_cons_False.
Qed.

(** X18. The statistics of [validate_products] add up: every product is
    counted as valid or invalid, every valid one as with or without
    images, [valid_products] has as many entries as [valid] says, and there
    is one error line for each invalid product and each valid product
    without images. *)
Theorem validate_products_counts products :
  let r := validate_products products in
  bs_total r.1 = length products
  ∧ (bs_valid r.1 + bs_invalid r.1 = bs_total r.1)%nat
  ∧ (bs_with_images r.1 + bs_without_images r.1 = bs_valid r.1)%nat
  ∧ length r.2 = bs_valid r.1
  ∧ (length (bs_errors r.1) = bs_invalid r.1 + bs_without_images r.1)%nat.
Proof.
  destruct (validate_loop_spec products (BulkStats (length products) 0 0 0 0 [])
              [] eq_refl eq_refl eq_refl) as (Ht & Hvi & Hw & Hl & He & _).
  unfold validate_products. simpl in *. repeat split; try done. lia.
Qed.

(** X19. [valid_products] are the products with a title and with a price
    that is neither empty nor ["0"], in the order they came in; whether a
    product has images does not matter. *)
Theorem valid_products_are_the_acceptable products :
  (validate_products products).2 = filter (λ p, acceptable p = true) products.
Proof.
  by destruct (validate_loop_spec products (BulkStats (length products) 0 0 0 0 [])
                 [] eq_refl eq_refl eq_refl) as (_ & _ & _ & _ & _ & ?).
Qed.

(** *** [queue_bulk_products] *)

Lemma queue_bulk_loop_spec category_id batch_id products :
  ∀ added skipped s,
    stats_ok s →
    ∃ chosen stamps s',
      queue_bulk_loop category_id batch_id products added skipped s
      = (Return ((added + length chosen)%nat,
                 (skipped + (length products - length chosen))%nat), s')
      ∧ chosen `sublist_of` products
      ∧ (∀ p, p ∈ products → default false (prod_has_images p) = true →
              p ∈ chosen)
      ∧ length stamps = length chosen
      ∧ items (upload_queue s')
        = items (upload_queue s)
          ++ zip_with (λ p ts, queue_data p category_id batch_id ts)
                      chosen stamps
      ∧ stats_ok s'
      ∧ history s' = history s ∧ workers s' = workers s
      ∧ running s' = running s ∧ results_queue s' = results_queue s.
Proof.
  induction products as [|product rest IH]; intros added skipped s Hok.
  { exists [], [], s. simpl. rewrite !Nat.add_0_r, app_nil_r.
    split; [done|]. split; [constructor|].
    split; [by intros p Hp%elem_of_nil|]. done. }
  simpl. rewrite bind_run.
  assert (∀ s1, stats_ok s1 →
            history s1 = history s → workers s1 = workers s →
            running s1 = running s → results_queue s1 = results_queue s →
            upload_queue s1 = upload_queue s →
            ∃ chosen stamps s',
              (timestamp ← clock now_isoformat;
               _ ← add_to_queue
                     (queue_data product category_id batch_id timestamp);
               queue_bulk_loop category_id batch_id rest (S added) skipped) s1
              = (Return ((added + length chosen)%nat,
                         (skipped + (length (product :: rest)
                                     - length chosen))%nat), s')
              ∧ chosen `sublist_of` product :: rest
              ∧ (∀ p, p ∈ product :: rest →
                      default false (prod_has_images p) = true → p ∈ chosen)
              ∧ length stamps = length chosen
              ∧ items (upload_queue s')
                = items (upload_queue s)
                  ++ zip_with (λ p ts, queue_data p category_id batch_id ts)
                              chosen stamps
              ∧ stats_ok s'
              ∧ history s' = history s ∧ workers s' = workers s
              ∧ running s' = running s ∧ results_queue s' = results_queue s)
    as Htake.
  { intros s1 Hok1 Hh Hw Hr Hq Hu. rewrite bind_run. unfold clock.
    destruct (now_isoformat (world s1)) as [timestamp w1]. rewrite bind_run.
    pose proof Hok1 as Hok1'.
    apply stats_ok_lookup in Hok1' as (d & c & f & n & Hd & Hc & Hf & Hn).
    rewrite (add_to_queue_eq _ (set_world w1 s1) d n Hd Hn).
    match goal with
    | |- context [queue_bulk_loop _ _ rest (S added) skipped ?st] =>
        destruct (IH (S added) skipped st)
          as (chosen & stamps & s' & -> & Hsub & Hall & Hlen & Hitems & Hok'
              & Hh' & Hw' & Hr' & Hq')
    end.
    { apply stats_ok_lookup. exists (<["total" := n + 1]> d), c, f, (n + 1).
      simpl. rewrite !lookup_insert_eq, !lookup_insert_ne by done. done. }
    exists (product :: chosen), (timestamp :: stamps), s'.
    apply sublist_length in Hsub as Hle. simpl in *.
    split; [by rewrite Nat.add_succ_r|].
    split; [by constructor|]. split.
    { intros p [->|Hp]%elem_of_cons Hhas; [by left|]. right. by apply Hall. }
    split; [by rewrite Hlen|].
    split; [by rewrite Hitems, Hu, <- app_assoc|].
    split; [done|]. repeat split; congruence. }
  destruct (default false (prod_has_images product)) eqn:Hhas; simpl.
  { by apply Htake. }
  unfold ask. destruct (askyesno "Missing Images" (world s)) as [[] w1]; simpl.
  { by apply Htake. }
  destruct (IH added (S skipped) (set_world w1 s))
    as (chosen & stamps & s' & -> & Hsub & Hall & Hlen & Hitems & Hok'
        & Hh' & Hw' & Hr' & Hq'); [done|].
  exists chosen, stamps, s'. apply sublist_length in Hsub as Hle.
  split.
  { replace (skipped + (S (length rest) - length chosen))%nat
      with (S skipped + (length rest - length chosen))%nat by lia. done. }
  split; [by constructor|]. split.
  { intros p [->|Hp]%elem_of_cons Hp'; [congruence|]. by apply Hall. }
  done.
Qed.

(** X20. [queue_bulk_products] never raises in a reachable state. It adds
    one task for each product of a sub-list of the products loaded, in
    their order, behind the tasks that already wait; every product that has
    images is among them, the counts it shows are the number added and the
    number left out, and ['total_bulk'] grows by the number added. Each
    task it adds has the keys the worker reads. When it returns before the
    loop (no product, no category chosen, no id for it, or the user says
    no) it adds nothing. *)
Theorem queue_bulk_products_adds bulk_products category_display
    category_dict total_bulk s :
  reachable s →
  ∃ r s' chosen stamps category_id batch_id,
    queue_bulk_products bulk_products category_display category_dict
                        total_bulk s = (Return r, s')
    ∧ items (upload_queue s')
      = items (upload_queue s)
        ++ zip_with (λ p ts, queue_data p category_id batch_id ts)
                    chosen stamps
    ∧ length stamps = length chosen
    ∧ chosen `sublist_of` bulk_products
    ∧ Forall (λ t, payload_keys t = true ∧ is_Some (task_images t))
             (zip_with (λ p ts, queue_data p category_id batch_id ts)
                       chosen stamps)
    ∧ history s' = history s
    ∧ match r with
      | None => chosen = []
      | Some (added, skipped, total_bulk') =>
          added = length chosen
          ∧ (added + skipped)%nat = length bulk_products
          ∧ total_bulk' = total_bulk + Z.of_nat added
          ∧ category_dict !! category_display = Some category_id
          ∧ category_id ≠ 0
          ∧ (∀ p, p ∈ bulk_products →
                  default false (prod_has_images p) = true → p ∈ chosen)
      end.
Proof.
  intros Hreach. destruct (reachable_inv s Hreach) as (Hok & _).
  assert (∀ s1, history s1 = history s → upload_queue s1 = upload_queue s →
            ∃ r s' chosen stamps category_id batch_id,
              (Return None, s1) = (Return r, s')
              ∧ items (upload_queue s')
                = items (upload_queue s)
                  ++ zip_with (λ p ts, queue_data p category_id batch_id ts)
                              chosen stamps
              ∧ length stamps = length chosen
              ∧ chosen `sublist_of` bulk_products
              ∧ Forall (λ t, payload_keys t = true ∧ is_Some (task_images t))
                       (zip_with
                          (λ p ts, queue_data p category_id batch_id ts)
                          chosen stamps)
              ∧ history s' = history s
              ∧ match r with
                | None => chosen = []
                | Some (added, skipped, total_bulk') =>
                    added = length chosen
                    ∧ (added + skipped)%nat = length bulk_products
                    ∧ total_bulk' = total_bulk + Z.of_nat added
                    ∧ category_dict !! category_display = Some category_id
                    ∧ category_id ≠ 0
                    ∧ (∀ p, p ∈ bulk_products →
                            default false (prod_has_images p) = true →
                            p ∈ chosen)
                end) as Hnone.
  { intros s1 Hh Hq. exists None, s1, [], [], 0, "". simpl.
    rewrite app_nil_r, Hq. repeat split; try done. apply sublist_nil_l. }
  unfold queue_bulk_products.
  destruct bulk_products as [|product rest] eqn:Hprods; [by apply Hnone|].
  rewrite <- Hprods in *. clear Hprods.
  case_bool_decide; [by apply Hnone|].
  destruct (category_dict !! category_display) as [category_id|] eqn:Hcat;
    [|by apply Hnone].
  case_bool_decide as Hzero; [by apply Hnone|].
  rewrite bind_run. unfold ask.
  destruct (askyesno "Confirm Bulk Upload" (world s)) as [[] w1]; simpl;
    [|by apply Hnone].
  rewrite bind_run. unfold clock. simpl.
  destruct (now_strftime w1) as [batch_id w2]. rewrite bind_run.
  match goal with
  | |- context [queue_bulk_loop _ _ _ _ _ ?st] =>
      destruct (queue_bulk_loop_spec category_id batch_id bulk_products 0 0 st)
        as (chosen & stamps & s' & -> & Hsub & Hall & Hlen & Hitems & _
            & Hh' & _); [done|]
  end.
  apply sublist_length in Hsub as Hle. simpl in *.
  eexists _, s', chosen, stamps, category_id, batch_id.
  split; [done|]. split; [done|]. split; [done|]. split; [done|].
  split.
  { clear. revert stamps. induction chosen as [|p chosen IH];
      intros [|ts stamps]; simpl; constructor; [|by apply IH].
    split; [by apply bool_decide_eq_true; repeat split | done]. }
  split; [done|]. simpl. repeat split; try done; lia.
Qed.

End ProducerProperties.

(** ** The categories *)

Lemma build_tree_returns cats (height : Z → nat) fuel : ∀ parent_id level,
  Forall (λ c, height (cat_id c) < height (cat_parent c))%nat cats →
  (height parent_id < fuel)%nat →
  is_Some (build_tree fuel cats parent_id level).
Proof.
  induction fuel as [|fuel IH]; intros parent_id level Hh Hfuel; [lia|].
  simpl. apply mapM_is_Some, Forall_forall.
  intros c [Hp Hc]%list_elem_of_filter. simpl.
  pose proof (proj1 (Forall_forall _ _) Hh c Hc) as Hlt. simpl in Hlt, Hp.
  rewrite Hp in Hlt.
  destruct (IH (cat_id c) (S level)) as [children ->]; [done | lia |].
  by eexists.
Qed.

Lemma build_tree_lists cats fuel : ∀ parent_id level tree,
  build_tree fuel cats parent_id level = Some tree →
  ∀ d, d ∈ flatten_tree tree
       ↔ ∃ n c, descendant cats parent_id n c
                ∧ d = display_name (level + n) c.
Proof.
  induction fuel as [|fuel IH]; intros parent_id level tree Hb d; [done|].
  simpl in Hb. apply mapM_Some in Hb.
  unfold flatten_tree. rewrite list_elem_of_bind. split.
  - intros (item & Hd & Hitem).
    apply list_elem_of_lookup in Hitem as [i Hi].
    destruct (Forall2_lookup_r _ _ _ _ _ Hb Hi) as (c & Hc & Hf).
    apply list_elem_of_lookup_2, list_elem_of_filter in Hc as [Hp Hc].
    destruct (build_tree fuel cats (cat_id c) (S level)) as [children|] eqn:Hch;
      [|done].
    simpl in Hf. injection Hf as <-. simpl in Hd.
    apply elem_of_cons in Hd as [->|Hd].
    + exists 0%nat, c. split; [by constructor|]. by rewrite Nat.add_0_r.
    + apply (IH _ _ _ Hch) in Hd as (n & c' & Hdesc & ->).
      exists (S n), c'. split; [by econstructor|]. f_equal. lia.
  - intros (n & c' & Hdesc & ->).
    inversion Hdesc as [p c Hc Hp|p c m c'' Hc Hp Hdesc']; subst.
    + assert (c' ∈ filter (λ cat, cat_parent cat = cat_parent c') cats) as Hin
        by by apply list_elem_of_filter.
      apply list_elem_of_lookup in Hin as [i Hi].
      destruct (Forall2_lookup_l _ _ _ _ _ Hb Hi) as (item & Hitem & Hf).
      exists item. split; [|by eapply list_elem_of_lookup_2].
      destruct (build_tree fuel cats (cat_id c') (S level)); [|done].
      simpl in Hf. injection Hf as <-. simpl. rewrite Nat.add_0_r. by left.
    + assert (c ∈ filter (λ cat, cat_parent cat = cat_parent c) cats) as Hin
        by by apply list_elem_of_filter.
      apply list_elem_of_lookup in Hin as [i Hi].
      destruct (Forall2_lookup_l _ _ _ _ _ Hb Hi) as (item & Hitem & Hf).
      exists item. split; [|by eapply list_elem_of_lookup_2].
      destruct (build_tree fuel cats (cat_id c) (S level)) as [children|] eqn:Hch;
        [|done].
      simpl in Hf. injection Hf as <-. simpl. right.
      apply (IH _ _ _ Hch). exists m, c'. split; [done|]. f_equal. lia.
Qed.

Lemma build_tree_too_deep cats fuel : ∀ parent_id level n c,
  descendant cats parent_id n c →
  (fuel ≤ S n)%nat →
  build_tree fuel cats parent_id level = None.
Proof.
  induction fuel as [|fuel IH]; intros parent_id level n c Hdesc Hfuel; [done|].
  simpl. apply mapM_None, Exists_exists.
  inversion Hdesc as [p c1 Hc Hp|p c1 m c'' Hc Hp Hdesc']; subst.
  - exists c. split; [by apply list_elem_of_filter|].
    assert (fuel = 0%nat) as -> by lia. done.
  - exists c1. split; [by apply list_elem_of_filter|].
    by rewrite (IH (cat_id c1) (S level) m c Hdesc') by lia.
Qed.


(** X21. [build_category_tree] returns when the categories nest less deep
    than the interpreter allows recursion: when ids have a height that
    falls from each category's parent to the category, and the height of
    the root is below [fuel]. *)
Theorem build_category_tree_returns fuel cats (height : Z → nat) :
  Forall (λ c, height (cat_id c) < height (cat_parent c))%nat cats →
  (height 0%Z < fuel)%nat →
  is_Some (build_category_tree fuel cats).
Proof.
  intros Hh Hfuel. unfold build_category_tree.
  by destruct (build_tree_returns cats height fuel 0 0 Hh Hfuel) as [tree ->].
Qed.

(** X22. The list for the combo boxes holds the display names of exactly
    the categories that hang from the root: those whose chain of parents,
    each in the list of categories, ends at parent 0. Each is indented by
    two spaces for every ancestor. A category whose parent is missing is
    not shown. *)
Theorem category_list_is_the_rooted fuel cats category_list tree :
  build_category_tree fuel cats = Some (category_list, tree) →
  ∀ d, d ∈ category_list
       ↔ ∃ n c, descendant cats 0 n c ∧ d = display_name n c.
Proof.
  unfold build_category_tree. intros Hb d.
  destruct (build_tree fuel cats 0 0) as [tree'|] eqn:Hbt; [|done].
  simpl in Hb. injection Hb as <- <-.
  by rewrite (build_tree_lists cats fuel 0 0 tree' Hbt).
Qed.

(** X23. When a category hangs [n] levels below a top category and the
    interpreter allows only [n + 1] nested calls or fewer,
    [build_category_tree] does not return a shorter list: it ends in a
    [RecursionError]. *)
Theorem build_category_tree_too_deep fuel cats n c :
  descendant cats 0 n c →
  (fuel ≤ S n)%nat →
  build_category_tree fuel cats = None.
Proof.
  intros Hdesc Hfuel. unfold build_category_tree.
  by rewrite (build_tree_too_deep cats fuel 0 0 n c Hdesc Hfuel).
Qed.

Lemma append_nil s : "" +:+ s = s.
Proof. done. Qed.

Lemma append_cons a s1 s2 : String a s1 +:+ s2 = String a (s1 +:+ s2).
Proof. done. Qed.

Lemma free_nil a : free a "".
Proof. done. Qed.

Lemma free_cons a b s : free a (String b s) ↔ a ≠ b ∧ free a s.
Proof.
  unfold free. simpl. destruct (Ascii.ascii_dec a b) as [->|Hne].
  - destruct s; simpl; split; try done; by intros [? _].
  - destruct (String.index 0 (String a "") s); split; try done; by intros [_ ?].
Qed.

Lemma free_app a s1 s2 : free a (s1 +:+ s2) ↔ free a s1 ∧ free a s2.
Proof.
  induction s1 as [|b s1 IH]; rewrite ?append_nil, ?append_cons.
  - split; [by split|by intros [_ ?]].
  - rewrite !free_cons, IH. tauto.
Qed.

Lemma index_free a t s : free a s → String.index 0 (String a t) s = None.
Proof.
  induction s as [|b s IH]; [done|].
  intros [Hne Hs]%free_cons. simpl.
  destruct (Ascii.ascii_dec a b); [done|]. by rewrite IH.
Qed.

Lemma index_skip a t s1 s2 :
  free a s1 →
  is_Some (String.index 0 (String a t) (s1 +:+ s2)) →
  is_Some (String.index 0 (String a t) s2).
Proof.
  induction s1 as [|b s1 IH]; [done|].
  intros [Hne Hs]%free_cons. rewrite append_cons. simpl.
  destruct (Ascii.ascii_dec a b); [done|].
  destruct (String.index _ _ (s1 +:+ s2)) eqn:Hi; [|by intros [? [=]]].
  intros _. by apply IH.
Qed.

Lemma prefix_refl s : String.prefix s s = true.
Proof.
  induction s as [|a s IH]; [done|]. simpl.
  by destruct (Ascii.ascii_dec a a).
Qed.

Lemma index_refl s : is_Some (String.index 0 s s).
Proof. destruct s; [by eexists|]. cbn [String.index]. rewrite prefix_refl. by eexists. Qed.

Lemma index_after pattern s1 s2 :
  is_Some (String.index 0 pattern s2) → is_Some (String.index 0 pattern (s1 +:+ s2)).
Proof.
  intros Hs. induction s1 as [|b s1 [k IH]]; [done|].
  rewrite append_cons. cbn [String.index]. rewrite IH.
  destruct (String.prefix pattern (String b (s1 +:+ s2))); by eexists.
Qed.

Lemma prefix_closed a s1 : ∀ s2,
  free a s1 → free a s2 →
  String.prefix (s1 +:+ String a "") (s2 +:+ String a "") = true → s1 = s2.
Proof.
  induction s1 as [|b s1 IH]; intros [|c s2];
    rewrite ?append_nil, ?append_cons; simpl; try done.
  - intros _ [Hne _]%free_cons. by destruct (Ascii.ascii_dec a c).
  - intros [Hne _]%free_cons _.
    destruct (Ascii.ascii_dec b a); [done|]. by destruct s1.
  - intros [_ H1]%free_cons [_ H2]%free_cons.
    destruct (Ascii.ascii_dec b c) as [->|]; [|done].
    intros Hp. f_equal. by apply IH.
Qed.

Lemma free_pretty_N_go a x : ∀ s,
  (∀ y, pretty_N_char y ≠ a) → free a s → free a (pretty_N_go x s).
Proof.
  induction (N.lt_wf_0 x) as [x _ IH]; intros s Ha Hs.
  assert (x = 0 ∨ 0 < x)%N as [->|?] by lia.
  - by rewrite pretty_N_go_0.
  - rewrite pretty_N_go_step by done. apply IH; [by apply N.div_lt|done|].
    apply free_cons. split; [|done]. intros Heq. by apply (Ha (x `mod` 10)%N).
Qed.

Lemma free_pretty_Z a (x : Z) :
  (∀ y, pretty_N_char y ≠ a) → a ≠ "-"%char → free a (pretty x).
Proof.
  intros Ha Hdash. destruct x as [|x|x].
  - apply free_cons. split; [|done]. intros ->. by apply (Ha 0%N).
  - by apply free_pretty_N_go.
  - apply free_cons. split; [done|]. by apply free_pretty_N_go.
Qed.

Lemma pretty_N_char_paren y :
  pretty_N_char y ≠ "("%char ∧ pretty_N_char y ≠ ")"%char.
Proof. unfold pretty_N_char. by repeat case_match. Qed.

Lemma free_indent level : free "(" (indent level).
Proof.
  induction level as [|level IH]; [done|]. simpl.
  rewrite !append_cons, append_nil. apply free_cons. split; [done|]. by apply free_cons.
Qed.

Lemma tag_in_tag i j : contains (id_tag i) (id_tag j) = true → i = j.
Proof.
  intros Hc%bool_decide_eq_true. unfold id_tag in Hc.
  assert (free ")" (pretty i) ∧ free ")" (pretty j) ∧ free "(" (pretty j))
    as (Hi & Hj & Hj').
  { repeat split; apply free_pretty_Z; try done;
      intros y; apply pretty_N_char_paren. }
  rewrite !append_cons, !append_nil in Hc. simpl in Hc.
  destruct (String.prefix (pretty i +:+ ")") (pretty j +:+ ")")) eqn:Hp.
  - apply (inj pretty). by apply (prefix_closed ")").
  - rewrite index_free in Hc; [by destruct Hc|].
    apply free_app. split; [done|]. by apply free_cons.
Qed.

Lemma tag_in_display i level c :
  free "(" (cat_name c) →
  contains (id_tag i) (display_name level c) = true ↔ i = cat_id c.
Proof.
  intros Hname. unfold display_name.
  change (" (ID: " +:+ pretty (cat_id c) +:+ ")")
    with (" " +:+ id_tag (cat_id c)).
  split.
  - intros Hc%bool_decide_eq_true. apply tag_in_tag, bool_decide_eq_true.
    apply index_skip in Hc; [|apply free_indent].
    apply index_skip in Hc; [|done].
    by apply (index_skip _ _ " ") in Hc.
  - intros ->. apply bool_decide_eq_true.
    apply index_after, index_after, (index_after _ " "), index_refl.
Qed.

Lemma first_tagged_Some id category_list d :
  first_tagged id category_list = Some d →
  d ∈ category_list ∧ contains (id_tag id) d = true.
Proof.
  induction category_list as [|d' rest IH]; [done|]. simpl.
  destruct (contains (id_tag id) d') eqn:Hc.
  - intros [= <-]. split; [by left|done].
  - intros [Hd ?]%IH. split; [by right|done].
Qed.

Lemma first_tagged_None id category_list d :
  first_tagged id category_list = None →
  d ∈ category_list → contains (id_tag id) d = false.
Proof.
  induction category_list as [|d' rest IH]; [by intros _ ?%elem_of_nil|].
  simpl. destruct (contains (id_tag id) d') eqn:Hc; [done|].
  intros Hr [->|Hd]%elem_of_cons; [done|]. by apply IH.
Qed.

Lemma combos_entries cats category_list (m0 : gmap string Z) d i :
  foldl (λ category_dict cat,
           match first_tagged (cat_id cat) category_list with
           | Some display_name => <[display_name := cat_id cat]> category_dict
           | None => category_dict
           end) m0 cats !! d = Some i →
  m0 !! d = Some i
  ∨ (d ∈ category_list ∧ contains (id_tag i) d = true
     ∧ ∃ c, c ∈ cats ∧ cat_id c = i).
Proof.
  revert m0. induction cats as [|c cats IH]; intros m0; simpl; [by left|].
  intros [Hm|(Hd & Hc & c' & Hc' & Hi)]%IH.
  - destruct (first_tagged (cat_id c) category_list) as [d'|] eqn:Hf;
      [|by left].
    destruct (decide (d' = d)) as [->|Hne].
    + rewrite lookup_insert_eq in Hm. injection Hm as <-.
      apply first_tagged_Some in Hf as [? ?]. right.
      split; [done|]. split; [done|]. exists c. split; [by left|done].
    + rewrite lookup_insert_ne in Hm by done. by left.
  - right. split; [done|]. split; [done|]. exists c'. split; [by right|done].
Qed.

(** X24. Every entry of [category_dict] maps a display name of the list
    shown to the id of a loaded category whose tag [(ID: id)] occurs in that
    name. *)
Theorem category_dict_entries cats category_list d i :
  _update_category_combos cats category_list !! d = Some i →
  d ∈ category_list ∧ contains (id_tag i) d = true
  ∧ ∃ c, c ∈ cats ∧ cat_id c = i.
Proof. by intros [?|?]%combos_entries. Qed.

Lemma combos_kept cats category_list (m0 : gmap string Z) d i :
  (∀ c, c ∈ cats → first_tagged (cat_id c) category_list = Some d →
        cat_id c = i) →
  m0 !! d = Some i →
  foldl (λ category_dict cat,
           match first_tagged (cat_id cat) category_list with
           | Some display_name => <[display_name := cat_id cat]> category_dict
           | None => category_dict
           end) m0 cats !! d = Some i.
Proof.
  revert m0. induction cats as [|c cats IH]; intros m0 Hsame Hm; [done|].
  simpl. apply IH; [by intros c' Hc'; apply Hsame; right|].
  destruct (first_tagged (cat_id c) category_list) as [d'|] eqn:Hf; [|done].
  destruct (decide (d' = d)) as [->|Hne].
  - rewrite lookup_insert_eq. f_equal. apply Hsame; [by left|done].
  - by rewrite lookup_insert_ne.
Qed.

Lemma combos_set cats category_list (m0 : gmap string Z) d x :
  x ∈ cats →
  first_tagged (cat_id x) category_list = Some d →
  (∀ c, c ∈ cats → first_tagged (cat_id c) category_list = Some d →
        cat_id c = cat_id x) →
  foldl (λ category_dict cat,
           match first_tagged (cat_id cat) category_list with
           | Some display_name => <[display_name := cat_id cat]> category_dict
           | None => category_dict
           end) m0 cats !! d = Some (cat_id x).
Proof.
  revert m0. induction cats as [|c cats IH]; intros m0 Hx Hf Hsame;
    [by apply elem_of_nil in Hx|].
  simpl. destruct (decide (cat_id c = cat_id x)) as [Heq|Hne].
  - apply combos_kept; [by intros c' Hc'; apply Hsame; right|].
    rewrite Heq, Hf. by rewrite lookup_insert_eq.
  - apply elem_of_cons in Hx as [->|Hx]; [done|].
    apply IH; [done|done|]. by intros c' Hc'; apply Hsame; right.
Qed.

Lemma descendant_in cats p n c : descendant cats p n c → c ∈ cats.
Proof. induction 1; done. Qed.

Lemma descendant_up cats : ∀ n p c,
  descendant cats p (S n) c →
  ∃ c1, c1 ∈ cats ∧ cat_id c1 = cat_parent c ∧ descendant cats p n c1.
Proof.
  induction n as [|n IH]; intros p c Hd;
    inversion Hd as [|p' c0 n' c' Hc0 Hp0 Hd']; subst.
  - inversion Hd'; subst. exists c0. split; [done|]. split; [done|].
    by constructor.
  - destruct (IH _ _ Hd') as (c1 & Hc1 & Hid & Hd1).
    exists c1. split; [done|]. split; [done|].
    by apply (descendant_deeper _ _ c0).
Qed.

Lemma same_id cats c1 c2 :
  NoDup (cat_id <$> cats) → c1 ∈ cats → c2 ∈ cats →
  cat_id c1 = cat_id c2 → c1 = c2.
Proof.
  induction cats as [|c cats IH]; [by intros _ ?%elem_of_nil|].
  rewrite fmap_cons, NoDup_cons. intros [Hc Hnd].
  intros [->|H1]%elem_of_cons [->|H2]%elem_of_cons Hid; try done.
  - destruct Hc. rewrite Hid. by apply list_elem_of_fmap_2.
  - destruct Hc. rewrite <- Hid. by apply list_elem_of_fmap_2.
  - by apply IH.
Qed.

Lemma depth_unique cats :
  NoDup (cat_id <$> cats) →
  Forall (λ c, cat_id c ≠ 0) cats →
  ∀ n m c, descendant cats 0 n c → descendant cats 0 m c → n = m.
Proof.
  intros Hnd Hnz.
  assert (∀ k c, descendant cats 0 0 c → descendant cats 0 (S k) c → False)
    as Htop.
  { intros k c H0 (c1 & Hc1 & Hid & _)%descendant_up.
    inversion H0 as [? ? _ Hp|]; subst.
    rewrite Forall_forall in Hnz. apply (Hnz c1 Hc1). congruence. }
  induction n as [|n IH]; intros [|m] c Hn Hm; [done|by destruct (Htop m c)
                                                |by destruct (Htop n c)|].
  apply descendant_up in Hn as (c1 & Hc1 & Hid1 & Hn).
  apply descendant_up in Hm as (c2 & Hc2 & Hid2 & Hm).
  assert (c1 = c2) as -> by (apply (same_id cats); congruence).
  f_equal. by apply (IH m c2).
Qed.

(** X25. When the categories have distinct ids, none of them 0, and no
    name holds an opening parenthesis, every display name in the combo
    boxes is mapped by [category_dict] to the id of its own category. *)
Theorem category_dict_maps_the_listed fuel cats category_list tree :
  build_category_tree fuel cats = Some (category_list, tree) →
  NoDup (cat_id <$> cats) →
  Forall (λ c, cat_id c ≠ 0) cats →
  Forall (λ c, free "(" (cat_name c)) cats →
  ∀ d, d ∈ category_list →
       ∃ n c, descendant cats 0 n c ∧ d = display_name n c
              ∧ _update_category_combos cats category_list !! d
                = Some (cat_id c).
Proof.
  intros Hb Hnd Hnz Hfree d Hd. unfold build_category_tree in Hb.
  destruct (build_tree fuel cats 0 0) as [tree'|] eqn:Hbt; [|done].
  simpl in Hb. injection Hb as <- <-.
  pose proof (build_tree_lists cats fuel 0 0 tree' Hbt) as Hlist.
  rewrite Forall_forall in Hfree.
  assert (∀ c d', c ∈ cats →
            first_tagged (cat_id c) (flatten_tree tree') = Some d' →
            ∃ n, descendant cats 0 n c ∧ d' = display_name n c) as Hkey.
  { intros c d' Hc [Hd' Htag]%first_tagged_Some.
    apply Hlist in Hd' as (n & c' & Hdesc & ->). simpl in *.
    apply tag_in_display in Htag;
      [|by eapply Hfree, descendant_in].
    assert (c = c') as <-
      by (apply (same_id cats); eauto using descendant_in).
    by exists n. }
  apply Hlist in Hd as (n & c & Hdesc & ->). simpl in *.
  exists n, c. split; [done|]. split; [done|].
  pose proof (descendant_in _ _ _ _ Hdesc) as Hc.
  apply combos_set; [done| |].
  - destruct (first_tagged (cat_id c) (flatten_tree tree')) as [d'|] eqn:Hf.
    + destruct (Hkey c d' Hc Hf) as (m & Hm & ->).
      by rewrite (depth_unique cats Hnd Hnz _ _ _ Hm Hdesc).
    + apply (first_tagged_None _ _ (display_name n c)) in Hf.
      * rewrite (proj2 (tag_in_display _ _ _ (Hfree c Hc)) eq_refl) in Hf.
        done.
      * apply Hlist. by exists n, c.
  - intros c' Hc' [Hd' Htag]%first_tagged_Some.
    by apply tag_in_display in Htag; [|apply Hfree].
Qed.

(** ** The further properties at concrete inputs *)

Lemma midday_reachable : reachable (state_after 2 midday).
Proof. exists 2%nat, 0, midday. by vm_compute. Qed.


(** The capabilities of the examples never raise. *)
Lemma shop_never_raises (P : exn → bool) : raise_only (World := Z) P.
Proof.
  intros e [(image_path & w & w' & Hup)|(p & w & w' & Hcr)]; simpl in *.
  - by case_bool_decide.
  - done.
Qed.

Lemma tasks_conserved_midday :
  let s := state_after 2 midday in
  run midday (init 2 0) = Some s
  ∧ unanswered (workers s) = [gadget ["c.jpg"]]
  ∧ ∃ dropped,
      tasks_done (history s) ++ unanswered (workers s)
        ++ items (upload_queue s) ++ dropped ≡ₚ submitted midday
      ∧ unfinished_tasks (upload_queue s)
        = (length (items (upload_queue s)) + busy (workers s)
           + length dropped)%nat
      ∧ (raise_only caught → dropped = []).
Proof.
  split; [by vm_compute|]. split; [by vm_compute|].
  apply (tasks_conserved midday 2 0 (state_after 2 midday)). by vm_compute.
Defined.

Lemma wait_for_completion_all_done_evening :
  let s := state_after 2 evening in
  run evening (init 2 0) = Some s
  ∧ wait_for_completion (Some 30) s = Some s
  ∧ items (upload_queue s) = [] ∧ in_flight (workers s) = []
  ∧ tasks_done (history s) ≡ₚ submitted evening
  ∧ length (results_put (history s)) = length (submitted evening).
Proof.
  split; [by vm_compute|]. split; [by vm_compute|].
  apply (wait_for_completion_all_done (Some 30) evening 2 0
           (state_after 2 evening)); by vm_compute.
Defined.

Lemma single_worker_is_fifo_one_by_one :
  let s := state_after 1 one_by_one in
  run one_by_one (init 1 0) = Some s
  ∧ unanswered (workers s) = [widget ["b.jpg"]]
  ∧ tasks_done (history s) ++ unanswered (workers s) ++ items (upload_queue s)
    = submitted one_by_one.
Proof.
  split; [by vm_compute|]. split; [by vm_compute|].
  apply (single_worker_is_fifo one_by_one 0 (state_after 1 one_by_one));
    [apply shop_never_raises | by vm_compute].
Defined.


(** Three workers, three successful tasks: after the late store of the
    first worker [completed] is 1, two successful results have been put and
    the first worker holds the third. *)
Lemma counters_do_not_overcount_overtaken :
  let s := state_after 3 (overtaken ++ [Worker_step 0]) in
  run (overtaken ++ [Worker_step 0]) (init 3 0) = Some s
  ∧ length (succeeded (history s)) = 2%nat
  ∧ holds_result "completed" <$> workers s = [true; false; false]
  ∧ counter "completed" s = Some 1
  ∧ ∃ c f,
      counter "completed" s = Some c ∧ counter "failed" s = Some f
      ∧ 0 ≤ c ≤ Z.of_nat
                  (length (succeeded (history s))
                   + length (filter (λ pc, holds_result "completed" pc = true)
                                    (workers s)))
      ∧ 0 ≤ f ≤ Z.of_nat
                  (length (filter (λ r, success r = false)
                                  (results_put (history s)))
                   + length (filter (λ pc, holds_result "failed" pc = true)
                                    (workers s))).
Proof.
  do 4 (split; [by vm_compute|]).
  apply (counters_do_not_overcount
           (state_after 3 (overtaken ++ [Worker_step 0]))).
  exists 3%nat, 0, (overtaken ++ [Worker_step 0]). by vm_compute.
Defined.

Lemma at_most_max_workers_in_pipeline_midday :
  let s := state_after 2 midday in
  run midday (init 2 0) = Some s
  ∧ length (workers s) = 2%nat
  ∧ (length (in_flight (workers s)) ≤ 2)%nat.
Proof.
  split; [by vm_compute|].
  apply (at_most_max_workers_in_pipeline 2 0 midday (state_after 2 midday)).
  by vm_compute.
Defined.

Lemma all_workers_alive_while_running_midday :
  let s := state_after 2 midday in
  run midday (init 2 0) = Some s
  ∧ running s = true
  ∧ get_active_workers s = (Return 2%nat, s).
Proof.
  split; [by vm_compute|]. split; [by vm_compute|].
  apply (all_workers_alive_while_running 2 0 midday (state_after 2 midday));
    [apply shop_never_raises | by vm_compute | by vm_compute].
Defined.

Lemma stopped_for_good_closing :
  let s0 := (stop (state_after 2 midday)).2 in
  let s' := default s0 (run closing s0) in
  running s0 = false
  ∧ run closing s0 = Some s'
  ∧ running s' = false
  ∧ (active (workers s') ≤ active (workers s0))%nat.
Proof.
  split; [by vm_compute|]. split; [by vm_compute|].
  apply (stopped_for_good (stop (state_after 2 midday)).2 closing);
    [|by vm_compute|by vm_compute].
  exists 2%nat, 0, (midday ++ [Call_stop]). by vm_compute.
Defined.

Lemma no_delivery_after_stop_closing :
  let s0 := (stop (state_after 2 midday)).2 in
  let s' := default s0 (run closing s0) in
  running s0 = false
  ∧ results_thread s0 ≠ DInGet
  ∧ run closing s0 = Some s'
  ∧ length (items (results_queue s')) = 2%nat
  ∧ callbacks (history s') = callbacks (history s0)
  ∧ results_thread s' ≠ DInGet.
Proof.
  split; [by vm_compute|]. split; [by vm_compute|].
  split; [by vm_compute|]. split; [by vm_compute|].
  apply (no_delivery_after_stop (stop (state_after 2 midday)).2 closing);
    [|by vm_compute|by vm_compute|by vm_compute].
  exists 2%nat, 0, (midday ++ [Call_stop]). by vm_compute.
Defined.


Lemma get_categories_lists_all_shelf :
  (wc_get_categories (Network0 := servers no_fault) 3 shop 0).1
  = Return (Some shelf).
Proof.
  apply (get_categories_lists_all (Network0 := servers no_fault)
           shop shelf 3 0); [|vm_compute; lia].
  intros q w. by eexists.
Defined.

Lemma get_categories_truncates_on_error_shelf :
  (wc_get_categories (Network0 := servers bad_gateway) 5 shop 0).1
  = Return (Some (take 200 shelf)).
Proof.
  apply (get_categories_truncates_on_error (Network0 := servers bad_gateway)
           shop shelf 3 5 0); [| |lia|vm_compute; lia|lia].
  - intros q w Hq. simpl. unfold bad_gateway.
    rewrite bool_decide_eq_false_2 by lia. by eexists.
  - intros q w Hq. simpl. unfold bad_gateway.
    rewrite bool_decide_eq_true_2 by done. by eexists _, _.
Defined.


Lemma queue_bulk_products_adds_kitchen :
  let s := state_after 2 midday in
  reachable s
  ∧ ∃ r s' chosen stamps category_id batch_id,
      queue_bulk_products [kettle; teapot] "Kitchen (2)"
                          {[ "Kitchen (2)" := 7 ]} 4 s = (Return r, s')
      ∧ items (upload_queue s')
        = items (upload_queue s)
          ++ zip_with (λ p ts, queue_data p category_id batch_id ts)
                      chosen stamps
      ∧ length stamps = length chosen
      ∧ chosen `sublist_of` [kettle; teapot]
      ∧ Forall (λ t, payload_keys t = true ∧ is_Some (task_images t))
               (zip_with (λ p ts, queue_data p category_id batch_id ts)
                         chosen stamps)
      ∧ history s' = history s
      ∧ match r with
        | None => chosen = []
        | Some (added, skipped, total_bulk') =>
            added = length chosen
            ∧ (added + skipped)%nat = length [kettle; teapot]
            ∧ total_bulk' = 4 + Z.of_nat added
            ∧ ({[ "Kitchen (2)" := 7 ]} : gmap string Z) !! "Kitchen (2)"
              = Some category_id
            ∧ category_id ≠ 0
            ∧ (∀ p, p ∈ [kettle; teapot] →
                    default false (prod_has_images p) = true → p ∈ chosen)
        end.
Proof.
  split; [apply midday_reachable|].
  apply (queue_bulk_products_adds [kettle; teapot] "Kitchen (2)"
           {[ "Kitchen (2)" := 7 ]} 4 (state_after 2 midday)).
  apply midday_reachable.
Defined.

Lemma build_category_tree_returns_toys :
  is_Some (build_category_tree 3 toys).
Proof.
  apply (build_category_tree_returns 3 toys toys_height); [|vm_compute; lia].
  repeat constructor; vm_compute; lia.
Defined.

Lemma category_list_is_the_rooted_toys :
  let d := "  Dolls (ID: 2)" in
  build_category_tree 5 toys = Some toys_listing
  ∧ toys_listing.1 = ["Toys (ID: 1)"; d; "Games (ID: 3)"]
  ∧ (d ∈ toys_listing.1
     ↔ ∃ n c, descendant toys 0 n c ∧ d = display_name n c).
Proof.
  split; [by vm_compute|]. split; [by vm_compute|].
  apply (category_list_is_the_rooted 5 toys toys_listing.1 toys_listing.2).
  by vm_compute.
Defined.

Lemma build_category_tree_too_deep_toys :
  descendant toys 0 1 dolls ∧ build_category_tree 2 toys = None.
Proof.
  assert (descendant toys 0 1 dolls) as Hd.
  { apply (descendant_deeper toys 0 (Category 1 "Toys" 0)); [by left|done|].
    constructor; [by right; left|done]. }
  split; [done|].
  apply (build_category_tree_too_deep 2 toys 1 dolls Hd). lia.
Defined.

Lemma category_dict_entries_toys :
  let d := "  Dolls (ID: 2)" in
  _update_category_combos toys toys_listing.1 !! d = Some 2
  ∧ d ∈ toys_listing.1 ∧ contains (id_tag 2) d = true
  ∧ ∃ c, c ∈ toys ∧ cat_id c = 2.
Proof.
  split; [by vm_compute|].
  apply (category_dict_entries toys toys_listing.1 "  Dolls (ID: 2)" 2).
  by vm_compute.
Defined.

Lemma category_dict_maps_the_listed_toys :
  let d := "  Dolls (ID: 2)" in
  d ∈ toys_listing.1
  ∧ ∃ n c, descendant toys 0 n c ∧ d = display_name n c
           ∧ _update_category_combos toys toys_listing.1 !! d
             = Some (cat_id c).
Proof.
  assert ("  Dolls (ID: 2)" ∈ toys_listing.1) as Hd
    by (apply (bool_decide_unpack _); by vm_compute).
  split; [done|].
  apply (category_dict_maps_the_listed 5 toys toys_listing.1 toys_listing.2);
    [by vm_compute | | | | done].
  - apply (bool_decide_unpack _). by vm_compute.
  - by repeat constructor.
  - by repeat constructor.
Defined.
